(** * cfgnorm: normalisation of context-free grammars

    A shallow embedding of [cfgnorm.py] (class [Grammar], class [Pipeline],
    [proper_powerset] and the pipeline [main] builds from its flags) and
    the properties of its analyses and rewrite operations.

    Conventions of the embedding

    - a Python [str] is a [string]; a symbol is a [string];
    - a production alternative (a Python tuple of symbols) is a
      [list symbol];
    - a Python [set] is a duplicate-free list, read in iteration order.
      Python fixes no iteration order for sets, so every statement
      about a result is phrased through membership, and where the source
      depends on the order (the two passes of [without_unit_rules], the
      [enumerate] of [with_pair_rules]) the order is an explicit list;
    - an [OrderedDict] / [defaultdict] is an association list with unique
      keys, in insertion order;
    - a Python exception is the outcome [Raise]; the [while] loops run on
      fuel computed from the grammar, and [Diverge] is the outcome of a
      loop that used all of it (shown below never to happen). *)

From Stdlib Require Import List String Ascii Bool Arith NArith Lia
  DecimalString Permutation Relations.
Import ListNotations.
Open Scope string_scope.
Open Scope list_scope.

(** ** Equality tests *)

Class EqType (A : Type) : Type := {
  eqv : A -> A -> bool;
  eqv_iff : forall x y, eqv x y = true <-> x = y
}.

Arguments eqv : simpl never.

Fixpoint list_eqv {A} (e : A -> A -> bool) (l1 l2 : list A) : bool :=
  match l1, l2 with
  | [], [] => true
  | x :: l1', y :: l2' => e x y && list_eqv e l1' l2'
  | _, _ => false
  end.

Lemma list_eqv_iff {A} (e : A -> A -> bool)
      (He : forall x y, e x y = true <-> x = y) :
  forall l1 l2, list_eqv e l1 l2 = true <-> l1 = l2.
Proof.
  induction l1 as [|x l1 IH]; destruct l2 as [|y l2]; simpl;
    try (split; congruence).
  rewrite andb_true_iff, He, IH. split.
  - intros [-> ->]; reflexivity.
  - intros H; inversion H; auto.
Qed.

Lemma pair_eqv_iff {A B} (ea : A -> A -> bool) (eb : B -> B -> bool)
      (Ha : forall x y, ea x y = true <-> x = y)
      (Hb : forall x y, eb x y = true <-> x = y) :
  forall p q : A * B,
    ea (fst p) (fst q) && eb (snd p) (snd q) = true <-> p = q.
Proof.
  intros [a b] [c d]; simpl. rewrite andb_true_iff, Ha, Hb. split.
  - intros [-> ->]; reflexivity.
  - intros H; inversion H; auto.
Qed.

#[export] Instance EqType_string : EqType string :=
  {| eqv := String.eqb; eqv_iff := String.eqb_eq |}.

#[export] Instance EqType_nat : EqType nat :=
  {| eqv := Nat.eqb; eqv_iff := Nat.eqb_eq |}.

#[export] Instance EqType_list {A} `{EqType A} : EqType (list A) :=
  {| eqv := list_eqv eqv; eqv_iff := list_eqv_iff eqv eqv_iff |}.

#[export] Instance EqType_pair {A B} `{EqType A} `{EqType B} : EqType (A * B) :=
  {| eqv := fun p q => eqv (fst p) (fst q) && eqv (snd p) (snd q);
     eqv_iff := pair_eqv_iff eqv eqv eqv_iff eqv_iff |}.

(** ** Outcomes: return, exception, exhausted fuel *)

Inductive exn : Type :=
| KeyError (key : option string)      (* [None] is the Python key [None] *)
| AttributeError (what : string)
| ValueError (index : nat) (line : string)
| IndexError.

Inductive outcome (A : Type) : Type :=
| Return (a : A)
| Raise (e : exn)
| Diverge.

Arguments Return {A} a.
Arguments Raise {A} e.
Arguments Diverge {A}.

Definition bind {A B} (c : outcome A) (k : A -> outcome B) : outcome B :=
  match c with
  | Return a => k a
  | Raise e => Raise e
  | Diverge => Diverge
  end.

Notation "x <- c ;; k" := (bind c (fun x => k))
  (at level 61, c at next level, right associativity).

(** A [for] loop whose body may raise. *)
Fixpoint foldM {A S} (body : S -> A -> outcome S) (l : list A) (s : S)
  : outcome S :=
  match l with
  | [] => Return s
  | x :: l' => s' <- body s x ;; foldM body l' s'
  end.

(** ** Python sets *)

Module PySet.
Section Ops.
Context {A : Type} `{EqType A}.

(** [x in s] *)
Definition mem (x : A) (s : list A) : bool := existsb (eqv x) s.

(** [s.add(x)] *)
Definition add (x : A) (s : list A) : list A :=
  if mem x s then s else s ++ [x].

(** [s.discard(x)] *)
Definition discard (x : A) (s : list A) : list A :=
  filter (fun y => negb (eqv x y)) s.

(** [s |= t], also [s.update(t)] *)
Definition update (s t : list A) : list A :=
  fold_left (fun acc x => add x acc) t s.

(** [set(l)], [frozenset(l)] *)
Definition of_list (l : list A) : list A := update [] l.

Definition subset (s t : list A) : bool := forallb (fun x => mem x t) s.

(** [s == t] *)
Definition equal (s t : list A) : bool := subset s t && subset t s.
End Ops.
End PySet.

(** ** Dictionaries: [OrderedDict] and [defaultdict(set)] *)

Module PyDict.
Section Ops.
Context {V : Type}.

Definition dict := list (string * V).

Definition keys (d : dict) : list string := map fst d.

(** [k in d] *)
Definition has (k : string) (d : dict) : bool := PySet.mem k (keys d).

Fixpoint get (k : string) (d : dict) : option V :=
  match d with
  | [] => None
  | (k', v) :: d' => if eqv k k' then Some v else get k d'
  end.

(** [d[k]] on a plain or ordered dictionary *)
Definition getitem (k : string) (d : dict) : outcome V :=
  match get k d with
  | Some v => Return v
  | None => Raise (KeyError (Some k))
  end.

(** the binding of an existing key is replaced in place *)
Fixpoint replace (k : string) (v : V) (d : dict) : dict :=
  match d with
  | [] => []
  | (k', v') :: d' =>
      if eqv k k' then (k', v) :: d' else (k', v') :: replace k v d'
  end.

(** [d[k] = v]: a new key goes to the end *)
Definition setitem (k : string) (v : V) (d : dict) : dict :=
  if has k d then replace k v d else d ++ [(k, v)].

Definition remove (k : string) (d : dict) : dict :=
  filter (fun kv => negb (eqv k (fst kv))) d.

(** [d.move_to_end(k, last=False)] *)
Definition move_to_front (k : string) (d : dict) : outcome dict :=
  match get k d with
  | Some v => Return ((k, v) :: remove k d)
  | None => Raise (KeyError (Some k))
  end.
End Ops.
Arguments dict V : clear implicits.
End PyDict.

Abbreviation symbol := string (only parsing).

(** A production alternative ([opt] in the source): a tuple of symbols. *)
Abbreviation alt := (list string) (only parsing).

Abbreviation ruleset := (PyDict.dict (list (list string))) (only parsing).

(** [new_rules[lhs].add(opt)] where [new_rules] is an ordered dictionary:
    the key must exist. *)
Definition rules_add (lhs : symbol) (opt : alt) (d : ruleset)
  : outcome ruleset :=
  rhs <- PyDict.getitem lhs d ;;
  Return (PyDict.replace lhs (PySet.add opt rhs) d).

(** [new_rules[lhs].add(opt)] where [new_rules] is a [defaultdict(set)]:
    a missing key is created with an empty set first. *)
Definition default_add (lhs : symbol) (opt : alt) (d : ruleset) : ruleset :=
  match PyDict.get lhs d with
  | Some rhs => PyDict.replace lhs (PySet.add opt rhs) d
  | None => d ++ [(lhs, [opt])]
  end.

(** ** class Grammar *)

Record Grammar : Type := mkGrammar {
  rules : ruleset;
  start : symbol
}.

(** [Grammar.__init__]: [move_to_end] raises [KeyError] when [start] is
    not a key of [rules]. *)
Definition Grammar_init (r : ruleset) (s : symbol) : outcome Grammar :=
  r' <- PyDict.move_to_front s r ;;
  Return (mkGrammar r' s).

Definition nonterminals (g : Grammar) : list symbol :=
  PyDict.keys (rules g).

(** The symbols of all alternatives, in the order of the comprehension. *)
Definition rhs_symbols (r : ruleset) : list symbol :=
  flat_map (fun kv => List.concat (snd kv)) r.

(** [Grammar.terminals]: a [frozenset]. *)
Definition terminals (g : Grammar) : list symbol :=
  PySet.of_list
    (filter (fun sym => negb (PyDict.has sym (rules g)))
            (rhs_symbols (rules g))).

(** [Grammar.stringof] *)
Definition stringof (s : alt) (alphabet : list symbol) : bool :=
  forallb (fun sym => PySet.mem sym alphabet) s.

(** A structurally well-formed grammar: what a dictionary of sets with
    [start] among its keys is. *)
Definition well_formed (g : Grammar) : Prop :=
  NoDup (nonterminals g) /\
  In (start g) (nonterminals g) /\
  forall lhs rhs, In (lhs, rhs) (rules g) -> NoDup rhs.

(** ** The fixpoint loops

    All four analyses have the shape
    [while new != old: old = deepcopy(new); <update new in place>;
     return old].  [pass] is the in-place update, as a function of the
    value of [new] when the pass begins. *)
Fixpoint while_changed {A} `{EqType A} (pass : list A -> outcome (list A))
         (fuel : nat) (old new : list A) : outcome (list A) :=
  if PySet.equal new old then Return old
  else match fuel with
       | 0 => Diverge
       | S fuel' =>
           new' <- pass new ;;
           while_changed pass fuel' new new'
       end.

(** *** [_nullable_nonterminals] *)

Definition is_empty {A} (l : list A) : bool :=
  match l with [] => true | _ => false end.

(** The [for] loop of one round: [new_nullable] grows while the rules
    are traversed, and the test of a later rule sees the additions. *)
Definition nullable_pass (r : ruleset) (new_nullable : list symbol)
  : list symbol :=
  fold_left
    (fun acc kv =>
       if existsb (fun opt => stringof opt acc) (snd kv)
       then PySet.add (fst kv) acc else acc)
    r new_nullable.

Definition direct_nullable (r : ruleset) : list symbol :=
  PySet.of_list
    (map fst (filter (fun kv => existsb is_empty (snd kv)) r)).

Definition _nullable_nonterminals (g : Grammar) : outcome (list symbol) :=
  while_changed (fun new => Return (nullable_pass (rules g) new))
                (S (S (List.length (rules g))))
                (direct_nullable (rules g)) [].

(** *** [proper_powerset] *)

(** [itertools.combinations(l, r)] *)
Fixpoint combinations {A} (l : list A) (r : nat) : list (list A) :=
  match r, l with
  | 0, _ => [[]]
  | S _, [] => []
  | S r', x :: l' => map (cons x) (combinations l' r') ++ combinations l' r
  end.

Definition proper_powerset {A} (l : list A) : list (list A) :=
  flat_map (combinations l) (seq 0 (List.length l)).

Definition enumerate {A} (l : list A) : list (nat * A) :=
  combine (seq 0 (List.length l)) l.

(** *** [without_epsilon_rules] *)

Definition nullable_indices (nullable : list symbol) (opt : alt) : list nat :=
  map fst (filter (fun isym => PySet.mem (snd isym) nullable) (enumerate opt)).

Definition epsilon_variant (nullable : list symbol) (kept : list nat)
           (opt : alt) : alt :=
  map snd
      (filter (fun isym => negb (PySet.mem (snd isym) nullable)
                           || PySet.mem (fst isym) kept)
              (enumerate opt)).

Definition epsilon_expand (nullable : list symbol) (r new_rules : ruleset)
  : outcome ruleset :=
  foldM (fun nr kv =>
    let lhs := fst kv in
    foldM (fun nr opt =>
      foldM (fun nr kept =>
        let new_opt := epsilon_variant nullable kept opt in
        if negb (is_empty new_opt) && negb (eqv new_opt [lhs])
        then rules_add lhs new_opt nr
        else Return nr)
        (proper_powerset (nullable_indices nullable opt)) nr)
      (snd kv) nr)
    r new_rules.

Definition without_epsilon_rules (g : Grammar) : outcome Grammar :=
  nullable <- _nullable_nonterminals g ;;
  let new_rules :=
    map (fun kv => (fst kv, PySet.discard [] (snd kv))) (rules g) in
  new_rules <- epsilon_expand nullable (rules g) new_rules ;;
  if PySet.mem (start g) nullable then
    let start' := (start g ++ "'")%string in
    Grammar_init
      (PyDict.setitem start' (PySet.of_list [[]; [start g]]) new_rules)
      start'
  else Grammar_init new_rules (start g).

(** *** [_unit_pairs] *)

Definition direct_unit_pairs (g : Grammar) : list (symbol * symbol) :=
  PySet.of_list
    (flat_map
       (fun kv =>
          flat_map (fun opt =>
                      match opt with
                      | [y] => if PySet.mem y (nonterminals g)
                               then [(fst kv, y)] else []
                      | _ => []
                      end)
                   (snd kv))
       (rules g)).

(** One round: the two nested loops read the copy [unit_pairs] and add
    to [new_unit_pairs]. *)
Definition unit_pairs_pass (new_unit_pairs : list (symbol * symbol))
  : list (symbol * symbol) :=
  let unit_pairs := new_unit_pairs in
  fold_left
    (fun acc xy =>
       fold_left
         (fun acc yz =>
            if eqv (snd xy) (fst yz)
            then PySet.add (fst xy, snd yz) acc else acc)
         unit_pairs acc)
    unit_pairs new_unit_pairs.

Definition _unit_pairs (g : Grammar) : outcome (list (symbol * symbol)) :=
  let n := List.length (rules g) in
  while_changed (fun new => Return (unit_pairs_pass new))
                (S (n * n)) [] (direct_unit_pairs g).

(** *** [without_unit_rules]

    [order1] and [order2] are the orders in which the first and the
    second [for x, y in unit_pairs] loop meet the pairs. *)
Definition discard_unit (nr : ruleset) (xy : symbol * symbol)
  : outcome ruleset :=
  rx <- PyDict.getitem (fst xy) nr ;;
  Return (PyDict.replace (fst xy) (PySet.discard [snd xy] rx) nr).

Definition absorb_unit (nr : ruleset) (xy : symbol * symbol)
  : outcome ruleset :=
  rx <- PyDict.getitem (fst xy) nr ;;
  ry <- PyDict.getitem (snd xy) nr ;;
  Return (PyDict.replace (fst xy) (PySet.update rx ry) nr).

Definition without_unit_rules_in (order1 order2 : list (symbol * symbol))
           (g : Grammar) : outcome Grammar :=
  new_rules <- foldM discard_unit order1 (rules g) ;;
  new_rules <- foldM absorb_unit order2 new_rules ;;
  Grammar_init new_rules (start g).

Definition without_unit_rules (g : Grammar) : outcome Grammar :=
  unit_pairs <- _unit_pairs g ;;
  without_unit_rules_in unit_pairs unit_pairs g.

(** *** [_reachable_symbols] *)

(** One round: for every [X] of the copy [reachable] that is a
    nonterminal, the symbols of its alternatives join [new_reachable]. *)
Definition reachable_pass (r : ruleset) (new_reachable : list symbol)
  : outcome (list symbol) :=
  let reachable := new_reachable in
  foldM (fun acc X =>
           if PyDict.has X r then
             rhs <- PyDict.getitem X r ;;
             Return (fold_left (fun acc opt => PySet.update acc opt) rhs acc)
           else Return acc)
        reachable new_reachable.

Definition _reachable_symbols (g : Grammar) : outcome (list symbol) :=
  while_changed (reachable_pass (rules g))
                (S (S (List.length (rhs_symbols (rules g)))))
                [] (PySet.of_list [start g]).

(** *** [_productive_symbols]

    [new_productive = self.terminals] binds the name to the cached
    [frozenset]; a [frozenset] has no method [add]. *)
Inductive set_object (A : Type) : Type :=
| py_set (elements : list A)
| py_frozenset (elements : list A).

Arguments py_set {A} elements.
Arguments py_frozenset {A} elements.

Definition elements {A} (o : set_object A) : list A :=
  match o with py_set l => l | py_frozenset l => l end.

(** The exception of [o.add(x)] on a [frozenset]. *)
Definition frozenset_has_no_add : exn :=
  AttributeError "'frozenset' object has no attribute 'add'".

(** [o.add(x)] *)
Definition add_method {A} `{EqType A} (x : A) (o : set_object A)
  : outcome (set_object A) :=
  match o with
  | py_set l => Return (py_set (PySet.add x l))
  | py_frozenset _ => Raise frozenset_has_no_add
  end.

(** [deepcopy(o)] *)
Definition deepcopy {A} (o : set_object A) : set_object A := o.

Definition productive_pass (r : ruleset) (productive : list symbol)
           (new_productive : set_object symbol)
  : outcome (set_object symbol) :=
  foldM (fun np kv =>
           foldM (fun np opt =>
                    if stringof opt productive
                    then add_method (fst kv) np
                    else Return np)
                 (snd kv) np)
        r new_productive.

Fixpoint productive_loop (fuel : nat) (r : ruleset)
         (productive new_productive : set_object symbol)
  : outcome (list symbol) :=
  if PySet.equal (elements new_productive) (elements productive)
  then Return (elements productive)
  else match fuel with
       | 0 => Diverge
       | S fuel' =>
           let productive := deepcopy new_productive in
           new_productive <-
             productive_pass r (elements productive) new_productive ;;
           productive_loop fuel' r productive new_productive
       end.

Definition _productive_symbols (g : Grammar) : outcome (list symbol) :=
  productive_loop (S (S (List.length (rules g)))) (rules g)
                  (py_set []) (py_frozenset (terminals g)).

(** *** [with_symbols] and the two filters *)

Definition with_symbols (g : Grammar) (symbols : list symbol)
  : outcome Grammar :=
  let new_rules :=
    fold_left
      (fun nr kv =>
         if PySet.mem (fst kv) symbols then
           fold_left (fun nr opt =>
                        if stringof opt symbols
                        then default_add (fst kv) opt nr else nr)
                     (snd kv) nr
         else nr)
      (rules g) [] in
  Grammar_init new_rules (start g).

Definition with_productive_symbols (g : Grammar) : outcome Grammar :=
  symbols <- _productive_symbols g ;;
  with_symbols g symbols.

Definition with_reachable_symbols (g : Grammar) : outcome Grammar :=
  symbols <- _reachable_symbols g ;;
  with_symbols g symbols.

(** *** [with_pair_rules] *)

(** [str(n)] for a non-negative integer *)
Definition str (n : nat) : string := NilEmpty.string_of_uint (Nat.to_uint n).

(** [f"{X}_{i}:{j}"] *)
Definition aux_format (X : symbol) (i j : nat) : symbol :=
  (X ++ "_" ++ str i ++ ":" ++ str j)%string.

(** [opt[j]] *)
Definition getindex {A} (l : list A) (j : nat) : outcome A :=
  match nth_error l j with
  | Some x => Return x
  | None => Raise IndexError
  end.

(** [opt[-2:]] *)
Definition last_two {A} (l : list A) : list A :=
  skipn (List.length l - 2) l.

(** The body of [for i, opt in enumerate(rhs)]. *)
Definition pair_chain (lhs : symbol) (nr : ruleset) (iopt : nat * alt)
  : outcome ruleset :=
  let i := fst iopt in
  let opt := snd iopt in
  nr <- foldM (fun nr j =>
                 let aux_lhs := if Nat.ltb 0 j then aux_format lhs i j else lhs in
                 let aux_sym := aux_format lhs i (j + 1) in
                 s <- getindex opt j ;;
                 Return (default_add aux_lhs [s; aux_sym] nr))
              (seq 0 (List.length opt - 2)) nr ;;
  let aux_lhs := if Nat.ltb 2 (List.length opt)
                 then aux_format lhs i (List.length opt - 3) else lhs in
  Return (default_add aux_lhs (last_two opt) nr).

Definition pair_rules (r : ruleset) : outcome ruleset :=
  foldM (fun nr kv => foldM (pair_chain (fst kv)) (enumerate (snd kv)) nr)
        r [].

Definition with_pair_rules (g : Grammar) : outcome Grammar :=
  new_rules <- pair_rules (rules g) ;;
  Grammar_init new_rules (start g).

(** *** [with_unit_terminals] *)

(** [f"{X}#"] *)
Definition aux_format_terminal (X : symbol) : symbol := (X ++ "#")%string.

Definition unit_terminal_rules (g : Grammar) : ruleset :=
  let new_rules :=
    fold_left (fun nr t => default_add (aux_format_terminal t) [t] nr)
              (terminals g) [] in
  fold_left
    (fun nr kv =>
       fold_left
         (fun nr opt =>
            let new_opt :=
              map (fun sym => if PySet.mem sym (terminals g)
                              then aux_format_terminal sym else sym) opt in
            default_add (fst kv) new_opt nr)
         (snd kv) nr)
    (rules g) new_rules.

Definition with_unit_terminals (g : Grammar) : outcome Grammar :=
  Grammar_init (unit_terminal_rules g) (start g).

(** ** class Pipeline

    An action is a rewrite operation or a nested pipeline.  The text a
    run prints after a named step is not part of the model. *)
#[warnings="-register-all"]
Inductive action : Type :=
| Step (f : Grammar -> outcome Grammar)
| Nested (actions : list action).

Definition Pipeline := list action.

(** [Pipeline.__call__] *)
Fixpoint run_action (a : action) (g : Grammar) : outcome Grammar :=
  match a with
  | Step f => f g
  | Nested actions =>
      (fix run (l : list action) (g : Grammar) : outcome Grammar :=
         match l with
         | [] => Return g
         | a :: l' => g' <- run_action a g ;; run l' g'
         end) actions g
  end.

Definition run (p : Pipeline) (g : Grammar) : outcome Grammar :=
  run_action (Nested p) g.

(** [Pipeline.add_actions]: the actions given are appended to the list. *)
Definition add_actions (p : Pipeline) (actions : list action) : Pipeline :=
  p ++ actions.

Module PipelineSteps.
Definition without_epsilon_rules : Pipeline := [Step without_epsilon_rules].
Definition without_unit_rules : Pipeline := [Step without_unit_rules].
Definition with_productive_symbols : Pipeline :=
  [Step with_productive_symbols].
Definition with_reachable_symbols : Pipeline :=
  [Step with_reachable_symbols].
Definition with_pair_rules : Pipeline := [Step with_pair_rules].
Definition with_unit_terminals : Pipeline := [Step with_unit_terminals].

Definition with_useful_symbols : Pipeline :=
  [Nested with_productive_symbols; Nested with_reachable_symbols].

Definition chomsky_normal_form : Pipeline :=
  [Nested without_epsilon_rules;
   Nested without_unit_rules;
   Nested with_useful_symbols;
   Nested with_pair_rules;
   Nested with_unit_terminals].
End PipelineSteps.

(** The pipeline [main] builds from the flags of the command line, in
    the order of its tests: [--null], [--unit], [--reach], [--prod],
    [--useless], [--cnf]. *)
Definition main_pipeline (null unit reach prod useless cnf : bool)
  : Pipeline :=
  let p : Pipeline := [] in
  let p := if null
           then add_actions p [Nested PipelineSteps.without_epsilon_rules]
           else p in
  let p := if unit
           then add_actions p [Nested PipelineSteps.without_unit_rules]
           else p in
  let p := if reach
           then add_actions p [Nested PipelineSteps.with_reachable_symbols]
           else p in
  let p := if prod
           then add_actions p [Nested PipelineSteps.with_productive_symbols]
           else p in
  let p := if useless
           then add_actions p [Nested PipelineSteps.with_useful_symbols]
           else p in
  let p := if cnf
           then add_actions p [Nested PipelineSteps.chomsky_normal_form]
           else p in
  p.

(** ** The textual notation: [from_string] and [to_string]

    A [string] holds the characters of code 0 to 255. *)

(** [c.isspace()] *)
Definition isspace (c : ascii) : bool :=
  let n := nat_of_ascii c in
  (Nat.leb 9 n && Nat.leb n 13) || (Nat.leb 28 n && Nat.leb n 32)
  || Nat.eqb n 133 || Nat.eqb n 160.

Fixpoint lstrip (s : string) : string :=
  match s with
  | EmptyString => EmptyString
  | String c s' => if isspace c then lstrip s' else s
  end.

Fixpoint rstrip (s : string) : string :=
  match s with
  | EmptyString => EmptyString
  | String c s' =>
      match rstrip s' with
      | EmptyString => if isspace c then EmptyString else String c EmptyString
      | t => String c t
      end
  end.

(** [s.strip()] *)
Definition strip (s : string) : string := rstrip (lstrip s).

Fixpoint drop (n : nat) (s : string) : string :=
  match n, s with
  | S n', String _ s' => drop n' s'
  | _, _ => s
  end.

(** The text before and after the first occurrence of [sep] in [s]. *)
Fixpoint find (sep s : string) : option (string * string) :=
  if prefix sep s then Some (EmptyString, drop (String.length sep) s)
  else match s with
       | EmptyString => None
       | String c s' =>
           match find sep s' with
           | Some (before, after) => Some (String c before, after)
           | None => None
           end
       end.

(** [s.partition(sep)] *)
Definition partition (sep s : string) : string * string * string :=
  match find sep s with
  | Some (before, after) => (before, sep, after)
  | None => (s, EmptyString, EmptyString)
  end.

Fixpoint split_fuel (fuel : nat) (sep s : string) : list string :=
  match fuel with
  | 0 => [s]
  | S fuel' =>
      match find sep s with
      | Some (before, after) => before :: split_fuel fuel' sep after
      | None => [s]
      end
  end.

(** [s.split(sep)] for a non-empty [sep]: every occurrence found
    shortens the text, so [length s] rounds are enough. *)
Definition split (sep s : string) : list string :=
  split_fuel (String.length s) sep s.

(** [tuple(s)]: the characters as one-character strings *)
Definition tuple (s : string) : alt :=
  map (fun c => String c EmptyString) (list_ascii_of_string s).

Definition parse_option (option : string) : alt :=
  let option := strip option in
  if eqv option "%" then [] else tuple option.

Definition from_string_record (st : ruleset * option symbol)
           (iline : nat * string) : outcome (ruleset * option symbol) :=
  let line := strip (snd iline) in
  if eqv line EmptyString then Return st
  else
    let '(lhs, _, rhs) := partition "->" line in
    if eqv rhs EmptyString then Raise (ValueError (fst iline) line)
    else
      let lhs := strip lhs in
      let rhs := strip rhs in
      let start := match snd st with None => Some lhs | Some s => Some s end in
      let rules :=
        fold_left (fun rules option => default_add lhs (parse_option option) rules)
                  (split "|" rhs) (fst st) in
      Return (rules, start).

Definition from_string (s : string) : outcome Grammar :=
  st <- foldM from_string_record (enumerate (split ";;" s)) ([], None) ;;
  match snd st with
  | Some start => Grammar_init (fst st) start
  | None => Raise (KeyError None)
  end.

(** Tuples of strings compare lexicographically, strings by code. *)
Fixpoint alt_ltb (a b : alt) : bool :=
  match a, b with
  | [], [] => false
  | [], _ :: _ => true
  | _ :: _, [] => false
  | x :: a', y :: b' =>
      if eqv x y then alt_ltb a' b' else String.ltb x y
  end.

(** [sorted(l)]: a stable insertion sort on [<]. *)
Fixpoint insert_sorted {A} (ltb : A -> A -> bool) (x : A) (l : list A)
  : list A :=
  match l with
  | [] => [x]
  | y :: l' => if ltb x y then x :: l else y :: insert_sorted ltb x l'
  end.

Definition sorted {A} (ltb : A -> A -> bool) (l : list A) : list A :=
  fold_left (fun acc x => insert_sorted ltb x acc) l [].

Definition newline : string := String (ascii_of_nat 10) EmptyString.

Definition format_alt (opt : alt) : string :=
  if is_empty opt then "%" else String.concat " " opt.

(** The local function [format] of [to_string]. *)
Definition format (lhs : symbol) (rhs : list alt) : string :=
  let rhs_string := String.concat " | " (map format_alt (sorted alt_ltb rhs)) in
  (lhs ++ " -> " ++ rhs_string ++ " ;;" ++ newline)%string.

(** The keys of a dictionary are distinct, so the order of
    [sorted(self.rules.items())] is the order of the keys. *)
Definition item_ltb (kv1 kv2 : symbol * list alt) : bool :=
  String.ltb (fst kv1) (fst kv2).

Definition to_string (g : Grammar) : outcome string :=
  rhs <- PyDict.getitem (start g) (rules g) ;;
  Return
    (fold_left
       (fun s kv =>
          if negb (eqv (fst kv) (start g))
          then (s ++ format (fst kv) (snd kv))%string else s)
       (sorted item_ltb (rules g))
       (format (start g) rhs)).

(** ** Structural equality of grammars: the same start symbol, the same
    keys, and for every key the same set of alternatives. *)
Definition same_rules (r1 r2 : ruleset) : Prop :=
  forall lhs,
    match PyDict.get lhs r1, PyDict.get lhs r2 with
    | Some rhs1, Some rhs2 => forall opt, In opt rhs1 <-> In opt rhs2
    | None, None => True
    | _, _ => False
    end.

Definition grammar_equal (g1 g2 : Grammar) : Prop :=
  start g1 = start g2 /\ same_rules (rules g1) (rules g2).

(** ** Grammars that the notation can carry

    A key is one character that is no whitespace; a symbol of an
    alternative is one character that is no whitespace, not the
    separator of alternatives and not the mark of the empty
    alternative; every rule has an alternative. *)
Definition plain_char (c : ascii) : bool :=
  negb (isspace c) && negb (Ascii.eqb c "|") && negb (Ascii.eqb c "%").

Definition plain_symbol (sym : string) : bool :=
  match sym with
  | String c EmptyString => plain_char c
  | _ => false
  end.

Definition plain_key (lhs : string) : bool :=
  match lhs with
  | String c EmptyString => negb (isspace c)
  | _ => false
  end.

Definition canonical_rule (kv : string * list (list string)) : bool :=
  plain_key (fst kv) && negb (is_empty (snd kv))
  && forallb (forallb plain_symbol) (snd kv).

Definition canonical (g : Grammar) : Prop :=
  well_formed g /\ forallb canonical_rule (rules g) = true.

(** [sep] between every two neighbours of [l]. *)
Fixpoint intersperse {A} (sep : A) (l : list A) : list A :=
  match l with
  | [] => []
  | x :: l' => match l' with
               | [] => [x]
               | _ :: _ => x :: sep :: intersperse sep l'
               end
  end.

(** ** Vocabulary of the statements and of their proofs *)

(** [grows Q s s']: the set [s'] is [s] with elements satisfying [Q]
    added in place. *)
Definition grows {A} (Q : A -> Prop) (s s' : list A) : Prop :=
  (NoDup s -> NoDup s') /\ incl s s' /\
  forall x, In x s' -> In x s \/ Q x.

(** All pairs of nonterminals: the bound of [_unit_pairs]. *)
Definition pair_universe (g : Grammar) : list (string * string) :=
  list_prod (nonterminals g) (nonterminals g).

(** No alternative of [nr] is a single symbol of [keys]. *)
Definition unit_free (keys : list string) (nr : ruleset) : Prop :=
  forall x rhs y, PyDict.get x nr = Some rhs -> In [y] rhs -> ~ In y keys.

(** A record is rejected when, stripped, it is not empty and nothing
    follows its first [->] (there may be no [->] at all). *)
Definition record_rejected (record : string) : bool :=
  negb (eqv (strip record) EmptyString)
  && eqv (snd (partition "->" (strip record))) EmptyString.

(** [guard2 a b s]: in [s] every [a] has a next character, which is
    not [b]; so the two-character text [ab] neither occurs in [s] nor
    begins at its last character. *)
Fixpoint guard2 (a b : ascii) (s : string) : bool :=
  match s with
  | EmptyString => true
  | String c s' =>
      (negb (Ascii.eqb c a)
       || match s' with
          | String d _ => negb (Ascii.eqb d b)
          | EmptyString => false
          end)
      && guard2 a b s'
  end.

(** [guard1 a s]: the character [a] does not occur in [s]. *)
Fixpoint guard1 (a : ascii) (s : string) : bool :=
  match s with
  | EmptyString => true
  | String c s' => negb (Ascii.eqb c a) && guard1 a s'
  end.

(** Only whitespace. *)
Fixpoint all_space (s : string) : bool :=
  match s with
  | EmptyString => true
  | String c s' => isspace c && all_space s'
  end.

(** The first character exists and is no whitespace. *)
Definition starts_nonspace (s : string) : bool :=
  match s with
  | String c _ => negb (isspace c)
  | EmptyString => false
  end.

(** The last character exists and is no whitespace. *)
Fixpoint ends_nonspace (s : string) : bool :=
  match s with
  | EmptyString => false
  | String c s' =>
      match s' with
      | EmptyString => negb (isspace c)
      | String _ _ => ends_nonspace s'
      end
  end.

(** The right-hand side [format] writes for the sorted alternatives. *)
Definition alts_text (alts : list (list string)) : string :=
  String.concat " | " (map format_alt alts).

(** What parsing the record of rule [kv] does to the dictionary and
    the start symbol read so far. *)
Definition add_item (st : ruleset * option string)
           (kv : string * list (list string)) : ruleset * option string :=
  (fold_left (fun rules opt => default_add (fst kv) (intersperse " " opt) rules)
             (sorted alt_ltb (snd kv)) (fst st),
   match snd st with None => Some (fst kv) | Some s => Some s end).

(** The records of [items], one after the other. *)
Definition records_text (items : list (string * list (list string))) : string :=
  fold_right (fun kv s => (format (fst kv) (snd kv) ++ s)%string)
             EmptyString items.

(** The rules in the order [to_string] writes them: the start rule,
    then the others by key. *)
Definition items_of (g : Grammar) (rhs0 : list (list string))
  : list (string * list (list string)) :=
  (start g, rhs0)
    :: filter (fun kv => negb (eqv (fst kv) (start g)))
              (sorted item_ltb (rules g)).

(** The alternatives of [rhs], read back: a space symbol between
    every two neighbouring symbols. *)
Definition spaced_set (rhs : list (list string)) : list (list string) :=
  PySet.of_list (map (intersperse " ") (sorted alt_ltb rhs)).

Definition spaced_item (kv : string * list (list string))
  : string * list (list string) :=
  (fst kv, spaced_set (snd kv)).

(** [spaced_rules r r']: the same keys, and the alternatives of a key in
    [r'] are those of [r] with one space symbol between every two
    neighbouring symbols. *)
Definition spaced_rules (r r' : ruleset) : Prop :=
  forall lhs,
    match PyDict.get lhs r, PyDict.get lhs r' with
    | Some rhs, Some rhs' =>
        forall opt', In opt' rhs' <->
                     exists opt, In opt rhs /\ opt' = intersperse " " opt
    | None, None => True
    | _, _ => False
    end.

(** [has_alt lhs opt d]: [opt] is an alternative of the key [lhs] of [d]. *)
Definition has_alt (lhs : string) (opt : list string)
           (d : PyDict.dict (list (list string))) : Prop :=
  exists rhs, PyDict.get lhs d = Some rhs /\ In opt rhs.

(** [extends d d']: every alternative of [d] is an alternative of [d']. *)
Definition extends (d d' : PyDict.dict (list (list string))) : Prop :=
  forall k x, has_alt k x d -> has_alt k x d'.

(** The left-hand side of the [j]-th rule of a chain, and the left-hand
    side [with_pair_rules] gives to the last rule of an alternative of
    length [n]. *)
Definition chain_lhs (lhs : string) (i j : nat) : string :=
  if Nat.ltb 0 j then aux_format lhs i j else lhs.

Definition last_lhs (lhs : string) (i n : nat) : string :=
  if Nat.ltb 2 n then aux_format lhs i (n - 3) else lhs.

(** The rules [with_pair_rules] emits for the alternative [opt] listed
    at index [i] of the key [lhs]. *)
Definition chain_emitted (lhs : string) (iopt : nat * list string)
           (d : PyDict.dict (list (list string))) : Prop :=
  let i := fst iopt in
  let opt := snd iopt in
  has_alt (last_lhs lhs i (List.length opt)) (last_two opt) d /\
  forall j, j < List.length opt - 2 ->
            has_alt (chain_lhs lhs i j)
                    [nth j opt EmptyString; aux_format lhs i (j + 1)] d.

(** [Nullable r X]: [X] derives the empty string, by a rule of [r] whose
    alternative holds only symbols that derive it. *)
Inductive Nullable (r : PyDict.dict (list (list string))) : string -> Prop :=
| Nullable_rule lhs rhs opt :
    In (lhs, rhs) r -> In opt rhs ->
    (forall sym, In sym opt -> Nullable r sym) ->
    Nullable r lhs.

(** [unit_step g X Y]: [(Y,)] is an alternative of [X] and [Y] is a
    nonterminal. *)
Definition unit_step (g : Grammar) (X Y : string) : Prop :=
  exists rhs, In (X, rhs) (rules g) /\ In [Y] rhs /\ In Y (nonterminals g).

(** [Reachable g X]: [X] is the start symbol or occurs in an alternative
    of the rule found under a reachable key. *)
Inductive Reachable (g : Grammar) : string -> Prop :=
| Reachable_start : Reachable g (start g)
| Reachable_step X rhs opt sym :
    Reachable g X -> PyDict.get X (rules g) = Some rhs ->
    In opt rhs -> In sym opt -> Reachable g sym.

(** [drops nullable opt opt']: [opt'] is [opt] with some occurrences of
    symbols of [nullable] left out. *)
Inductive drops (nullable : list string) : list string -> list string -> Prop :=
| drops_nil : drops nullable [] []
| drops_keep x l l' :
    drops nullable l l' -> drops nullable (x :: l) (x :: l')
| drops_drop x l l' :
    In x nullable -> drops nullable l l' -> drops nullable (x :: l) l'.

(** [subseq l1 l2]: [l1] is [l2] with some elements left out. *)
Inductive subseq {A} : list A -> list A -> Prop :=
| subseq_nil : subseq [] []
| subseq_take x l1 l2 : subseq l1 l2 -> subseq (x :: l1) (x :: l2)
| subseq_skip x l1 l2 : subseq l1 l2 -> subseq l1 (x :: l2).

(** [nullable_indices] and [epsilon_variant] with the positions counted
    from [k]. *)
Definition nullable_indices_from (k : nat) (nullable : list string)
           (opt : list string) : list nat :=
  map fst (filter (fun isym => PySet.mem (snd isym) nullable)
                  (combine (seq k (List.length opt)) opt)).

Definition epsilon_variant_from (k : nat) (nullable : list string)
           (kept : list nat) (opt : list string) : list string :=
  map snd
      (filter (fun isym => negb (PySet.mem (snd isym) nullable)
                           || PySet.mem (fst isym) kept)
              (combine (seq k (List.length opt)) opt)).

(** [unit_alt g opt]: [opt] is a single nonterminal of [g]. *)
Definition unit_alt (g : Grammar) (opt : list string) : Prop :=
  exists Y, opt = [Y] /\ In Y (nonterminals g).

(** [built d]: what a [defaultdict(set)] filled by [add] alone is: the
    keys are distinct and the set under every key is not empty. *)
Definition built (d : PyDict.dict (list (list string))) : Prop :=
  NoDup (PyDict.keys d) /\
  forall k rhs, In (k, rhs) d -> NoDup rhs /\ rhs <> [].

(** [kept_alt symbols r k x]: the alternative [x] of the key [k] of [r]
    passes the filter of [with_symbols]: [k] and every symbol of [x] are
    in [symbols]. *)
Definition kept_alt (symbols : list string)
           (r : PyDict.dict (list (list string)))
           (k : string) (x : list string) : Prop :=
  exists rhs, In (k, rhs) r /\ In k symbols /\ In x rhs /\
              forall sym, In sym x -> In sym symbols.

(** The alternative [with_unit_terminals] writes for [opt]. *)
Definition lift_terminals (g : Grammar) (opt : list string) : list string :=
  map (fun sym => if PySet.mem sym (terminals g)
                  then aux_format_terminal sym else sym) opt.

(** The dictionary [with_symbols] fills. *)
Definition filtered_rules (symbols : list string)
           (r : PyDict.dict (list (list string)))
  : PyDict.dict (list (list string)) :=
  fold_left
    (fun nr kv =>
       if PySet.mem (fst kv) symbols then
         fold_left (fun nr opt => if stringof opt symbols
                                  then default_add (fst kv) opt nr else nr)
                   (snd kv) nr
       else nr) r [].

(** [binary d]: [d] is filled by [add] alone and none of its
    alternatives has more than two symbols. *)
Definition binary (d : PyDict.dict (list (list string))) : Prop :=
  built d /\ forall k x, has_alt k x d -> List.length x <= 2.

(** [parsed st]: what [from_string] holds between two records: a
    dictionary filled by [add] alone, whose alternatives are tuples of
    one-character symbols, and a start symbol that, once read, is a key. *)
Definition parsed (st : PyDict.dict (list (list string)) * option string)
  : Prop :=
  built (fst st) /\
  (forall s0, snd st = Some s0 -> In s0 (PyDict.keys (fst st))) /\
  forall k x sym, has_alt k x (fst st) -> In sym x -> String.length sym = 1.

(** The left-hand side [from_string] reads in a record. *)
Definition record_lhs (record : string) : string :=
  strip (fst (fst (partition "->" (strip record)))).

(** [increasing ltb l]: every element of [l] is below all those that
    follow it. *)
Fixpoint increasing {A} (ltb : A -> A -> bool) (l : list A) : Prop :=
  match l with
  | [] => True
  | x :: l' => (forall y, In y l' -> ltb x y = true) /\ increasing ltb l'
  end.

(** An action that ends on every grammar, and one that ends with an
    exception on every grammar. *)
Definition never_diverges (a : action) : Prop :=
  forall g, run_action a g <> Diverge.

Definition always_raises (a : action) : Prop :=
  forall g, exists e, run_action a g = Raise e.

(** [terminal_alt g opt]: every symbol of [opt] is a terminal of [g]. *)
Definition terminal_alt (g : Grammar) (opt : list string) : Prop :=
  forall sym, In sym opt -> In sym (terminals g).

(** * Properties *)

(** ** Sets as lists *)

Section PySetFacts.
Context {A : Type} `{EqType A}.

Lemma eqv_refl (x : A) : eqv x x = true.
Proof. apply eqv_iff; reflexivity. Qed.

Lemma eqv_false (x y : A) : eqv x y = false <-> x <> y.
Proof.
  rewrite <- eqv_iff. destruct (eqv x y); split; congruence.
Qed.

Lemma eqv_dec (x y : A) : {x = y} + {x <> y}.
Proof.
  destruct (eqv x y) eqn:E.
  - left; apply eqv_iff; exact E.
  - right; apply eqv_false; exact E.
Qed.

Lemma mem_In (x : A) s : PySet.mem x s = true <-> In x s.
Proof.
  unfold PySet.mem. rewrite existsb_exists. split.
  - intros [y [Hy E]]. apply eqv_iff in E. subst; assumption.
  - intros Hx. exists x. split; [assumption | apply eqv_refl].
Qed.

Lemma mem_false (x : A) s : PySet.mem x s = false <-> ~ In x s.
Proof.
  rewrite <- mem_In. destruct (PySet.mem x s); split; congruence.
Qed.

Lemma add_In (x y : A) s : In y (PySet.add x s) <-> y = x \/ In y s.
Proof.
  unfold PySet.add. destruct (PySet.mem x s) eqn:E.
  - apply mem_In in E. split; [auto | intros [-> | ?]; assumption].
  - rewrite in_app_iff; simpl. intuition.
Qed.

Lemma add_NoDup (x : A) s : NoDup s -> NoDup (PySet.add x s).
Proof.
  intros Hs. unfold PySet.add. destruct (PySet.mem x s) eqn:E; [assumption|].
  apply mem_false in E.
  apply NoDup_app; [assumption | repeat constructor; simpl; tauto |].
  intros a Ha [<- | []]. contradiction.
Qed.

Lemma add_length (x : A) s : List.length s <= List.length (PySet.add x s).
Proof.
  unfold PySet.add. destruct (PySet.mem x s); [lia|].
  rewrite length_app; simpl; lia.
Qed.

Lemma discard_In (x y : A) s :
  In y (PySet.discard x s) <-> In y s /\ y <> x.
Proof.
  unfold PySet.discard. rewrite filter_In, negb_true_iff, eqv_false.
  intuition.
Qed.

Lemma discard_NoDup (x : A) s : NoDup s -> NoDup (PySet.discard x s).
Proof. apply NoDup_filter. Qed.

Lemma update_In (y : A) t : forall s,
  In y (PySet.update s t) <-> In y s \/ In y t.
Proof.
  unfold PySet.update. induction t as [|x t IH]; intros s; simpl.
  - tauto.
  - rewrite IH, add_In. intuition.
Qed.

Lemma update_NoDup t : forall s : list A,
  NoDup s -> NoDup (PySet.update s t).
Proof.
  unfold PySet.update. induction t as [|x t IH]; intros s Hs; simpl.
  - assumption.
  - apply IH, add_NoDup, Hs.
Qed.

Lemma of_list_In (y : A) l : In y (PySet.of_list l) <-> In y l.
Proof. unfold PySet.of_list. rewrite update_In. simpl. tauto. Qed.

Lemma of_list_NoDup (l : list A) : NoDup (PySet.of_list l).
Proof. apply update_NoDup. constructor. Qed.

Lemma subset_incl (s t : list A) : PySet.subset s t = true <-> incl s t.
Proof.
  unfold PySet.subset, incl. rewrite forallb_forall.
  split; intros Hst x Hx; apply mem_In, Hst, Hx.
Qed.

Lemma equal_iff (s t : list A) :
  PySet.equal s t = true <-> (forall x, In x s <-> In x t).
Proof.
  unfold PySet.equal. rewrite andb_true_iff, !subset_incl. unfold incl.
  split.
  - intros [H1 H2] x. split; auto.
  - intros Hst. split; intros x; apply Hst.
Qed.

Lemma equal_false_grows (s t : list A) :
  NoDup s -> NoDup t -> incl s t -> PySet.equal t s = false ->
  List.length s < List.length t.
Proof.
  intros Hs Ht Hst E.
  destruct (Nat.lt_ge_cases (List.length s) (List.length t)) as [|Hle];
    [assumption|].
  assert (incl t s) by (apply NoDup_length_incl; assumption).
  assert (PySet.equal t s = true) by (apply equal_iff; split; auto).
  congruence.
Qed.
End PySetFacts.

(** ** In-place growth of a set

    [grows Q s s']: [s'] is [s] with elements satisfying [Q] added. *)
Section Grows.
Context {A : Type} `{EqType A}.

Lemma grows_refl (Q : A -> Prop) (s : list A) : grows Q s s.
Proof. repeat split; auto using incl_refl. Qed.

Lemma grows_trans (Q : A -> Prop) (s1 s2 s3 : list A) :
  grows Q s1 s2 -> grows Q s2 s3 -> grows Q s1 s3.
Proof.
  intros (N1 & I1 & Q1) (N2 & I2 & Q2). repeat split.
  - auto.
  - eapply incl_tran; eassumption.
  - intros x Hx. destruct (Q2 x Hx) as [Hx2 | ?]; auto.
Qed.

Lemma grows_add (Q : A -> Prop) x s : Q x -> grows Q s (PySet.add x s).
Proof.
  intros Hq. repeat split.
  - apply add_NoDup.
  - intros y Hy. apply add_In. auto.
  - intros y Hy. apply add_In in Hy. destruct Hy as [-> | Hy]; auto.
Qed.

Lemma grows_weaken (Q Q' : A -> Prop) s s' :
  (forall x, Q x -> Q' x) -> grows Q s s' -> grows Q' s s'.
Proof.
  intros HQ (N & I & Hq). repeat split; auto.
  intros x Hx. destruct (Hq x Hx); auto.
Qed.

Lemma grows_fold_left {B} Q (f : list A -> B -> list A) (l : list B) :
  (forall acc b, In b l -> grows Q acc (f acc b)) ->
  forall acc, grows Q acc (fold_left f l acc).
Proof.
  induction l as [|b l IH]; intros Hf acc; simpl.
  - apply grows_refl.
  - eapply grows_trans.
    + apply Hf. left; reflexivity.
    + apply IH. intros acc' b' Hb'. apply Hf. right; assumption.
Qed.

Lemma grows_update Q (s t : list A) :
  (forall x, In x t -> Q x) -> grows Q s (PySet.update s t).
Proof.
  intros Ht. unfold PySet.update. apply grows_fold_left.
  intros acc b Hb. apply grows_add. auto.
Qed.
End Grows.

(** ** The loops end before their fuel does *)
Section WhileChanged.
Context {A : Type} `{EqType A}.
Variable pass : list A -> outcome (list A).
Variable universe : list A.

Hypothesis pass_grows :
  forall s, NoDup s -> incl s universe ->
    exists s', pass s = Return s' /\ NoDup s' /\ incl s s' /\ incl s' universe.

Lemma while_changed_returns : forall fuel old new,
  NoDup old -> NoDup new -> incl old new -> incl new universe ->
  List.length universe - List.length old < fuel ->
  exists r, while_changed pass fuel old new = Return r.
Proof.
  induction fuel as [|fuel IH]; intros old new No Nn Ion Inu Hfuel;
    [lia|].
  simpl. destruct (PySet.equal new old) eqn:E.
  - exists old; reflexivity.
  - pose proof (equal_false_grows _ _ No Nn Ion E) as Hlt.
    pose proof (NoDup_incl_length Nn Inu) as Hle.
    destruct (pass_grows new Nn Inu) as (s1 & -> & Ns1 & Is & Iu). simpl.
    apply IH; auto. lia.
Qed.

Lemma while_changed_invariant (P : list A -> Prop) :
  (forall s s', P s -> pass s = Return s' -> P s') ->
  forall fuel old new r,
    P new -> while_changed pass fuel old new = Return r ->
    exists s, P s /\ forall x, In x r <-> In x s.
Proof.
  intros HP. induction fuel as [|fuel IH]; intros old new r Hnew; simpl;
    destruct (PySet.equal new old) eqn:E; try discriminate.
  - intros [= <-]. exists new. split; [assumption|].
    intros x. symmetry. revert x. apply equal_iff, E.
  - intros [= <-]. exists new. split; [assumption|].
    intros x. symmetry. revert x. apply equal_iff, E.
  - destruct (pass new) as [s'| |] eqn:Ep; simpl; try discriminate.
    apply IH. eapply HP; eassumption.
Qed.
End WhileChanged.

(** ** Dictionaries as association lists *)
Section PyDictFacts.
Context {V : Type}.
Implicit Types (d : PyDict.dict V) (k : string) (v : V).

Lemma has_In k d : PyDict.has k d = true <-> In k (PyDict.keys d).
Proof. apply mem_In. Qed.

Lemma get_Some_In k v d : PyDict.get k d = Some v -> In (k, v) d.
Proof.
  induction d as [|[k' v'] d IH]; simpl; [discriminate|].
  destruct (eqv k k') eqn:E.
  - apply eqv_iff in E. intros [= ->]. subst. auto.
  - auto.
Qed.

Lemma get_None k d : PyDict.get k d = None <-> ~ In k (PyDict.keys d).
Proof.
  induction d as [|[k' v'] d IH]; simpl; [tauto|].
  destruct (eqv k k') eqn:E.
  - apply eqv_iff in E. subst. split; [discriminate | tauto].
  - apply eqv_false in E. rewrite IH. intuition congruence.
Qed.

Lemma get_Some_key k v d : PyDict.get k d = Some v -> In k (PyDict.keys d).
Proof.
  intros Hg. apply get_Some_In in Hg.
  apply (in_map fst) in Hg. exact Hg.
Qed.

Lemma key_get k d : In k (PyDict.keys d) -> exists v, PyDict.get k d = Some v.
Proof.
  intros Hk. destruct (PyDict.get k d) as [v|] eqn:E; [eauto|].
  apply get_None in E. contradiction.
Qed.

Lemma In_get k v d :
  NoDup (PyDict.keys d) -> In (k, v) d -> PyDict.get k d = Some v.
Proof.
  induction d as [|[k' v'] d IH]; simpl; [tauto|].
  intros Hnd [[= -> ->] | Hin].
  - rewrite eqv_refl. reflexivity.
  - inversion Hnd as [|? ? Hk' Hnd']; subst.
    destruct (eqv k k') eqn:E; [|auto].
    apply eqv_iff in E. subst. exfalso. apply Hk'.
    apply (in_map fst) in Hin. exact Hin.
Qed.

Lemma keys_replace k v d : PyDict.keys (PyDict.replace k v d) = PyDict.keys d.
Proof.
  induction d as [|[k' v'] d IH]; simpl; [reflexivity|].
  destruct (eqv k k'); simpl; [reflexivity|]. f_equal. exact IH.
Qed.

Lemma get_replace k k' v d :
  PyDict.get k' (PyDict.replace k v d) =
  if eqv k' k then option_map (fun _ => v) (PyDict.get k d)
  else PyDict.get k' d.
Proof.
  induction d as [|[k0 v0] d IH]; simpl.
  - destruct (eqv k' k); reflexivity.
  - destruct (eqv k k0) eqn:E0; simpl.
    + apply eqv_iff in E0. subst k0.
      destruct (eqv k' k); reflexivity.
    + destruct (eqv k' k0) eqn:E1.
      * apply eqv_iff in E1. subst k0.
        destruct (eqv k' k) eqn:E2; [|reflexivity].
        apply eqv_iff in E2. subst. rewrite eqv_refl in E0. discriminate.
      * exact IH.
Qed.

Lemma get_replace_same k v d :
  In k (PyDict.keys d) -> PyDict.get k (PyDict.replace k v d) = Some v.
Proof.
  intros Hk. rewrite get_replace, eqv_refl.
  destruct (key_get _ _ Hk) as [v0 ->]. reflexivity.
Qed.

Lemma get_replace_other k k' v d :
  k' <> k -> PyDict.get k' (PyDict.replace k v d) = PyDict.get k' d.
Proof.
  intros Hn. rewrite get_replace.
  apply eqv_false in Hn. rewrite Hn. reflexivity.
Qed.

Lemma keys_app d1 d2 :
  PyDict.keys (d1 ++ d2) = PyDict.keys d1 ++ PyDict.keys d2.
Proof. apply map_app. Qed.

Lemma get_app k d1 d2 :
  PyDict.get k (d1 ++ d2) =
  match PyDict.get k d1 with Some v => Some v | None => PyDict.get k d2 end.
Proof.
  induction d1 as [|[k' v'] d1 IH]; simpl; [reflexivity|].
  destruct (eqv k k'); [reflexivity | exact IH].
Qed.

Lemma keys_setitem k k' v d :
  In k' (PyDict.keys (PyDict.setitem k v d)) <-> k' = k \/ In k' (PyDict.keys d).
Proof.
  unfold PyDict.setitem. destruct (PyDict.has k d) eqn:E.
  - rewrite keys_replace. apply has_In in E.
    split; [auto | intros [-> | ?]; assumption].
  - rewrite keys_app, in_app_iff. simpl. intuition.
Qed.

Lemma NoDup_keys_setitem k v d :
  NoDup (PyDict.keys d) -> NoDup (PyDict.keys (PyDict.setitem k v d)).
Proof.
  intros Hnd. unfold PyDict.setitem. destruct (PyDict.has k d) eqn:E.
  - rewrite keys_replace. exact Hnd.
  - rewrite keys_app. simpl.
    apply NoDup_app; [assumption | repeat constructor; simpl; tauto |].
    intros a Ha [<- | []].
    apply has_In in Ha. congruence.
Qed.

Lemma get_setitem_same k v d : PyDict.get k (PyDict.setitem k v d) = Some v.
Proof.
  unfold PyDict.setitem. destruct (PyDict.has k d) eqn:E.
  - apply get_replace_same, has_In, E.
  - rewrite get_app.
    assert (Hn : PyDict.get k d = None).
    { apply get_None. intros Hk. apply has_In in Hk. congruence. }
    rewrite Hn. simpl. rewrite eqv_refl. reflexivity.
Qed.

Lemma get_setitem_other k k' v d :
  k' <> k -> PyDict.get k' (PyDict.setitem k v d) = PyDict.get k' d.
Proof.
  intros Hn. unfold PyDict.setitem. destruct (PyDict.has k d).
  - apply get_replace_other, Hn.
  - rewrite get_app. destruct (PyDict.get k' d); [reflexivity|].
    simpl. apply eqv_false in Hn. rewrite Hn. reflexivity.
Qed.

Lemma keys_remove k k' d :
  In k' (PyDict.keys (PyDict.remove k d)) <-> In k' (PyDict.keys d) /\ k' <> k.
Proof.
  unfold PyDict.keys, PyDict.remove. rewrite !in_map_iff. split.
  - intros ([k0 v0] & <- & Hin). apply filter_In in Hin.
    destruct Hin as [Hin Hneq]. simpl in *.
    apply negb_true_iff, eqv_false in Hneq. split; [|congruence].
    exists (k0, v0). auto.
  - intros [([k0 v0] & <- & Hin) Hneq]. exists (k0, v0). split; [reflexivity|].
    apply filter_In. split; [assumption|]. simpl in *.
    apply negb_true_iff, eqv_false. congruence.
Qed.

Lemma NoDup_keys_remove k d :
  NoDup (PyDict.keys d) -> NoDup (PyDict.keys (PyDict.remove k d)).
Proof.
  unfold PyDict.keys, PyDict.remove.
  induction d as [|[k' v'] d IH]; simpl; intros Hnd; [constructor|].
  inversion Hnd as [|? ? Hk' Hnd']; subst.
  destruct (eqv k k'); simpl; [auto|].
  constructor; [|auto].
  intros Hin. apply Hk'. apply in_map_iff in Hin.
  destruct Hin as (kv & <- & Hin). apply filter_In in Hin.
  apply in_map. tauto.
Qed.

Lemma get_remove_other k k' d :
  k' <> k -> PyDict.get k' (PyDict.remove k d) = PyDict.get k' d.
Proof.
  intros Hn. unfold PyDict.remove.
  induction d as [|[k0 v0] d IH]; simpl; [reflexivity|].
  destruct (eqv k k0) eqn:E; simpl.
  - apply eqv_iff in E. subst k0.
    apply eqv_false in Hn. rewrite Hn. exact IH.
  - destruct (eqv k' k0); [reflexivity | exact IH].
Qed.

Lemma move_to_front_Some k d :
  In k (PyDict.keys d) ->
  exists v, PyDict.get k d = Some v /\
            PyDict.move_to_front k d = Return ((k, v) :: PyDict.remove k d).
Proof.
  intros Hk. destruct (key_get _ _ Hk) as [v Hv].
  exists v. split; [assumption|]. unfold PyDict.move_to_front.
  rewrite Hv. reflexivity.
Qed.

Lemma move_to_front_None k d :
  ~ In k (PyDict.keys d) ->
  PyDict.move_to_front k d = Raise (KeyError (Some k)).
Proof.
  intros Hk. apply get_None in Hk. unfold PyDict.move_to_front.
  rewrite Hk. reflexivity.
Qed.

Lemma move_to_front_get k k' d d' :
  PyDict.move_to_front k d = Return d' -> PyDict.get k' d' = PyDict.get k' d.
Proof.
  unfold PyDict.move_to_front. destruct (PyDict.get k d) as [v|] eqn:E;
    [|discriminate].
  intros [= <-]. simpl. destruct (eqv k' k) eqn:E'.
  - apply eqv_iff in E'. subst. symmetry. exact E.
  - apply get_remove_other, eqv_false, E'.
Qed.

Lemma move_to_front_keys k k' d d' :
  PyDict.move_to_front k d = Return d' ->
  (In k' (PyDict.keys d') <-> In k' (PyDict.keys d)).
Proof.
  intros Hm. split; intros Hk.
  - destruct (key_get _ _ Hk) as [v Hv].
    rewrite (move_to_front_get _ k' _ _ Hm) in Hv. eapply get_Some_key, Hv.
  - destruct (key_get _ _ Hk) as [v Hv].
    rewrite <- (move_to_front_get _ k' _ _ Hm) in Hv. eapply get_Some_key, Hv.
Qed.

Lemma move_to_front_NoDup k d d' :
  NoDup (PyDict.keys d) -> PyDict.move_to_front k d = Return d' ->
  NoDup (PyDict.keys d').
Proof.
  unfold PyDict.move_to_front. destruct (PyDict.get k d) as [v|] eqn:E;
    [|discriminate].
  intros Hnd [= <-]. simpl. constructor.
  - rewrite keys_remove. tauto.
  - apply NoDup_keys_remove, Hnd.
Qed.
End PyDictFacts.

(** ** Loops whose body may raise *)
Lemma foldM_invariant {A S} (I : S -> Prop) (body : S -> A -> outcome S)
      (l : list A) :
  (forall s x, In x l -> I s -> exists s', body s x = Return s' /\ I s') ->
  forall s, I s -> exists s', foldM body l s = Return s' /\ I s'.
Proof.
  induction l as [|x l IH]; intros Hb s Hs; simpl.
  - eauto.
  - destruct (Hb s x (or_introl eq_refl) Hs) as (s1 & -> & Hs1). simpl.
    apply IH; [|assumption].
    intros s2 y Hy. apply Hb. right; assumption.
Qed.

Lemma foldM_app {A S} (body : S -> A -> outcome S) (l1 l2 : list A) (s : S) :
  foldM body (l1 ++ l2) s = (s' <- foldM body l1 s ;; foldM body l2 s').
Proof.
  revert s. induction l1 as [|x l1 IH]; intros s; simpl; [reflexivity|].
  destruct (body s x); simpl; auto.
Qed.

(** ** Grammars *)

Lemma Grammar_init_Return r s :
  In s (PyDict.keys r) ->
  exists rhs, PyDict.get s r = Some rhs /\
              Grammar_init r s = Return (mkGrammar ((s, rhs) :: PyDict.remove s r) s).
Proof.
  intros Hs. destruct (move_to_front_Some _ _ Hs) as (v & Hv & Hm).
  exists v. split; [assumption|]. unfold Grammar_init. rewrite Hm. reflexivity.
Qed.

Lemma Grammar_init_Raise r s :
  ~ In s (PyDict.keys r) -> Grammar_init r s = Raise (KeyError (Some s)).
Proof.
  intros Hs. unfold Grammar_init. rewrite move_to_front_None by assumption.
  reflexivity.
Qed.

Lemma Grammar_init_inv r s g :
  Grammar_init r s = Return g ->
  start g = s /\ In s (PyDict.keys r) /\
  (forall k, PyDict.get k (rules g) = PyDict.get k r) /\
  (forall k, In k (nonterminals g) <-> In k (PyDict.keys r)) /\
  (NoDup (PyDict.keys r) -> NoDup (nonterminals g)).
Proof.
  unfold Grammar_init. destruct (PyDict.move_to_front s r) as [r'| |] eqn:E;
    simpl; try discriminate.
  intros [= <-]. simpl. repeat split.
  - destruct (in_dec string_dec s (PyDict.keys r)) as [|Hn]; [assumption|].
    rewrite move_to_front_None in E by assumption. discriminate.
  - intros k. eapply move_to_front_get, E.
  - apply (move_to_front_keys _ k _ _ E).
  - apply (move_to_front_keys _ k _ _ E).
  - intros Hnd. eapply move_to_front_NoDup; eassumption.
Qed.

(** ** [_nullable_nonterminals] returns *)

Lemma nullable_pass_grows r new :
  grows (fun x => In x (PyDict.keys r)) new (nullable_pass r new).
Proof.
  unfold nullable_pass. apply grows_fold_left.
  intros acc kv Hkv.
  destruct (existsb (fun opt => stringof opt acc) (snd kv)).
  - apply grows_add. apply in_map. exact Hkv.
  - apply grows_refl.
Qed.

Lemma nullable_pass_step r s :
  NoDup s -> incl s (PyDict.keys r) ->
  exists s', Return (nullable_pass r s) = Return s' /\ NoDup s' /\
             incl s s' /\ incl s' (PyDict.keys r).
Proof.
  intros Hnd Hin. destruct (nullable_pass_grows r s) as (N & I & Q).
  exists (nullable_pass r s). repeat split; auto.
  intros x Hx. destruct (Q x Hx); auto.
Qed.

Lemma while_changed_S {A} `{EqType A} (pass : list A -> outcome (list A))
      fuel old new :
  while_changed pass (S fuel) old new =
  if PySet.equal new old then Return old
  else (new' <- pass new ;; while_changed pass fuel new new').
Proof. reflexivity. Qed.

Lemma nullable_nonterminals_returns g :
  exists nullable, _nullable_nonterminals g = Return nullable.
Proof.
  unfold _nullable_nonterminals. rewrite while_changed_S.
  destruct (PySet.equal [] (direct_nullable (rules g))); [eauto|].
  cbn [bind].
  destruct (nullable_pass_grows (rules g) []) as (N & _ & Q).
  apply (while_changed_returns (fun new => Return (nullable_pass (rules g) new))
           (PyDict.keys (rules g))).
  - intros s. apply nullable_pass_step.
  - constructor.
  - apply N. constructor.
  - intros x [].
  - intros x Hx. destruct (Q x Hx) as [[] | ]; assumption.
  - unfold PyDict.keys. rewrite length_map. simpl. lia.
Qed.

(** ** [without_epsilon_rules] keeps the keys and returns *)

Lemma rules_add_Return lhs opt (d : ruleset) :
  In lhs (PyDict.keys d) ->
  exists d', rules_add lhs opt d = Return d' /\ PyDict.keys d' = PyDict.keys d.
Proof.
  intros Hk. destruct (key_get _ _ Hk) as [rhs Hr].
  unfold rules_add, PyDict.getitem. rewrite Hr. simpl.
  eexists. split; [reflexivity|]. apply keys_replace.
Qed.

Lemma epsilon_expand_Return nullable r (new_rules : ruleset) :
  PyDict.keys new_rules = PyDict.keys r ->
  exists nr, epsilon_expand nullable r new_rules = Return nr /\
             PyDict.keys nr = PyDict.keys r.
Proof.
  intros Hk. unfold epsilon_expand.
  apply (foldM_invariant (fun nr : ruleset => PyDict.keys nr = PyDict.keys r));
    [|assumption].
  intros nr kv Hkv Hnr.
  apply (foldM_invariant (fun nr : ruleset => PyDict.keys nr = PyDict.keys r));
    [|assumption].
  intros nr1 opt Hopt Hnr1.
  apply (foldM_invariant (fun nr : ruleset => PyDict.keys nr = PyDict.keys r));
    [|assumption].
  intros nr2 kept Hkept Hnr2.
  destruct (negb (is_empty (epsilon_variant nullable kept opt))
            && negb (eqv (epsilon_variant nullable kept opt) [fst kv])).
  - destruct (rules_add_Return (fst kv) (epsilon_variant nullable kept opt) nr2)
      as (d' & -> & Hd').
    + rewrite Hnr2. apply in_map. exact Hkv.
    + exists d'. split; congruence.
  - eauto.
Qed.

Lemma keys_discard_empty (r : ruleset) :
  PyDict.keys (map (fun kv => (fst kv, PySet.discard [] (snd kv))) r)
  = PyDict.keys r.
Proof. unfold PyDict.keys. rewrite map_map. reflexivity. Qed.

Lemma without_epsilon_rules_unfold g nullable :
  _nullable_nonterminals g = Return nullable ->
  exists nr,
    PyDict.keys nr = PyDict.keys (rules g) /\
    without_epsilon_rules g =
    if PySet.mem (start g) nullable then
      Grammar_init
        (PyDict.setitem (start g ++ "'")%string
                        (PySet.of_list [[]; [start g]]) nr)
        (start g ++ "'")%string
    else Grammar_init nr (start g).
Proof.
  intros Hn. unfold without_epsilon_rules. rewrite Hn. cbn [bind].
  destruct (epsilon_expand_Return nullable (rules g)
              (map (fun kv => (fst kv, PySet.discard [] (snd kv))) (rules g)))
    as (nr & -> & Hk).
  - apply keys_discard_empty.
  - exists nr. split; [assumption | reflexivity].
Qed.

Lemma without_epsilon_rules_Return g :
  NoDup (nonterminals g) -> In (start g) (nonterminals g) ->
  exists g', without_epsilon_rules g = Return g' /\
             NoDup (nonterminals g') /\
             In (start g') (nonterminals g') /\
             In (start g) (nonterminals g').
Proof.
  intros Hnd Hs. destruct (nullable_nonterminals_returns g) as [nullable Hn].
  destruct (without_epsilon_rules_unfold g nullable Hn) as (nr & Hk & ->).
  assert (Hndr : NoDup (PyDict.keys nr)) by (rewrite Hk; exact Hnd).
  destruct (PySet.mem (start g) nullable).
  - destruct (Grammar_init_Return
                (PyDict.setitem (start g ++ "'")%string
                                (PySet.of_list [[]; [start g]]) nr)
                (start g ++ "'")%string) as (rhs & _ & Hinit).
    + apply keys_setitem. left; reflexivity.
    + eexists. split; [exact Hinit|].
      destruct (Grammar_init_inv _ _ _ Hinit) as (Hst & Hin & _ & Hkeys & Hnd').
      split; [apply Hnd', NoDup_keys_setitem, Hndr|].
      split; [simpl; left; reflexivity|].
      apply Hkeys, keys_setitem. right. rewrite Hk. exact Hs.
  - destruct (Grammar_init_Return nr (start g)) as (rhs & _ & Hinit).
    + rewrite Hk. exact Hs.
    + eexists. split; [exact Hinit|].
      destruct (Grammar_init_inv _ _ _ Hinit) as (Hst & Hin & _ & Hkeys & Hnd').
      split; [apply Hnd', Hndr|].
      split; simpl; left; reflexivity.
Qed.

(** A set with the two elements [a] and [b] is listed in one of two
    orders. *)
Lemma two_element_set {A} (a b : A) (l : list A) :
  a <> b -> NoDup l -> (forall x, In x l <-> x = a \/ x = b) ->
  l = [a; b] \/ l = [b; a].
Proof.
  intros Hab Hnd Hl.
  assert (Ha : In a l) by (apply Hl; auto).
  assert (Hb : In b l) by (apply Hl; auto).
  destruct l as [|x [|y [|z l]]].
  - destruct Ha.
  - destruct Ha as [<- | []], Hb as [<- | []]. congruence.
  - assert (Hx : x = a \/ x = b) by (apply Hl; simpl; auto).
    assert (Hy : y = a \/ y = b) by (apply Hl; simpl; auto).
    inversion Hnd as [|? ? Hxy _]; subst. simpl in Hxy.
    destruct Hx, Hy; subst; auto; tauto.
  - assert (Hx : x = a \/ x = b) by (apply Hl; simpl; auto).
    assert (Hy : y = a \/ y = b) by (apply Hl; simpl; auto).
    assert (Hz : z = a \/ z = b) by (apply Hl; simpl; auto).
    inversion Hnd as [|? ? Hx' Hnd']; subst.
    inversion Hnd' as [|? ? Hy' _]; subst. simpl in Hx', Hy'.
    destruct Hx, Hy, Hz; subst; tauto.
Qed.

(** C6. For the grammar with start [S] and the one rule
    [S -> a S b | %], whatever the order in which the set of the two
    alternatives is listed, [without_epsilon_rules] returns a grammar
    whose start is [S'], whose nonterminals are [S'] and [S], whose
    alternatives for [S'] are exactly the empty one and [(S,)], and whose
    alternatives for [S] are exactly [(a,S,b)] and [(a,b)]. *)
Theorem without_epsilon_rules_example (rhs : list alt) :
  NoDup rhs ->
  (forall opt, In opt rhs <-> opt = ["a"; "S"; "b"] \/ opt = []) ->
  exists g',
    without_epsilon_rules (mkGrammar [("S", rhs)] "S") = Return g' /\
    start g' = "S'" /\
    (forall k, In k (nonterminals g') <-> k = "S'" \/ k = "S") /\
    (exists rhs1, PyDict.get "S'" (rules g') = Some rhs1 /\
                  forall opt, In opt rhs1 <-> opt = [] \/ opt = ["S"]) /\
    (exists rhs2, PyDict.get "S" (rules g') = Some rhs2 /\
                  forall opt, In opt rhs2 <->
                              opt = ["a"; "S"; "b"] \/ opt = ["a"; "b"]).
Proof.
  intros Hnd Hrhs.
  destruct (two_element_set ["a"; "S"; "b"] [] rhs) as [-> | ->];
    [discriminate | assumption | assumption | |].
  - eexists. split; [vm_compute; reflexivity|]. simpl.
    split; [reflexivity|]. split; [intuition|].
    split; eexists; (split; [reflexivity|]); simpl; intuition.
  - eexists. split; [vm_compute; reflexivity|]. simpl.
    split; [reflexivity|]. split; [intuition|].
    split; eexists; (split; [reflexivity|]); simpl; intuition.
Qed.

Lemma without_epsilon_rules_example_witness :
  exists g',
    without_epsilon_rules (mkGrammar [("S", [["a"; "S"; "b"]; []])] "S")
    = Return g' /\
    start g' = "S'" /\
    (forall k, In k (nonterminals g') <-> k = "S'" \/ k = "S") /\
    (exists rhs1, PyDict.get "S'" (rules g') = Some rhs1 /\
                  forall opt, In opt rhs1 <-> opt = [] \/ opt = ["S"]) /\
    (exists rhs2, PyDict.get "S" (rules g') = Some rhs2 /\
                  forall opt, In opt rhs2 <->
                              opt = ["a"; "S"; "b"] \/ opt = ["a"; "b"]).
Proof.
  apply (without_epsilon_rules_example [["a"; "S"; "b"]; []]).
  - repeat constructor; simpl; intuition discriminate.
  - intros opt. simpl. intuition.
Defined.

(** C10. When the start symbol [S] is nullable and the grammar already
    has a nonterminal named [S'] (with any alternatives [old]),
    [without_epsilon_rules] returns, without raising, a grammar whose
    start is [S'] and in which the alternatives of [S'] are exactly the
    empty one and [(S,)]: nothing of [old] is kept and the name is not
    checked against the existing nonterminals. *)
Theorem without_epsilon_rules_overwrites_start_prime (g : Grammar)
        (nullable : list symbol) (old : list alt) :
  _nullable_nonterminals g = Return nullable ->
  In (start g) nullable ->
  PyDict.get (start g ++ "'")%string (rules g) = Some old ->
  exists g',
    without_epsilon_rules g = Return g' /\
    start g' = (start g ++ "'")%string /\
    exists rhs, PyDict.get (start g') (rules g') = Some rhs /\
                forall opt, In opt rhs <-> opt = [] \/ opt = [start g].
Proof.
  intros Hn Hs _.
  destruct (without_epsilon_rules_unfold g nullable Hn) as (nr & Hk & ->).
  apply mem_In in Hs. rewrite Hs.
  destruct (Grammar_init_Return
              (PyDict.setitem (start g ++ "'")%string
                              (PySet.of_list [[]; [start g]]) nr)
              (start g ++ "'")%string) as (rhs & Hrhs & ->).
  - apply keys_setitem. left; reflexivity.
  - rewrite get_setitem_same in Hrhs. injection Hrhs as <-.
    eexists. split; [reflexivity|]. split; [reflexivity|].
    eexists. split.
    + simpl. rewrite eqv_refl. reflexivity.
    + intros opt. rewrite of_list_In. simpl. intuition.
Qed.

Lemma without_epsilon_rules_overwrites_start_prime_witness :
  exists g',
    without_epsilon_rules
      (mkGrammar [("S", [[]; ["a"]]); ("S'", [["b"]; ["S"; "b"]])] "S")
    = Return g' /\
    start g' = "S'" /\
    exists rhs, PyDict.get (start g') (rules g') = Some rhs /\
                forall opt, In opt rhs <-> opt = [] \/ opt = ["S"].
Proof.
  apply (without_epsilon_rules_overwrites_start_prime
           (mkGrammar [("S", [[]; ["a"]]); ("S'", [["b"]; ["S"; "b"]])] "S")
           ["S"] [["b"]; ["S"; "b"]]).
  - reflexivity.
  - simpl. auto.
  - reflexivity.
Defined.

(** ** [_unit_pairs] returns a set that holds the direct pairs *)

Lemma direct_unit_pairs_In g x y :
  In (x, y) (direct_unit_pairs g) <->
  exists rhs, In (x, rhs) (rules g) /\ In [y] rhs /\ In y (nonterminals g).
Proof.
  unfold direct_unit_pairs. rewrite of_list_In, in_flat_map. split.
  - intros ([k rhs] & Hkv & Hin). simpl in Hin.
    apply in_flat_map in Hin. destruct Hin as (opt & Hopt & Hin).
    destruct opt as [|y' [|? ?]]; try destruct Hin.
    destruct (PySet.mem y' (nonterminals g)) eqn:E; [|destruct Hin].
    destruct Hin as [[= <- <-] | []].
    exists rhs. repeat split; auto. apply mem_In, E.
  - intros (rhs & Hkv & Hopt & Hy). exists (x, rhs). split; [assumption|].
    simpl. apply in_flat_map. exists [y]. split; [assumption|].
    apply mem_In in Hy. rewrite Hy. left; reflexivity.
Qed.

Lemma direct_unit_pairs_universe g :
  incl (direct_unit_pairs g) (pair_universe g).
Proof.
  intros [x y] Hxy. apply direct_unit_pairs_In in Hxy.
  destruct Hxy as (rhs & Hkv & _ & Hy).
  apply in_prod_iff. split; [|assumption].
  apply (in_map fst) in Hkv. exact Hkv.
Qed.

Lemma unit_pairs_pass_grows g new :
  incl new (pair_universe g) ->
  grows (fun p => In p (pair_universe g)) new (unit_pairs_pass new).
Proof.
  intros Hnew. unfold unit_pairs_pass. apply grows_fold_left.
  intros acc [x y] Hxy. apply grows_fold_left.
  intros acc' [yy z] Hyz. simpl.
  destruct (eqv y yy); [|apply grows_refl].
  apply grows_add. apply Hnew in Hxy, Hyz.
  apply in_prod_iff in Hxy, Hyz. apply in_prod_iff. tauto.
Qed.

Lemma unit_pairs_pass_step g s :
  NoDup s -> incl s (pair_universe g) ->
  exists s', Return (unit_pairs_pass s) = Return s' /\ NoDup s' /\
             incl s s' /\ incl s' (pair_universe g).
Proof.
  intros Hnd Hin. destruct (unit_pairs_pass_grows g s Hin) as (N & I & Q).
  exists (unit_pairs_pass s). repeat split; auto.
  intros x Hx. destruct (Q x Hx); auto.
Qed.

Lemma unit_pairs_returns g :
  exists unit_pairs,
    _unit_pairs g = Return unit_pairs /\
    incl (direct_unit_pairs g) unit_pairs /\
    incl unit_pairs (pair_universe g).
Proof.
  destruct (while_changed_returns
              (fun new => Return (unit_pairs_pass new)) (pair_universe g)
              (unit_pairs_pass_step g)
              (S (List.length (rules g) * List.length (rules g)))
              [] (direct_unit_pairs g)) as [r Hr].
  - constructor.
  - apply of_list_NoDup.
  - intros x [].
  - apply direct_unit_pairs_universe.
  - unfold pair_universe, nonterminals, PyDict.keys.
    rewrite length_prod, length_map. simpl. lia.
  - exists r. split; [exact Hr|].
    destruct (while_changed_invariant
                (fun new => Return (unit_pairs_pass new))
                (fun s => incl (direct_unit_pairs g) s
                          /\ incl s (pair_universe g))) with
        (fuel := S (List.length (rules g) * List.length (rules g)))
        (old := @nil (string * string)) (new := direct_unit_pairs g) (r := r)
      as (s & [Hd Hu] & Hrs).
    + intros s s' [Hd Hu] [= <-].
      destruct (unit_pairs_pass_grows g s Hu) as (_ & I & Q). split.
      * eapply incl_tran; eassumption.
      * intros p Hp. destruct (Q p Hp); auto.
    + split; [apply incl_refl | apply direct_unit_pairs_universe].
    + exact Hr.
    + split; intros p Hp; [apply Hrs, Hd, Hp | apply Hu, Hrs, Hp].
Qed.

(** ** The two passes of [without_unit_rules] *)

Lemma discard_unit_Return (nr : ruleset) x y :
  In x (PyDict.keys nr) ->
  exists rx, PyDict.get x nr = Some rx /\
             discard_unit nr (x, y)
             = Return (PyDict.replace x (PySet.discard [y] rx) nr).
Proof.
  intros Hx. destruct (key_get _ _ Hx) as [rx Hrx]. exists rx.
  split; [assumption|]. unfold discard_unit, PyDict.getitem. simpl.
  rewrite Hrx. reflexivity.
Qed.

(** After the first pass the set of [x] is what it was, less every
    [(y,)] with [(x, y)] among the pairs met. *)
Lemma discard_pass order1 : forall nr : ruleset,
  (forall x y, In (x, y) order1 -> In x (PyDict.keys nr)) ->
  exists nr',
    foldM discard_unit order1 nr = Return nr' /\
    PyDict.keys nr' = PyDict.keys nr /\
    forall x rhs', PyDict.get x nr' = Some rhs' ->
      exists rhs, PyDict.get x nr = Some rhs /\
        forall opt, In opt rhs' <->
                    In opt rhs /\ forall y, In (x, y) order1 -> opt <> [y].
Proof.
  induction order1 as [|[x0 y0] l IH]; intros nr Hk.
  - exists nr. simpl. repeat split; auto.
    intros x rhs' Hg. exists rhs'. split; [assumption|]. intuition.
  - destruct (discard_unit_Return nr x0 y0) as (rx & Hrx & Hd).
    { apply (Hk x0 y0). left; reflexivity. }
    simpl. rewrite Hd. cbn [bind].
    destruct (IH (PyDict.replace x0 (PySet.discard [y0] rx) nr))
      as (nr' & -> & Hk' & Hget).
    { intros x y Hxy. rewrite keys_replace. apply (Hk x y). right; assumption. }
    exists nr'. split; [reflexivity|]. split.
    { rewrite Hk'. apply keys_replace. }
    intros x rhs' Hx. destruct (Hget x rhs' Hx) as (rhs1 & Hrhs1 & Hiff).
    rewrite get_replace in Hrhs1. destruct (eqv x x0) eqn:E.
    + apply eqv_iff in E. subst x0. rewrite Hrx in Hrhs1. simpl in Hrhs1.
      injection Hrhs1 as <-. exists rx. split; [assumption|].
      intros opt. rewrite Hiff, discard_In. split.
      * intros [[Hin Hne] Hl]. split; [assumption|].
        intros y [[= <-] | Hy]; auto.
      * intros [Hin Hl]. repeat split; auto.
    + exists rhs1. split; [assumption|].
      intros opt. rewrite Hiff. apply eqv_false in E. split.
      * intros [Hin Hl]. split; [assumption|].
        intros y [[= -> _] | Hy]; [congruence | auto].
      * intros [Hin Hl]. split; auto.
Qed.

Lemma absorb_pass keys order2 (nr : ruleset) :
  (forall x y, In (x, y) order2 -> In x keys /\ In y keys) ->
  PyDict.keys nr = keys -> unit_free keys nr ->
  exists nr', foldM absorb_unit order2 nr = Return nr' /\
              PyDict.keys nr' = keys /\ unit_free keys nr'.
Proof.
  intros Hk Hkeys Hfree.
  destruct (foldM_invariant
              (fun nr : ruleset => PyDict.keys nr = keys /\ unit_free keys nr)
              absorb_unit order2) with (s := nr) as (nr' & Hr & Hk' & Hf');
    [| split; assumption | exists nr'; auto].
  intros s [x y] Hxy [Hs Hfs].
  destruct (Hk x y Hxy) as [Hx Hy]. rewrite <- Hs in Hx, Hy.
  destruct (key_get _ _ Hx) as [rx Hrx], (key_get _ _ Hy) as [ry Hry].
  unfold absorb_unit, PyDict.getitem. simpl. rewrite Hrx, Hry. cbn [bind].
  eexists. split; [reflexivity|]. split.
  - rewrite keys_replace. exact Hs.
  - intros x' rhs y' Hg Hin. rewrite get_replace in Hg.
    destruct (eqv x' x).
    + rewrite Hrx in Hg. simpl in Hg. injection Hg as <-.
      apply update_In in Hin. destruct Hin; eauto.
    + eauto.
Qed.

Lemma without_unit_rules_in_spec g unit_pairs order1 order2 :
  NoDup (nonterminals g) -> In (start g) (nonterminals g) ->
  incl (direct_unit_pairs g) unit_pairs ->
  incl unit_pairs (pair_universe g) ->
  (forall p, In p order1 <-> In p unit_pairs) ->
  (forall p, In p order2 <-> In p unit_pairs) ->
  exists g',
    without_unit_rules_in order1 order2 g = Return g' /\
    start g' = start g /\
    NoDup (nonterminals g') /\
    (forall k, In k (nonterminals g') <-> In k (nonterminals g)) /\
    forall lhs rhs y,
      In (lhs, rhs) (rules g') -> In [y] rhs -> ~ In y (nonterminals g').
Proof.
  intros Hnd Hstart Hdirect Huniv H1 H2.
  assert (Hin : forall p, In p unit_pairs ->
                          In (fst p) (nonterminals g) /\ In (snd p) (nonterminals g)).
  { intros [x y] Hp. apply Huniv in Hp. apply in_prod_iff in Hp. exact Hp. }
  destruct (discard_pass order1 (rules g)) as (nr1 & Hf1 & Hk1 & Hg1).
  { intros x y Hxy. apply H1 in Hxy. apply (Hin _ Hxy). }
  destruct (absorb_pass (nonterminals g) order2 nr1) as (nr2 & Hf2 & Hk2 & Hfree).
  { intros x y Hxy. apply H2 in Hxy. apply (Hin _ Hxy). }
  { exact Hk1. }
  { intros x rhs' y Hx Hy Hnt.
    destruct (Hg1 x rhs' Hx) as (rhs & Hrhs & Hiff).
    apply Hiff in Hy. destruct Hy as [Hy Hne].
    apply (Hne y); [|reflexivity].
    apply H1, Hdirect, direct_unit_pairs_In.
    exists rhs. repeat split; auto. apply get_Some_In, Hrhs. }
  unfold without_unit_rules_in. rewrite Hf1. cbn [bind]. rewrite Hf2. cbn [bind].
  destruct (Grammar_init_Return nr2 (start g)) as (rs & Hrs & Hinit).
  { rewrite Hk2. exact Hstart. }
  eexists. split; [exact Hinit|].
  destruct (Grammar_init_inv _ _ _ Hinit) as (Hst & _ & Hget & Hkeys & Hnd').
  rewrite Hk2 in Hkeys, Hnd'.
  split; [exact Hst|]. split; [exact (Hnd' Hnd)|]. split; [exact Hkeys|].
  intros lhs rhs y Hlr Hy Hnt.
  apply In_get in Hlr; [| exact (Hnd' Hnd)].
  rewrite Hget in Hlr. apply (Hfree lhs rhs y Hlr Hy).
  apply Hkeys in Hnt. exact Hnt.
Qed.

Lemma without_unit_rules_Return g :
  NoDup (nonterminals g) -> In (start g) (nonterminals g) ->
  exists g', without_unit_rules g = Return g' /\
             start g' = start g /\
             NoDup (nonterminals g') /\
             (forall k, In k (nonterminals g') <-> In k (nonterminals g)).
Proof.
  intros Hnd Hstart.
  destruct (unit_pairs_returns g) as (ups & Hups & Hdirect & Huniv).
  destruct (without_unit_rules_in_spec g ups ups ups Hnd Hstart Hdirect Huniv)
    as (g' & Hg' & Hst & Hnd' & Hk & _); try tauto.
  exists g'. unfold without_unit_rules. rewrite Hups. cbn [bind]. auto.
Qed.

(** C5. [_unit_pairs] returns a set [unit_pairs], and in whatever order
    the first loop ([order1]) and the second loop ([order2]) of
    [without_unit_rules] meet the pairs of that set, the operation
    returns a grammar in which no alternative is a single symbol that is
    a nonterminal of the result.  [without_unit_rules] itself is the
    case where both orders are the listing of [unit_pairs]. *)
Theorem without_unit_rules_no_unit_alternative (g : Grammar) :
  well_formed g ->
  exists unit_pairs,
    _unit_pairs g = Return unit_pairs /\
    without_unit_rules g = without_unit_rules_in unit_pairs unit_pairs g /\
    forall order1 order2,
      (forall p, In p order1 <-> In p unit_pairs) ->
      (forall p, In p order2 <-> In p unit_pairs) ->
      exists g',
        without_unit_rules_in order1 order2 g = Return g' /\
        forall lhs rhs y,
          In (lhs, rhs) (rules g') -> In [y] rhs ->
          ~ In y (nonterminals g').
Proof.
  intros (Hnd & Hstart & _).
  destruct (unit_pairs_returns g) as (ups & Hups & Hdirect & Huniv).
  exists ups. split; [assumption|]. split.
  { unfold without_unit_rules. rewrite Hups. reflexivity. }
  intros order1 order2 H1 H2.
  destruct (without_unit_rules_in_spec g ups order1 order2
              Hnd Hstart Hdirect Huniv H1 H2) as (g' & Hg' & _ & _ & _ & Hfree).
  exists g'. split; assumption.
Qed.

Ltac concrete_well_formed :=
  unfold well_formed; simpl;
  split; [repeat constructor; simpl; intuition discriminate |];
  split; [auto |];
  let H := fresh "H" in
  intros ? ? H;
  repeat (destruct H as [H | H];
          [injection H as <- <-;
           repeat constructor; simpl; intuition discriminate |]);
  destruct H.

Lemma without_unit_rules_no_unit_alternative_witness :
  let g := mkGrammar [("A", [["B"]; ["A"; "c"]]);
                      ("B", [["C"]; ["b"]]);
                      ("C", [["a"]; ["A"]])] "A" in
  exists unit_pairs,
    _unit_pairs g = Return unit_pairs /\
    without_unit_rules g = without_unit_rules_in unit_pairs unit_pairs g /\
    forall order1 order2,
      (forall p, In p order1 <-> In p unit_pairs) ->
      (forall p, In p order2 <-> In p unit_pairs) ->
      exists g',
        without_unit_rules_in order1 order2 g = Return g' /\
        forall lhs rhs y,
          In (lhs, rhs) (rules g') -> In [y] rhs ->
          ~ In y (nonterminals g').
Proof.
  intros g. apply (without_unit_rules_no_unit_alternative g).
  concrete_well_formed.
Defined.

(** ** The productive filter

    [new_productive] is the [frozenset] of the terminals, so a round of
    [_productive_symbols] either raises at its first [add] or leaves the
    set as it was. *)

Lemma productive_pass_frozen r productive T :
  productive_pass r productive (py_frozenset T) = Return (py_frozenset T) \/
  productive_pass r productive (py_frozenset T) = Raise frozenset_has_no_add.
Proof.
  unfold productive_pass.
  induction r as [|kv r IH]; simpl; [auto|].
  assert (Hin : forall rhs : list (list string),
             foldM (fun np opt =>
                      if stringof opt productive
                      then add_method (fst kv) np else Return np)
                   rhs (py_frozenset T) = Return (py_frozenset T) \/
             foldM (fun np opt =>
                      if stringof opt productive
                      then add_method (fst kv) np else Return np)
                   rhs (py_frozenset T) = Raise frozenset_has_no_add).
  { induction rhs as [|opt rhs IHr]; simpl; [auto|].
    destruct (stringof opt productive); simpl; auto. }
  destruct (Hin (snd kv)) as [-> | ->]; simpl; auto.
Qed.

Lemma productive_symbols_outcome g :
  _productive_symbols g = Raise frozenset_has_no_add \/
  exists s, _productive_symbols g = Return s /\ incl s (terminals g).
Proof.
  unfold _productive_symbols. cbn [productive_loop elements deepcopy].
  destruct (PySet.equal (terminals g) []) eqn:E.
  - right. exists []. split; [reflexivity | intros x []].
  - destruct (productive_pass_frozen (rules g) (terminals g) (terminals g))
      as [-> | ->]; cbn [bind elements].
    + right. exists (terminals g).
      assert (Heq : PySet.equal (terminals g) (terminals g) = true)
        by (apply equal_iff; tauto).
      rewrite Heq. split; [reflexivity | apply incl_refl].
    + left; reflexivity.
Qed.

Lemma terminals_not_keys g x : In x (terminals g) -> ~ In x (nonterminals g).
Proof.
  unfold terminals. rewrite of_list_In, filter_In, negb_true_iff.
  intros [_ Hh] Hk. apply has_In in Hk. unfold nonterminals in Hk. congruence.
Qed.

Lemma with_symbols_no_key g symbols :
  (forall x, In x symbols -> ~ In x (nonterminals g)) ->
  with_symbols g symbols = Raise (KeyError (Some (start g))).
Proof.
  intros Hs. unfold with_symbols.
  assert (Hfold : forall (r : ruleset) (acc : ruleset),
             incl r (rules g) ->
             fold_left
               (fun nr kv =>
                  if PySet.mem (fst kv) symbols then
                    fold_left (fun nr opt =>
                                 if stringof opt symbols
                                 then default_add (fst kv) opt nr else nr)
                              (snd kv) nr
                  else nr) r acc = acc).
  { induction r as [|kv r IH]; intros acc Hr; simpl; [reflexivity|].
    assert (Hm : PySet.mem (fst kv) symbols = false).
    { apply mem_false. intros Hin. apply (Hs _ Hin).
      apply in_map. apply Hr. left; reflexivity. }
    rewrite Hm. apply IH. intros x Hx. apply Hr. right; assumption. }
  rewrite Hfold by apply incl_refl.
  apply Grammar_init_Raise. simpl. tauto.
Qed.

Lemma with_productive_symbols_raises g :
  with_productive_symbols g = Raise frozenset_has_no_add \/
  with_productive_symbols g = Raise (KeyError (Some (start g))).
Proof.
  unfold with_productive_symbols.
  destruct (productive_symbols_outcome g) as [-> | (s & -> & Hs)]; cbn [bind].
  - left; reflexivity.
  - right. apply with_symbols_no_key.
    intros x Hx. apply terminals_not_keys, Hs, Hx.
Qed.

(** ** [_reachable_symbols] returns *)

Lemma rhs_symbols_In (r : ruleset) lhs rhs opt x :
  In (lhs, rhs) r -> In opt rhs -> In x opt -> In x (rhs_symbols r).
Proof.
  intros Hkv Hopt Hx. unfold rhs_symbols. apply in_flat_map.
  exists (lhs, rhs). split; [assumption|]. simpl.
  apply in_concat. exists opt. auto.
Qed.

Lemma reachable_pass_grows (r : ruleset) new :
  exists s', reachable_pass r new = Return s' /\
             grows (fun x => In x (rhs_symbols r)) new s'.
Proof.
  unfold reachable_pass.
  apply (foldM_invariant
           (fun acc => grows (fun x => In x (rhs_symbols r)) new acc));
    [| apply grows_refl].
  intros acc X _ Hacc. destruct (PyDict.has X r) eqn:E.
  - apply has_In in E. destruct (key_get _ _ E) as [rhs Hrhs].
    unfold PyDict.getitem. rewrite Hrhs. cbn [bind].
    eexists. split; [reflexivity|].
    eapply grows_trans; [exact Hacc|].
    apply grows_fold_left. intros acc' opt Hopt.
    apply grows_update. intros x Hx.
    eapply rhs_symbols_In; [apply get_Some_In, Hrhs | exact Hopt | exact Hx].
  - eexists. split; [reflexivity | exact Hacc].
Qed.

Lemma reachable_symbols_returns g :
  exists reachable, _reachable_symbols g = Return reachable.
Proof.
  unfold _reachable_symbols.
  apply (while_changed_returns (reachable_pass (rules g))
           (start g :: rhs_symbols (rules g))).
  - intros s Hnd Hin.
    destruct (reachable_pass_grows (rules g) s) as (s' & Hs' & N & I & Q).
    exists s'. repeat split; auto.
    intros x Hx. destruct (Q x Hx) as [Hs | Hr]; [auto | right; exact Hr].
  - constructor.
  - apply of_list_NoDup.
  - intros x [].
  - intros x Hx. apply of_list_In in Hx. destruct Hx as [<- | []].
    left; reflexivity.
  - simpl. lia.
Qed.

(** ** No operation uses up its fuel *)

Lemma foldM_not_Diverge {A S} (body : S -> A -> outcome S) (l : list A) :
  (forall s x, body s x <> Diverge) -> forall s, foldM body l s <> Diverge.
Proof.
  intros Hb. induction l as [|x l IH]; intros s; simpl; [discriminate|].
  destruct (body s x) eqn:E; simpl; [apply IH | discriminate |].
  exfalso. apply (Hb s x E).
Qed.

Lemma Grammar_init_not_Diverge r s : Grammar_init r s <> Diverge.
Proof.
  unfold Grammar_init, PyDict.move_to_front.
  destruct (PyDict.get s r); simpl; discriminate.
Qed.

Lemma without_epsilon_rules_not_Diverge g : without_epsilon_rules g <> Diverge.
Proof.
  destruct (nullable_nonterminals_returns g) as [nullable Hn].
  destruct (without_epsilon_rules_unfold g nullable Hn) as (nr & _ & ->).
  destruct (PySet.mem (start g) nullable); apply Grammar_init_not_Diverge.
Qed.

Lemma without_unit_rules_not_Diverge g : without_unit_rules g <> Diverge.
Proof.
  destruct (unit_pairs_returns g) as (ups & Hups & _).
  unfold without_unit_rules, without_unit_rules_in. rewrite Hups. cbn [bind].
  assert (Hd : forall s x, discard_unit s x <> Diverge).
  { intros s x. unfold discard_unit, PyDict.getitem.
    destruct (PyDict.get (fst x) s); simpl; discriminate. }
  assert (Ha : forall s x, absorb_unit s x <> Diverge).
  { intros s x. unfold absorb_unit, PyDict.getitem.
    destruct (PyDict.get (fst x) s); simpl; [|discriminate].
    destruct (PyDict.get (snd x) s); simpl; discriminate. }
  destruct (foldM discard_unit ups (rules g)) as [nr1| |] eqn:E1; simpl;
    [| discriminate | exfalso; apply (foldM_not_Diverge _ _ Hd _ E1)].
  destruct (foldM absorb_unit ups nr1) as [nr2| |] eqn:E2; simpl;
    [| discriminate | exfalso; apply (foldM_not_Diverge _ _ Ha _ E2)].
  apply Grammar_init_not_Diverge.
Qed.

(** ** The pipelines as sequences of operations *)

Lemma bind_Return_r {A} (c : outcome A) : (x <- c ;; Return x) = c.
Proof. destruct c; reflexivity. Qed.

Lemma run_with_useful_symbols g :
  run PipelineSteps.with_useful_symbols g =
  (g1 <- with_productive_symbols g ;; with_reachable_symbols g1).
Proof.
  unfold run, PipelineSteps.with_useful_symbols. simpl.
  rewrite bind_Return_r.
  destruct (with_productive_symbols g); simpl; try reflexivity.
  rewrite !bind_Return_r. reflexivity.
Qed.

Lemma run_chomsky_normal_form g :
  run PipelineSteps.chomsky_normal_form g =
  (g1 <- without_epsilon_rules g ;;
   g2 <- without_unit_rules g1 ;;
   g3 <- with_productive_symbols g2 ;;
   g4 <- with_reachable_symbols g3 ;;
   g5 <- with_pair_rules g4 ;;
   with_unit_terminals g5).
Proof.
  unfold run, PipelineSteps.chomsky_normal_form. simpl.
  rewrite bind_Return_r.
  destruct (without_epsilon_rules g) as [g1| |]; simpl; try reflexivity.
  rewrite bind_Return_r.
  destruct (without_unit_rules g1) as [g2| |]; simpl; try reflexivity.
  rewrite bind_Return_r.
  destruct (with_productive_symbols g2) as [g3| |]; simpl; try reflexivity.
  rewrite !bind_Return_r.
  destruct (with_reachable_symbols g3) as [g4| |]; simpl; try reflexivity.
  rewrite bind_Return_r.
  destruct (with_pair_rules g4) as [g5| |]; simpl; try reflexivity.
  rewrite !bind_Return_r. reflexivity.
Qed.

(** C1. The canonical pipeline produces no grammar: on every input the
    run ends with an exception.  The first two steps never use up their
    fuel, and the productive filter raises on whatever they return (an
    [AttributeError] from [add] on the [frozenset] of terminals, or a
    [KeyError] from [Grammar.__init__]). *)
Theorem chomsky_normal_form_raises (g : Grammar) :
  exists e, run PipelineSteps.chomsky_normal_form g = Raise e.
Proof.
  rewrite run_chomsky_normal_form.
  destruct (without_epsilon_rules g) as [g1| e |] eqn:E1; simpl;
    [| eauto | exfalso; apply (without_epsilon_rules_not_Diverge g E1)].
  destruct (without_unit_rules g1) as [g2| e |] eqn:E2; simpl;
    [| eauto | exfalso; apply (without_unit_rules_not_Diverge g1 E2)].
  destruct (with_productive_symbols_raises g2) as [-> | ->]; simpl; eauto.
Qed.

(** X26. On a well-formed grammar the first two steps of the canonical
    pipeline, [without_epsilon_rules] and [without_unit_rules], return,
    and the run ends with the exception the productive filter raises on
    the grammar they hand over. *)
Lemma chomsky_normal_form_stops_at_productive_filter g :
  well_formed g ->
  exists g1 g2 e,
    without_epsilon_rules g = Return g1 /\
    without_unit_rules g1 = Return g2 /\
    with_productive_symbols g2 = Raise e /\
    (e = frozenset_has_no_add \/ e = KeyError (Some (start g2))) /\
    run PipelineSteps.chomsky_normal_form g = Raise e.
Proof.
  intros (Hnd & Hstart & _).
  destruct (without_epsilon_rules_Return g Hnd Hstart)
    as (g1 & H1 & Hnd1 & Hs1 & _).
  destruct (without_unit_rules_Return g1 Hnd1 Hs1) as (g2 & H2 & _).
  exists g1, g2. rewrite run_chomsky_normal_form, H1. cbn [bind].
  rewrite H2. cbn [bind].
  destruct (with_productive_symbols_raises g2) as [E | E]; rewrite E;
    eexists; repeat split; auto.
Qed.

Example chomsky_normal_form_on_one_terminal :
  run PipelineSteps.chomsky_normal_form (mkGrammar [("S", [["a"]])] "S")
  = Raise frozenset_has_no_add.
Proof. reflexivity. Qed.

(** The last two steps of the pipeline, run on [S -> a]: the bare
    terminal alternative becomes the single nonterminal [a#]. *)
Example pair_rules_then_unit_terminals :
  (g1 <- with_pair_rules (mkGrammar [("S", [["a"]])] "S") ;;
   with_unit_terminals g1)
  = Return (mkGrammar [("S", [["a#"]]); ("a#", [["a"]])] "S").
Proof. reflexivity. Qed.



(** C2. Four of the six rewrite operations raise on well-formed
    grammars.  [with_productive_symbols] raises on every grammar; on the
    grammar whose start symbol [S] has an empty set of alternatives,
    [with_reachable_symbols], [with_pair_rules] and [with_unit_terminals]
    build a dictionary without the key [S] and [Grammar.__init__] raises
    [KeyError]. *)
Theorem rewrite_operations_raise :
  (forall g, with_productive_symbols g = Raise frozenset_has_no_add \/
             with_productive_symbols g = Raise (KeyError (Some (start g)))) /\
  let g0 := mkGrammar [("S", [])] "S" in
  well_formed g0 /\
  with_reachable_symbols g0 = Raise (KeyError (Some "S")) /\
  with_pair_rules g0 = Raise (KeyError (Some "S")) /\
  with_unit_terminals g0 = Raise (KeyError (Some "S")).
Proof.
  split; [apply with_productive_symbols_raises|].
  split; [concrete_well_formed|].
  repeat split; reflexivity.
Qed.

(** ** What [default_add] keeps *)

Lemma default_add_has lhs opt (d : ruleset) :
  has_alt lhs opt (default_add lhs opt d).
Proof.
  unfold has_alt, default_add. destruct (PyDict.get lhs d) as [rhs|] eqn:E.
  - exists (PySet.add opt rhs). split.
    + apply get_replace_same. eapply get_Some_key, E.
    + apply add_In. left; reflexivity.
  - exists [opt]. rewrite get_app, E. simpl. rewrite eqv_refl.
    split; [reflexivity | left; reflexivity].
Qed.

Lemma default_add_keeps k x lhs opt (d : ruleset) :
  has_alt k x d -> has_alt k x (default_add lhs opt d).
Proof.
  intros (s & Hs & Hx). unfold has_alt, default_add.
  destruct (PyDict.get lhs d) as [rhs|] eqn:E.
  - rewrite get_replace. destruct (eqv k lhs) eqn:Ek.
    + apply eqv_iff in Ek. subst k. rewrite E. simpl.
      exists (PySet.add opt rhs). split; [reflexivity|].
      apply add_In. right. congruence.
    + exists s. auto.
  - exists s. rewrite get_app, Hs. auto.
Qed.

Lemma fold_default_add_keeps {B} (key : B -> string) (val : B -> list string)
      k x (l : list B) : forall d : ruleset,
  has_alt k x d ->
  has_alt k x (fold_left (fun nr b => default_add (key b) (val b) nr) l d).
Proof.
  induction l as [|b l IH]; intros d Hd; simpl; [assumption|].
  apply IH, default_add_keeps, Hd.
Qed.

Lemma fold_default_add_has {B} (key : B -> string) (val : B -> list string)
      b (l : list B) : forall d : ruleset,
  In b l ->
  has_alt (key b) (val b)
          (fold_left (fun nr b => default_add (key b) (val b) nr) l d).
Proof.
  induction l as [|b' l IH]; intros d Hin; simpl; [destruct Hin|].
  destruct Hin as [-> | Hin].
  - apply fold_default_add_keeps, default_add_has.
  - apply IH, Hin.
Qed.

(** ** The rules [with_pair_rules] emits *)

Lemma extends_refl d : extends d d.
Proof. intros k x H. exact H. Qed.

Lemma extends_trans d1 d2 d3 : extends d1 d2 -> extends d2 d3 -> extends d1 d3.
Proof. intros H1 H2 k x H. apply H2, H1, H. Qed.

Lemma extends_default_add lhs opt d : extends d (default_add lhs opt d).
Proof. intros k x H. apply default_add_keeps, H. Qed.

Lemma foldM_adds {B} (P : B -> ruleset -> Prop)
      (body : ruleset -> B -> outcome ruleset) (l : list B) :
  (forall b d d', extends d d' -> P b d -> P b d') ->
  (forall d b, In b l ->
     exists d', body d b = Return d' /\ extends d d' /\ P b d') ->
  forall d, exists d',
    foldM body l d = Return d' /\ extends d d' /\
    forall b, In b l -> P b d'.
Proof.
  intros Hmono. induction l as [|b l IH]; intros Hbody d.
  - exists d. simpl. split; [reflexivity|]. split; [apply extends_refl|].
    intros b [].
  - destruct (Hbody d b (or_introl eq_refl)) as (d1 & Hd1 & He1 & Hp1).
    destruct (IH (fun d0 b0 H => Hbody d0 b0 (or_intror H)) d1)
      as (d2 & Hd2 & He2 & Hp2).
    exists d2. simpl. rewrite Hd1. cbn [bind].
    split; [exact Hd2|]. split; [eapply extends_trans; eassumption|].
    intros b' [<- | Hb'].
    + eapply Hmono; eassumption.
    + apply Hp2, Hb'.
Qed.

Lemma chain_emitted_mono lhs iopt d d' :
  extends d d' -> chain_emitted lhs iopt d -> chain_emitted lhs iopt d'.
Proof.
  intros He [H1 H2]. split; [apply He, H1|].
  intros j Hj. apply He, H2, Hj.
Qed.

Lemma pair_chain_emits lhs (d : ruleset) iopt :
  exists d', pair_chain lhs d iopt = Return d' /\ extends d d' /\
             chain_emitted lhs iopt d'.
Proof.
  destruct iopt as [i opt]. unfold pair_chain. cbn [fst snd].
  destruct (foldM_adds
              (fun j d0 =>
                 has_alt (chain_lhs lhs i j)
                         [nth j opt EmptyString; aux_format lhs i (j + 1)] d0)
              (fun nr j =>
                 s <- getindex opt j ;;
                 Return (default_add
                           (if Nat.ltb 0 j then aux_format lhs i j else lhs)
                           [s; aux_format lhs i (j + 1)] nr))
              (seq 0 (List.length opt - 2))) with (d := d)
    as (d1 & Hd1 & He1 & Hp1).
  - intros j d0 d0' He H. apply He, H.
  - intros d0 j Hj. apply in_seq in Hj.
    assert (Hlt : j < List.length opt) by lia.
    unfold getindex.
    destruct (nth_error opt j) as [sym|] eqn:E;
      [| apply nth_error_None in E; lia].
    rewrite (nth_error_nth _ _ EmptyString E). cbn [bind].
    eexists. split; [reflexivity|]. split.
    + apply extends_default_add.
    + apply default_add_has.
  - rewrite Hd1. cbn [bind]. eexists. split; [reflexivity|]. split.
    + eapply extends_trans; [exact He1 | apply extends_default_add].
    + unfold chain_emitted. cbn [fst snd]. split.
      * apply default_add_has.
      * intros j Hj. apply default_add_keeps, Hp1, in_seq. lia.
Qed.

(** [with_pair_rules] builds its dictionary without raising, and for
    every alternative [opt] of length [n], listed at index [i] of the
    key [lhs], the dictionary has the chain rules
    [lhs -> (opt[0], lhs_i:1)], [lhs_i:j -> (opt[j], lhs_i:j+1)] for
    [0 < j < n - 2], and the last rule [opt[-2:]] on [lhs_i:n-3] when
    [n > 2] (on [lhs] otherwise). *)
Lemma pair_rules_emits (r : ruleset) :
  exists d, pair_rules r = Return d /\
    forall lhs rhs iopt,
      In (lhs, rhs) r -> In iopt (enumerate rhs) -> chain_emitted lhs iopt d.
Proof.
  unfold pair_rules.
  destruct (foldM_adds
              (fun kv d0 => forall iopt, In iopt (enumerate (snd kv)) ->
                                         chain_emitted (fst kv) iopt d0)
              (fun nr kv => foldM (pair_chain (fst kv)) (enumerate (snd kv)) nr)
              r) with (d := @nil (string * list (list string)))
    as (d & Hd & _ & Hp).
  - intros kv d0 d0' He H iopt Hin.
    eapply chain_emitted_mono; [exact He | apply H, Hin].
  - intros d0 kv _.
    destruct (foldM_adds (chain_emitted (fst kv)) (pair_chain (fst kv))
                         (enumerate (snd kv))) with (d := d0)
      as (d1 & Hd1 & He1 & Hp1).
    + intros iopt da db. apply chain_emitted_mono.
    + intros da iopt _. apply pair_chain_emits.
    + exists d1. auto.
  - exists d. split; [exact Hd|].
    intros lhs rhs iopt Hkv Hin. apply (Hp (lhs, rhs) Hkv iopt Hin).
Qed.

(** C3. On [S -> a b c] the chain of [with_pair_rules] is
    [S -> a S_0:1] and [S_0:0 -> b c]: the helper [S_0:1] of the
    right-hand side is no left-hand side, and the last rule hangs on
    [S_0:0], the helper before the last one. *)
Theorem with_pair_rules_last_rule_misplaced :
  exists g',
    with_pair_rules (mkGrammar [("S", [["a"; "b"; "c"]])] "S") = Return g' /\
    rules g' = [("S", [["a"; "S_0:1"]]); ("S_0:0", [["b"; "c"]])] /\
    In "S_0:1" (rhs_symbols (rules g')) /\
    ~ In "S_0:1" (nonterminals g') /\
    aux_format "S" 0 (3 - 2) = "S_0:1".
Proof.
  eexists. split; [reflexivity|]. simpl.
  split; [reflexivity|]. split; [auto|]. split; [|reflexivity].
  intuition discriminate.
Qed.

(** A longer alternative: the helper [S_0:2] carries both its chain rule
    and the last rule, and [S_0:3] has no rule. *)
Example with_pair_rules_five_symbols :
  with_pair_rules (mkGrammar [("S", [["a"; "b"; "c"; "d"; "e"]])] "S")
  = Return (mkGrammar [("S", [["a"; "S_0:1"]]);
                       ("S_0:1", [["b"; "S_0:2"]]);
                       ("S_0:2", [["c"; "S_0:3"]; ["d"; "e"]])] "S").
Proof. reflexivity. Qed.

(** Every alternative that is a bare terminal [t] of a key [lhs] is
    turned into [(t#,)] by [with_unit_terminals]. *)
Lemma unit_terminal_rules_bare_terminal g lhs rhs t :
  In (lhs, rhs) (rules g) -> In [t] rhs -> In t (terminals g) ->
  has_alt lhs [aux_format_terminal t] (unit_terminal_rules g).
Proof.
  intros Hkv Hopt Ht. unfold unit_terminal_rules.
  set (f := fun opt : list string =>
              map (fun sym => if PySet.mem sym (terminals g)
                              then aux_format_terminal sym else sym) opt).
  assert (Hf : f [t] = [aux_format_terminal t]).
  { unfold f. simpl. apply mem_In in Ht. rewrite Ht. reflexivity. }
  assert (Hkeep : forall (r : ruleset) (d : ruleset) k x,
             has_alt k x d ->
             has_alt k x
               (fold_left
                  (fun nr kv =>
                     fold_left (fun nr opt => default_add (fst kv) (f opt) nr)
                               (snd kv) nr) r d)).
  { induction r as [|kv r IH]; intros d k x Hd; simpl; [assumption|].
    apply IH. apply (fold_default_add_keeps (fun _ => fst kv) f). exact Hd. }
  generalize (fold_left
                (fun nr t0 => default_add (aux_format_terminal t0) [t0] nr)
                (terminals g) []).
  revert Hkv. generalize (rules g) as r.
  induction r as [|kv r IH]; intros Hkv d; simpl; [destruct Hkv|].
  destruct Hkv as [-> | Hkv].
  - apply Hkeep. simpl. rewrite <- Hf.
    apply (fold_default_add_has (fun _ => lhs) f [t]). exact Hopt.
  - apply IH, Hkv.
Qed.

(** C4. On [S -> a] the alternative that is the bare terminal [a] is not
    left alone by [with_unit_terminals]: it becomes [(a#,)]. *)
Theorem with_unit_terminals_rewrites_bare_terminal :
  exists g',
    with_unit_terminals (mkGrammar [("S", [["a"]])] "S") = Return g' /\
    In "a" (terminals (mkGrammar [("S", [["a"]])] "S")) /\
    PyDict.get "S" (rules g') = Some [["a#"]] /\
    PyDict.get "a#" (rules g') = Some [["a"]].
Proof.
  eexists. split; [reflexivity|]. simpl. auto.
Qed.

(** ** The error of [from_string] *)

Lemma from_string_record_rejected st i record :
  record_rejected record = true ->
  from_string_record st (i, record) = Raise (ValueError i (strip record)).
Proof.
  unfold record_rejected, from_string_record. simpl.
  intros H. apply andb_true_iff in H. destruct H as [H1 H2].
  apply negb_true_iff in H1. rewrite H1.
  destruct (partition "->" (strip record)) as [[lhs sep] rhs]. simpl in H2.
  rewrite H2. reflexivity.
Qed.

Lemma from_string_record_accepted st i record :
  record_rejected record = false ->
  exists st', from_string_record st (i, record) = Return st'.
Proof.
  unfold record_rejected, from_string_record. simpl.
  destruct (eqv (strip record) EmptyString); simpl; [eauto|].
  destruct (partition "->" (strip record)) as [[lhs sep] rhs]. simpl.
  intros ->. eauto.
Qed.

Lemma from_string_records_ValueError records : forall k st i line,
  foldM from_string_record (combine (seq k (List.length records)) records) st
  = Raise (ValueError i line) <->
  exists before record after,
    records = before ++ record :: after /\
    i = k + List.length before /\
    forallb (fun r => negb (record_rejected r)) before = true /\
    record_rejected record = true /\
    line = strip record.
Proof.
  induction records as [|r records IH]; intros k st i line.
  - simpl. split; [discriminate|].
    intros (before & record & after & Heq & _). destruct before; discriminate.
  - cbn [List.length seq combine foldM].
    destruct (record_rejected r) eqn:Er.
    + rewrite from_string_record_rejected by assumption. cbn [bind]. split.
      * intros [= <- <-]. exists [], r, records. simpl.
        repeat split; auto.
      * intros (before & record & after & Heq & Hi & Hb & Hr & Hl).
        destruct before as [|r' before].
        -- simpl in Heq. injection Heq as <- <-. subst.
           simpl. rewrite Nat.add_0_r. reflexivity.
        -- simpl in Heq. injection Heq as <- ->. simpl in Hb.
           rewrite Er in Hb. discriminate.
    + destruct (from_string_record_accepted st k r Er) as [st' ->].
      cbn [bind]. rewrite IH. split.
      * intros (before & record & after & -> & -> & Hb & Hr & Hl).
        exists (r :: before), record, after. simpl. rewrite Er.
        repeat split; auto.
      * intros (before & record & after & Heq & Hi & Hb & Hr & Hl).
        destruct before as [|r' before].
        -- simpl in Heq. injection Heq as <- <-. congruence.
        -- simpl in Heq. injection Heq as <- ->.
           exists before, record, after. simpl in Hb, Hi.
           apply andb_true_iff in Hb.
           repeat split; try tauto. lia.
Qed.

(** X19. [from_string] raises [ValueError] exactly for the first
    rejected record (a record that, stripped, is not empty and has no
    text after its first [->]), with the index of that record and its
    stripped text. *)
Lemma from_string_ValueError s i line :
  from_string s = Raise (ValueError i line) <->
  exists before record after,
    split ";;" s = before ++ record :: after /\
    i = List.length before /\
    forallb (fun r => negb (record_rejected r)) before = true /\
    record_rejected record = true /\
    line = strip record.
Proof.
  unfold from_string, enumerate.
  rewrite <- (from_string_records_ValueError (split ";;" s) 0 ([], None) i line).
  destruct (foldM from_string_record
              (combine (seq 0 (List.length (split ";;" s))) (split ";;" s))
              ([], None)) as [[r [st|]]| |]; simpl.
  - unfold Grammar_init, PyDict.move_to_front.
    destruct (PyDict.get st r); simpl; split; discriminate.
  - split; discriminate.
  - split; intros [= ->]; reflexivity.
  - split; discriminate.
Qed.

(** C9. The record [S ->] contains the separator, and [from_string]
    raises the error for it all the same, because the text after the
    separator is empty; and on the empty input, which has no record at
    all, [from_string] raises [KeyError]. *)
Theorem from_string_rejects_record_with_separator :
  from_string "S ->" = Raise (ValueError 0 "S ->") /\
  partition "->" "S ->" = ("S ", "->", EmptyString) /\
  from_string EmptyString = Raise (KeyError None).
Proof. repeat split; reflexivity. Qed.

(** ** Strings *)

Lemma append_nil_r (s : string) : (s ++ "")%string = s.
Proof. induction s as [|c s IH]; simpl; [reflexivity|]. rewrite IH. reflexivity. Qed.

Lemma append_assoc (s1 s2 s3 : string) :
  ((s1 ++ s2) ++ s3)%string = (s1 ++ (s2 ++ s3))%string.
Proof.
  induction s1 as [|c s1 IH]; simpl; [reflexivity|]. rewrite IH. reflexivity.
Qed.

Lemma length_append (s1 s2 : string) :
  String.length (s1 ++ s2) = String.length s1 + String.length s2.
Proof. induction s1 as [|c s1 IH]; simpl; [reflexivity|]. rewrite IH. reflexivity. Qed.

Lemma prefix_drop sep : forall s,
  prefix sep s = true -> s = (sep ++ drop (String.length sep) s)%string.
Proof.
  induction sep as [|a sep IH]; intros s; simpl.
  - destruct s; reflexivity.
  - destruct s as [|b s]; simpl; [discriminate|].
    destruct (ascii_dec a b) as [<- |]; [|discriminate].
    intros Hp. f_equal. apply IH, Hp.
Qed.

Lemma find_cons sep c s :
  find sep (String c s) =
  if prefix sep (String c s)
  then Some (EmptyString, drop (String.length sep) (String c s))
  else match find sep s with
       | Some (before, after) => Some (String c before, after)
       | None => None
       end.
Proof. reflexivity. Qed.

Lemma find_Some sep : forall s before after,
  find sep s = Some (before, after) -> s = (before ++ sep ++ after)%string.
Proof.
  induction s as [|c s IH]; intros before after.
  - change (find sep EmptyString)
      with (if prefix sep EmptyString
            then Some (EmptyString, drop (String.length sep) EmptyString)
            else None).
    destruct (prefix sep EmptyString) eqn:E; [|discriminate].
    intros [= <- <-]. apply prefix_drop, E.
  - rewrite find_cons. destruct (prefix sep (String c s)) eqn:E.
    + intros [= <- <-]. apply prefix_drop, E.
    + destruct (find sep s) as [[b a]|] eqn:Ef; [|discriminate].
      intros [= <- <-]. simpl. f_equal. apply IH. reflexivity.
Qed.

Lemma find_empty sep : sep <> EmptyString -> find sep EmptyString = None.
Proof. destruct sep; [congruence | reflexivity]. Qed.

Lemma split_fuel_enough sep : sep <> EmptyString ->
  forall n m s, String.length s <= n -> String.length s <= m ->
                split_fuel n sep s = split_fuel m sep s.
Proof.
  intros Hsep. induction n as [|n IH]; intros m s Hn Hm.
  - destruct s; [|simpl in Hn; lia].
    destruct m; cbn [split_fuel]; [reflexivity|]. rewrite find_empty by assumption.
    reflexivity.
  - destruct m as [|m].
    + destruct s; [|simpl in Hm; lia]. cbn [split_fuel].
      rewrite find_empty by assumption. reflexivity.
    + cbn [split_fuel]. destruct (find sep s) as [[b a]|] eqn:Ef; [|reflexivity].
      f_equal. pose proof (find_Some _ _ _ _ Ef) as Hs.
      rewrite Hs, !length_append in Hn, Hm.
      destruct sep; [congruence|]. simpl in Hn, Hm.
      apply IH; lia.
Qed.

Lemma split_find sep s before after :
  sep <> EmptyString -> find sep s = Some (before, after) ->
  split sep s = before :: split sep after.
Proof.
  intros Hsep Hf. unfold split.
  pose proof (find_Some _ _ _ _ Hf) as Hs.
  assert (Hlen : String.length after < String.length s).
  { rewrite Hs, !length_append. destruct sep; [congruence|]. simpl. lia. }
  destruct (String.length s) as [|m] eqn:Hm; [lia|].
  cbn [split_fuel]. rewrite Hf. f_equal. apply split_fuel_enough; [assumption | lia | lia].
Qed.

Lemma split_None sep s : find sep s = None -> split sep s = [s].
Proof.
  intros Hf. unfold split. destruct (String.length s); cbn [split_fuel];
    [reflexivity|].
  rewrite Hf. reflexivity.
Qed.

Lemma guard2_app a b s1 s2 :
  guard2 a b s1 = true -> guard2 a b s2 = true ->
  guard2 a b (s1 ++ s2) = true.
Proof.
  intros H1 H2. induction s1 as [|c s1 IH]; simpl in *; [assumption|].
  apply andb_true_iff in H1. destruct H1 as [Hc H1].
  rewrite (IH H1), andb_true_r.
  destruct s1 as [|d s1]; simpl in *; [|assumption].
  rewrite orb_false_r in Hc. rewrite Hc. reflexivity.
Qed.

Lemma find_guard2 a b t : forall p,
  guard2 a b p = true ->
  find (String a (String b EmptyString)) (p ++ t) =
  match find (String a (String b EmptyString)) t with
  | Some (before, after) => Some ((p ++ before)%string, after)
  | None => None
  end.
Proof.
  induction p as [|c p IH]; intros Hg.
  - simpl. destruct (find _ t) as [[x y]|]; reflexivity.
  - simpl in Hg. apply andb_true_iff in Hg. destruct Hg as [Hc Hg].
    change (String c p ++ t)%string with (String c (p ++ t)).
    rewrite find_cons, (IH Hg).
    assert (Hp : prefix (String a (String b EmptyString)) (String c (p ++ t))
                 = false).
    { simpl. destruct (ascii_dec a c) as [<- |]; [|reflexivity].
      rewrite Ascii.eqb_refl in Hc. simpl in Hc.
      destruct p as [|d p]; [discriminate|]. simpl.
      destruct (ascii_dec b d) as [<- |]; [|reflexivity].
      rewrite Ascii.eqb_refl in Hc. discriminate. }
    rewrite Hp. destruct (find _ t) as [[x y]|]; reflexivity.
Qed.

Lemma guard1_app a s1 s2 :
  guard1 a s1 = true -> guard1 a s2 = true -> guard1 a (s1 ++ s2) = true.
Proof.
  intros H1 H2. induction s1 as [|c s1 IH]; simpl in *; [assumption|].
  apply andb_true_iff in H1. destruct H1 as [Hc H1].
  rewrite Hc, (IH H1). reflexivity.
Qed.

Lemma find_guard1 a t : forall p,
  guard1 a p = true ->
  find (String a EmptyString) (p ++ t) =
  match find (String a EmptyString) t with
  | Some (before, after) => Some ((p ++ before)%string, after)
  | None => None
  end.
Proof.
  induction p as [|c p IH]; intros Hg.
  - simpl. destruct (find _ t) as [[x y]|]; reflexivity.
  - simpl in Hg. apply andb_true_iff in Hg. destruct Hg as [Hc Hg].
    change (String c p ++ t)%string with (String c (p ++ t)).
    rewrite find_cons, (IH Hg).
    assert (Hp : prefix (String a EmptyString) (String c (p ++ t)) = false).
    { simpl. destruct (ascii_dec a c) as [<- |]; [|reflexivity].
      rewrite Ascii.eqb_refl in Hc. discriminate. }
    rewrite Hp. destruct (find _ t) as [[x y]|]; reflexivity.
Qed.

(** *** [strip] *)

Lemma lstrip_all_space w t : all_space w = true -> lstrip (w ++ t) = lstrip t.
Proof.
  induction w as [|c w IH]; simpl; [reflexivity|].
  intros H. apply andb_true_iff in H. destruct H as [-> H]. auto.
Qed.

Lemma lstrip_starts s : starts_nonspace s = true -> lstrip s = s.
Proof.
  destruct s as [|c s]; simpl; [reflexivity|].
  intros H. apply negb_true_iff in H. rewrite H. reflexivity.
Qed.

Lemma starts_nonspace_app s t :
  starts_nonspace s = true -> starts_nonspace (s ++ t) = true.
Proof. destruct s; simpl; [discriminate | auto]. Qed.

Lemma rstrip_all_space w : all_space w = true -> rstrip w = EmptyString.
Proof.
  induction w as [|c w IH]; simpl; [reflexivity|].
  intros H. apply andb_true_iff in H. destruct H as [-> H].
  rewrite (IH H). reflexivity.
Qed.

Lemma rstrip_app_space w : all_space w = true ->
  forall s, rstrip (s ++ w) = rstrip s.
Proof.
  intros Hw. induction s as [|c s IH]; simpl.
  - apply rstrip_all_space, Hw.
  - rewrite IH. reflexivity.
Qed.

Lemma rstrip_ends s : ends_nonspace s = true -> rstrip s = s.
Proof.
  induction s as [|c s IH]; simpl; [reflexivity|].
  destruct s as [|d s].
  - simpl. intros H. apply negb_true_iff in H. rewrite H. reflexivity.
  - intros H. rewrite (IH H). reflexivity.
Qed.

Lemma ends_nonspace_app s t :
  ends_nonspace t = true -> ends_nonspace (s ++ t) = true.
Proof.
  intros Ht. induction s as [|c s IH]; simpl; [assumption|].
  destruct (s ++ t)%string eqn:E; [discriminate | assumption].
Qed.

Lemma strip_padded w1 s w2 :
  all_space w1 = true -> all_space w2 = true ->
  starts_nonspace s = true -> ends_nonspace s = true ->
  strip (w1 ++ s ++ w2) = s.
Proof.
  intros H1 H2 Hs He. unfold strip.
  rewrite lstrip_all_space by assumption.
  rewrite lstrip_starts by (apply starts_nonspace_app; assumption).
  rewrite rstrip_app_space by assumption.
  apply rstrip_ends, He.
Qed.

(** *** The text of an alternative *)

Lemma plain_symbol_inv sym :
  plain_symbol sym = true ->
  exists c, sym = String c EmptyString /\ isspace c = false /\
            Ascii.eqb c "|" = false /\ Ascii.eqb c "%" = false.
Proof.
  destruct sym as [|c [|? ?]]; simpl; try discriminate.
  unfold plain_char. rewrite !andb_true_iff, !negb_true_iff.
  intros [[H1 H2] H3]. exists c. auto.
Qed.

Lemma concat_cons_cons sep x y l :
  String.concat sep (x :: y :: l)
  = (x ++ sep ++ String.concat sep (y :: l))%string.
Proof. reflexivity. Qed.

Lemma alt_text_props : forall opt,
  forallb plain_symbol opt = true -> opt <> [] ->
  guard1 "|" (String.concat " " opt) = true /\
  guard2 ";" ";" (String.concat " " opt ++ " ") = true /\
  starts_nonspace (String.concat " " opt) = true /\
  ends_nonspace (String.concat " " opt) = true /\
  tuple (String.concat " " opt) = intersperse " " opt /\
  String.eqb (String.concat " " opt) "%" = false.
Proof.
  induction opt as [|sym opt IH]; intros Hp Hne; [congruence|].
  simpl in Hp. apply andb_true_iff in Hp. destruct Hp as [Hsym Hp].
  destruct (plain_symbol_inv sym Hsym) as (c & -> & Hsp & Hbar & Hpct).
  destruct opt as [|sym2 rest].
  - simpl. rewrite Hsp, Hbar, Hpct, orb_true_r. repeat split; reflexivity.
  - destruct (IH Hp) as (G1 & G2 & S & E & T & Q); [discriminate|].
    rewrite concat_cons_cons.
    remember (String.concat " " (sym2 :: rest)) as t' eqn:Ht'.
    change (String c EmptyString ++ " " ++ t')%string
      with (String c (String " " t')).
    repeat split.
    + simpl. rewrite Hbar, G1. reflexivity.
    + simpl. rewrite G2, orb_true_r. reflexivity.
    + simpl. rewrite Hsp. reflexivity.
    + destruct t' as [|d t']; [discriminate | exact E].
    + change (intersperse " " (String c EmptyString :: sym2 :: rest))
        with (String c EmptyString :: " " :: intersperse " " (sym2 :: rest)).
      rewrite <- T. reflexivity.
    + simpl. rewrite Hpct. reflexivity.
Qed.

Lemma format_alt_props opt :
  forallb plain_symbol opt = true ->
  guard1 "|" (format_alt opt) = true /\
  guard2 ";" ";" (format_alt opt ++ " ") = true /\
  starts_nonspace (format_alt opt) = true /\
  ends_nonspace (format_alt opt) = true /\
  (if String.eqb (format_alt opt) "%" then [] else tuple (format_alt opt))
  = intersperse " " opt.
Proof.
  intros Hp. destruct opt as [|sym opt].
  - simpl. auto.
  - destruct (alt_text_props (sym :: opt) Hp) as (G1 & G2 & S & E & T & Q);
      [discriminate|].
    unfold format_alt. cbn [is_empty]. rewrite Q. auto.
Qed.

Lemma parse_option_padded w1 w2 opt :
  all_space w1 = true -> all_space w2 = true ->
  forallb plain_symbol opt = true ->
  parse_option (w1 ++ format_alt opt ++ w2) = intersperse " " opt.
Proof.
  intros H1 H2 Hp.
  destruct (format_alt_props opt Hp) as (_ & _ & S & E & T).
  unfold parse_option. rewrite strip_padded by assumption. exact T.
Qed.

(** *** The text of a right-hand side *)

Lemma alts_text_cons_cons a b rest :
  alts_text (a :: b :: rest)
  = (format_alt a ++ " | " ++ alts_text (b :: rest))%string.
Proof. reflexivity. Qed.

Lemma alts_text_props : forall alts,
  alts <> [] -> forallb (forallb plain_symbol) alts = true ->
  guard2 ";" ";" (alts_text alts ++ " ") = true /\
  starts_nonspace (alts_text alts) = true /\
  ends_nonspace (alts_text alts) = true.
Proof.
  induction alts as [|a rest IH]; intros Hne Hp; [congruence|].
  simpl in Hp. apply andb_true_iff in Hp. destruct Hp as [Ha Hp].
  destruct (format_alt_props a Ha) as (_ & G2 & S & E & _).
  destruct rest as [|b rest].
  - unfold alts_text. simpl. auto.
  - destruct (IH ltac:(discriminate) Hp) as (G2' & S' & E').
    rewrite alts_text_cons_cons.
    remember (alts_text (b :: rest)) as T' eqn:HT'.
    repeat split.
    + replace ((format_alt a ++ " | " ++ T') ++ " ")%string
        with ((format_alt a ++ " ") ++ ("| " ++ (T' ++ " ")))%string
        by (rewrite !append_assoc; reflexivity).
      apply guard2_app; [assumption|].
      apply (guard2_app ";" ";" "| "); [reflexivity | assumption].
    + apply starts_nonspace_app, S.
    + apply ends_nonspace_app. apply (ends_nonspace_app " | "). exact E'.
Qed.

Lemma prefix_nil t : prefix EmptyString t = true.
Proof. destruct t; reflexivity. Qed.

Lemma find_bar_here t :
  find "|" (String "|" t) = Some (EmptyString, t).
Proof.
  rewrite find_cons. simpl. rewrite prefix_nil. reflexivity.
Qed.

Lemma parse_alts lhs : forall alts w (rs : ruleset),
  alts <> [] -> forallb (forallb plain_symbol) alts = true ->
  w = EmptyString \/ w = " " ->
  fold_left (fun rules option => default_add lhs (parse_option option) rules)
            (split "|" (w ++ alts_text alts)) rs
  = fold_left (fun rules opt => default_add lhs (intersperse " " opt) rules)
              alts rs.
Proof.
  induction alts as [|a rest IH]; intros w rs Hne Hp Hw; [congruence|].
  simpl in Hp. apply andb_true_iff in Hp. destruct Hp as [Ha Hp].
  destruct (format_alt_props a Ha) as (G1 & _ & S & E & _).
  assert (Hws : all_space w = true) by (destruct Hw as [-> | ->]; reflexivity).
  assert (Hwg : guard1 "|" w = true) by (destruct Hw as [-> | ->]; reflexivity).
  destruct rest as [|b rest].
  - change (alts_text [a]) with (format_alt a).
    assert (Hf : find "|" (w ++ format_alt a) = None).
    { rewrite <- (append_nil_r (w ++ format_alt a)).
      rewrite find_guard1 by (apply guard1_app; assumption). reflexivity. }
    rewrite (split_None _ _ Hf). simpl.
    pose proof (parse_option_padded w EmptyString a Hws eq_refl Ha) as Hpo.
    rewrite append_nil_r in Hpo. rewrite Hpo. reflexivity.
  - rewrite alts_text_cons_cons.
    remember (alts_text (b :: rest)) as T' eqn:HT'.
    assert (Hf : find "|" (w ++ format_alt a ++ " | " ++ T')
                 = Some ((w ++ format_alt a ++ " ")%string, (" " ++ T')%string)).
    { replace (w ++ format_alt a ++ " | " ++ T')%string
        with ((w ++ format_alt a ++ " ") ++ String "|" (" " ++ T'))%string
        by (rewrite !append_assoc; reflexivity).
      rewrite find_guard1.
      - rewrite find_bar_here, append_nil_r. reflexivity.
      - apply guard1_app; [assumption|].
        apply guard1_app; [assumption | reflexivity]. }
    rewrite (split_find "|" _ _ _ ltac:(discriminate) Hf).
    cbn [fold_left].
    rewrite (parse_option_padded w " " a Hws eq_refl Ha).
    subst T'. apply IH; [discriminate | assumption | right; reflexivity].
Qed.

(** *** One record *)

Lemma prefix_cons a sep b s :
  prefix (String a sep) (String b s)
  = if Ascii.eqb a b then prefix sep s else false.
Proof.
  simpl. destruct (ascii_dec a b) as [<- | Hn].
  - rewrite Ascii.eqb_refl. reflexivity.
  - apply Ascii.eqb_neq in Hn. rewrite Hn. reflexivity.
Qed.

Lemma find_arrow c t :
  find "->" (String c (" -> " ++ t))
  = Some (String c " ", (" " ++ t)%string).
Proof.
  change (" -> " ++ t)%string
    with (String " " (String "-" (String ">" (String " " t)))).
  assert (H0 : forall x, find "->" (String "-" (String ">" x))
                         = Some (EmptyString, x)).
  { intros x. rewrite find_cons, !prefix_cons, prefix_nil. reflexivity. }
  assert (H1 : forall x, find "->" (String " " (String "-" (String ">" x)))
                         = Some (" ", x)).
  { intros x. rewrite find_cons, prefix_cons.
    change (Ascii.eqb "-" " ") with false. cbv iota. rewrite H0. reflexivity. }
  rewrite find_cons, prefix_cons.
  destruct (Ascii.eqb "-" c).
  - rewrite prefix_cons. change (Ascii.eqb ">" " ") with false. cbv iota.
    rewrite H1. reflexivity.
  - rewrite H1. reflexivity.
Qed.

Lemma plain_key_inv lhs :
  plain_key lhs = true ->
  exists c, lhs = String c EmptyString /\ isspace c = false.
Proof.
  destruct lhs as [|c [|? ?]]; simpl; try discriminate.
  rewrite negb_true_iff. eauto.
Qed.

Lemma record_parse st i ws lhs alts :
  ws = EmptyString \/ ws = newline ->
  plain_key lhs = true -> alts <> [] ->
  forallb (forallb plain_symbol) alts = true ->
  from_string_record st (i, (ws ++ lhs ++ " -> " ++ alts_text alts ++ " ")%string)
  = Return
      (fold_left (fun rules opt => default_add lhs (intersperse " " opt) rules)
                 alts (fst st),
       match snd st with None => Some lhs | Some s => Some s end).
Proof.
  intros Hws Hk Hne Hp.
  destruct (plain_key_inv lhs Hk) as (c & -> & Hc).
  destruct (alts_text_props alts Hne Hp) as (_ & S & E).
  remember (alts_text alts) as A eqn:HA.
  assert (Hline : strip (ws ++ String c EmptyString ++ " -> " ++ A ++ " ")
                  = String c (" -> " ++ A)).
  { replace (ws ++ String c EmptyString ++ " -> " ++ A ++ " ")%string
      with (ws ++ String c (" -> " ++ A) ++ " ")%string
      by (simpl; reflexivity).
    apply strip_padded.
    - destruct Hws as [-> | ->]; reflexivity.
    - reflexivity.
    - simpl. rewrite Hc. reflexivity.
    - apply (ends_nonspace_app (String c " -> ")). exact E. }
  unfold from_string_record. cbn [fst snd]. rewrite Hline.
  change (eqv (String c (" -> " ++ A)) EmptyString) with false. cbv iota.
  unfold partition. rewrite find_arrow.
  change (eqv (" " ++ A)%string EmptyString) with false. cbv iota.
  assert (Hl : strip (String c " ") = String c EmptyString).
  { apply (strip_padded EmptyString (String c EmptyString) " ");
      try reflexivity; simpl; rewrite Hc; reflexivity. }
  assert (Hr : strip (" " ++ A) = A).
  { pose proof (strip_padded " " A EmptyString eq_refl eq_refl S E) as H.
    rewrite append_nil_r in H. exact H. }
  rewrite Hl, Hr. f_equal. f_equal.
  subst A. apply (parse_alts (String c EmptyString) alts EmptyString);
    auto.
Qed.

(** *** The sequence of records *)

Lemma find_semicolons_here t :
  find ";;" (String ";" (String ";" t)) = Some (EmptyString, t).
Proof.
  rewrite find_cons. simpl. rewrite prefix_nil. reflexivity.
Qed.

(** *** [sorted] rearranges *)

Lemma insert_sorted_Permutation {A} (ltb : A -> A -> bool) x l :
  Permutation (insert_sorted ltb x l) (x :: l).
Proof.
  induction l as [|y l IH]; simpl; [reflexivity|].
  destruct (ltb x y); [reflexivity|].
  rewrite IH. apply perm_swap.
Qed.

Lemma sorted_Permutation {A} (ltb : A -> A -> bool) l :
  Permutation (sorted ltb l) l.
Proof.
  unfold sorted.
  assert (H : forall acc, Permutation
                            (fold_left (fun acc x => insert_sorted ltb x acc) l acc)
                            (l ++ acc)).
  { induction l as [|x l IH]; intros acc; simpl; [reflexivity|].
    rewrite IH, insert_sorted_Permutation. symmetry. apply Permutation_middle. }
  rewrite H, app_nil_r. reflexivity.
Qed.

Lemma sorted_In {A} (ltb : A -> A -> bool) l x :
  In x (sorted ltb l) <-> In x l.
Proof.
  split; apply Permutation_in;
    [| symmetry]; apply sorted_Permutation.
Qed.

Lemma sorted_not_nil {A} (ltb : A -> A -> bool) l :
  l <> [] -> sorted ltb l <> [].
Proof.
  intros Hl Hs. apply Hl.
  apply Permutation_nil. rewrite <- Hs. apply sorted_Permutation.
Qed.

Lemma sorted_forallb {A} (ltb : A -> A -> bool) (p : A -> bool) l :
  forallb p l = true -> forallb p (sorted ltb l) = true.
Proof.
  rewrite !forallb_forall. intros H x Hx. apply H, (sorted_In ltb), Hx.
Qed.

(** *** The sequence of records, parsed *)

Lemma canonical_rule_inv kv :
  canonical_rule kv = true ->
  plain_key (fst kv) = true /\ snd kv <> [] /\
  forallb (forallb plain_symbol) (snd kv) = true.
Proof.
  unfold canonical_rule. rewrite !andb_true_iff, negb_true_iff.
  intros [[H1 H2] H3]. repeat split; auto.
  intros E. rewrite E in H2. discriminate.
Qed.

Lemma format_text lhs rhs t :
  (format lhs rhs ++ t)%string
  = ((lhs ++ " -> " ++ alts_text (sorted alt_ltb rhs) ++ " ")
       ++ String ";" (String ";" (newline ++ t)))%string.
Proof.
  unfold format, alts_text. rewrite !append_assoc. reflexivity.
Qed.

Lemma record_guard ws lhs alts :
  ws = EmptyString \/ ws = newline ->
  plain_key lhs = true -> alts <> [] ->
  forallb (forallb plain_symbol) alts = true ->
  guard2 ";" ";" (ws ++ lhs ++ " -> " ++ alts_text alts ++ " ") = true.
Proof.
  intros Hws Hk Hne Hp.
  destruct (plain_key_inv lhs Hk) as (c & -> & Hc).
  destruct (alts_text_props alts Hne Hp) as (G & _ & _).
  apply guard2_app; [destruct Hws as [-> | ->]; reflexivity|].
  change (String c EmptyString ++ " -> " ++ alts_text alts ++ " ")%string
    with (String c " " ++ "-> " ++ alts_text alts ++ " ")%string.
  apply guard2_app.
  - simpl. rewrite orb_true_r. reflexivity.
  - apply (guard2_app ";" ";" "-> "); [reflexivity | exact G].
Qed.

Lemma records_parse : forall items ws k st,
  ws = EmptyString \/ ws = newline ->
  forallb canonical_rule items = true ->
  foldM from_string_record
        (combine (seq k (List.length (split ";;" (ws ++ records_text items))))
                 (split ";;" (ws ++ records_text items)))
        st
  = Return (fold_left add_item items st).
Proof.
  induction items as [|[lhs rhs] items IH]; intros ws k st Hws Hc.
  - simpl. rewrite append_nil_r. destruct Hws as [-> | ->]; reflexivity.
  - simpl in Hc. apply andb_true_iff in Hc. destruct Hc as [Hkv Hc].
    destruct (canonical_rule_inv _ Hkv) as (Hk & Hne & Hp). simpl in Hk, Hne, Hp.
    pose proof (sorted_not_nil alt_ltb rhs Hne) as Hne'.
    pose proof (sorted_forallb alt_ltb _ rhs Hp) as Hp'.
    cbn [records_text fold_right fst snd].
    fold (records_text items).
    rewrite format_text.
    remember (alts_text (sorted alt_ltb rhs)) as A eqn:HA.
    assert (Hf : find ";;" (ws ++ (lhs ++ " -> " ++ A ++ " ")
                               ++ String ";" (String ";" (newline ++ records_text items)))
                 = Some ((ws ++ lhs ++ " -> " ++ A ++ " ")%string,
                         (newline ++ records_text items)%string)).
    { rewrite <- append_assoc. rewrite find_guard2.
      - rewrite find_semicolons_here, append_nil_r. reflexivity.
      - subst A. apply record_guard; assumption. }
    rewrite (split_find ";;" _ _ _ ltac:(discriminate) Hf).
    cbn [List.length seq combine foldM].
    subst A. rewrite record_parse by assumption. cbn [bind].
    apply (IH newline (S k)); [right; reflexivity | assumption].
Qed.

(** *** The text [to_string] writes *)

Lemma to_string_fold st : forall (l : list (string * list (list string))) init,
  fold_left (fun s kv =>
               if negb (eqv (fst kv) st)
               then (s ++ format (fst kv) (snd kv))%string else s) l init
  = (init ++ records_text (filter (fun kv => negb (eqv (fst kv) st)) l))%string.
Proof.
  induction l as [|kv l IH]; intros init; simpl.
  - rewrite append_nil_r. reflexivity.
  - destruct (negb (eqv (fst kv) st)); simpl; rewrite IH.
    + rewrite append_assoc. reflexivity.
    + reflexivity.
Qed.

Lemma to_string_text g rhs0 :
  PyDict.get (start g) (rules g) = Some rhs0 ->
  to_string g = Return (records_text (items_of g rhs0)).
Proof.
  intros Hg. unfold to_string, PyDict.getitem. rewrite Hg. cbn [bind].
  rewrite to_string_fold. reflexivity.
Qed.

(** *** The dictionary [from_string] builds *)

Lemma replace_app_new {V} k (v : V) (d1 d2 : PyDict.dict V) :
  ~ In k (PyDict.keys d1) ->
  PyDict.replace k v (d1 ++ d2) = d1 ++ PyDict.replace k v d2.
Proof.
  induction d1 as [|[k' v'] d1 IH]; simpl; intros Hk; [reflexivity|].
  destruct (eqv k k') eqn:E.
  - apply eqv_iff in E. exfalso. apply Hk. left. symmetry. exact E.
  - rewrite IH by tauto. reflexivity.
Qed.

Lemma default_add_new lhs x (rs : ruleset) :
  ~ In lhs (PyDict.keys rs) -> default_add lhs x rs = rs ++ [(lhs, [x])].
Proof.
  intros Hk. unfold default_add. apply get_None in Hk. rewrite Hk. reflexivity.
Qed.

Lemma default_add_last lhs x (rs : ruleset) s :
  ~ In lhs (PyDict.keys rs) ->
  default_add lhs x (rs ++ [(lhs, s)]) = rs ++ [(lhs, PySet.add x s)].
Proof.
  intros Hk. unfold default_add. rewrite get_app.
  pose proof Hk as Hn. apply get_None in Hn. rewrite Hn. simpl.
  rewrite eqv_refl. rewrite replace_app_new by assumption.
  simpl. rewrite eqv_refl. reflexivity.
Qed.

Lemma default_add_fold lhs (f : list string -> list string) alts (rs : ruleset) :
  ~ In lhs (PyDict.keys rs) -> alts <> [] ->
  fold_left (fun r opt => default_add lhs (f opt) r) alts rs
  = rs ++ [(lhs, PySet.of_list (map f alts))].
Proof.
  intros Hk Hne. destruct alts as [|a rest]; [congruence|].
  cbn [fold_left]. rewrite default_add_new by assumption.
  assert (H : forall rest s,
             fold_left (fun r opt => default_add lhs (f opt) r) rest
                       (rs ++ [(lhs, s)])
             = rs ++ [(lhs, fold_left (fun acc x => PySet.add x acc)
                                      (map f rest) s)]).
  { clear rest Hne. induction rest as [|b rest IH]; intros s; simpl;
      [reflexivity|].
    rewrite default_add_last by assumption. apply IH. }
  rewrite H. reflexivity.
Qed.

Lemma add_items_rules : forall items (rs : ruleset) st0,
  NoDup (PyDict.keys rs ++ map fst items) ->
  (forall kv, In kv items -> snd kv <> []) ->
  fst (fold_left add_item items (rs, st0)) = rs ++ map spaced_item items.
Proof.
  induction items as [|kv items IH]; intros rs st0 Hnd Hne; simpl.
  - rewrite app_nil_r. reflexivity.
  - unfold add_item at 2. cbn [fst snd].
    rewrite default_add_fold.
    + rewrite IH.
      * rewrite <- app_assoc. reflexivity.
      * rewrite keys_app, <- app_assoc. exact Hnd.
      * intros kv' Hkv'. apply Hne. right; assumption.
    + intros Hin. apply NoDup_remove_2 in Hnd. apply Hnd.
      apply in_or_app. left; assumption.
    + apply sorted_not_nil, Hne. left; reflexivity.
Qed.

Lemma add_items_start_Some : forall items (rs : ruleset) s,
  snd (fold_left add_item items (rs, Some s)) = Some s.
Proof.
  induction items as [|kv items IH]; intros rs s; simpl; [reflexivity|].
  unfold add_item at 2. cbn [fst snd]. apply IH.
Qed.

Lemma add_items_start kv items (rs : ruleset) :
  snd (fold_left add_item (kv :: items) (rs, None)) = Some (fst kv).
Proof.
  simpl. unfold add_item at 2. cbn [fst snd]. apply add_items_start_Some.
Qed.

Lemma get_map_values {V W} (F : V -> W) (d : PyDict.dict V) k :
  PyDict.get k (map (fun kv => (fst kv, F (snd kv))) d)
  = option_map F (PyDict.get k d).
Proof.
  induction d as [|[k' v'] d IH]; simpl; [reflexivity|].
  destruct (eqv k k'); [reflexivity | exact IH].
Qed.

Lemma get_filter_other {V} (d : PyDict.dict V) k st :
  k <> st ->
  PyDict.get k (filter (fun kv => negb (eqv (fst kv) st)) d) = PyDict.get k d.
Proof.
  intros Hn. induction d as [|[k0 v0] d IH]; simpl; [reflexivity|].
  destruct (eqv k0 st) eqn:E; simpl.
  - apply eqv_iff in E. subst k0.
    apply eqv_false in Hn. rewrite Hn. exact IH.
  - destruct (eqv k k0); [reflexivity | exact IH].
Qed.

Lemma get_Permutation {V} (d d' : PyDict.dict V) k :
  Permutation d d' -> NoDup (PyDict.keys d) ->
  PyDict.get k d' = PyDict.get k d.
Proof.
  intros Hp Hnd.
  assert (Hnd' : NoDup (PyDict.keys d')).
  { eapply Permutation_NoDup; [|exact Hnd]. apply Permutation_map, Hp. }
  destruct (PyDict.get k d) as [v|] eqn:E.
  - apply In_get; [assumption|].
    eapply Permutation_in; [exact Hp|]. apply get_Some_In, E.
  - apply get_None. apply get_None in E. intros Hin. apply E.
    eapply Permutation_in; [|exact Hin].
    apply Permutation_map. symmetry. exact Hp.
Qed.

Lemma keys_filter_incl {V} (p : string * V -> bool) (d : PyDict.dict V) :
  incl (PyDict.keys (filter p d)) (PyDict.keys d).
Proof.
  intros k Hk. apply in_map_iff in Hk. destruct Hk as (kv & <- & Hin).
  apply filter_In in Hin. apply in_map. tauto.
Qed.

Lemma NoDup_keys_filter {V} (p : string * V -> bool) (d : PyDict.dict V) :
  NoDup (PyDict.keys d) -> NoDup (PyDict.keys (filter p d)).
Proof.
  induction d as [|kv d IH]; simpl; intros Hnd; [constructor|].
  inversion Hnd as [|? ? Hk Hnd']; subst.
  destruct (p kv); simpl; [|auto].
  constructor; [|auto]. intros Hin. apply Hk.
  apply (keys_filter_incl p d). exact Hin.
Qed.

Lemma items_of_get g rhs0 k :
  NoDup (nonterminals g) ->
  PyDict.get (start g) (rules g) = Some rhs0 ->
  PyDict.get k (items_of g rhs0) = PyDict.get k (rules g).
Proof.
  intros Hnd Hs. unfold items_of. simpl.
  destruct (eqv k (start g)) eqn:E.
  - apply eqv_iff in E. subst k. symmetry. exact Hs.
  - apply eqv_false in E. rewrite get_filter_other by assumption.
    apply get_Permutation; [|exact Hnd].
    symmetry. apply sorted_Permutation.
Qed.

Lemma items_of_NoDup g rhs0 :
  NoDup (nonterminals g) -> NoDup (map fst (items_of g rhs0)).
Proof.
  intros Hnd. unfold items_of. simpl. constructor.
  - intros Hin. apply in_map_iff in Hin. destruct Hin as (kv & Hk & Hin).
    apply filter_In in Hin. destruct Hin as [_ Hne].
    apply negb_true_iff, eqv_false in Hne. congruence.
  - apply (NoDup_keys_filter _ (sorted item_ltb (rules g))).
    eapply Permutation_NoDup; [|exact Hnd].
    apply Permutation_map. symmetry. apply sorted_Permutation.
Qed.

Lemma items_of_In g rhs0 kv :
  PyDict.get (start g) (rules g) = Some rhs0 ->
  In kv (items_of g rhs0) -> In kv (rules g).
Proof.
  intros Hs [<- | Hin].
  - apply get_Some_In, Hs.
  - apply filter_In in Hin. destruct Hin as [Hin _].
    apply (sorted_In item_ltb (rules g) kv). exact Hin.
Qed.

(** *** Parsing what was written *)

Lemma spaced_set_In rhs opt' :
  In opt' (spaced_set rhs) <->
  exists opt, In opt rhs /\ opt' = intersperse " " opt.
Proof.
  unfold spaced_set. rewrite of_list_In, in_map_iff. split.
  - intros (opt & <- & Hin). exists opt. split; [|reflexivity].
    apply (sorted_In alt_ltb rhs opt), Hin.
  - intros (opt & Hin & ->). exists opt. split; [reflexivity|].
    apply (sorted_In alt_ltb rhs opt), Hin.
Qed.

Lemma intersperse_short {A} (sep : A) l :
  List.length l <= 1 -> intersperse sep l = l.
Proof.
  destruct l as [|x [|y l]]; simpl; intros H; try reflexivity. lia.
Qed.

Lemma from_string_to_string_rules g :
  canonical g ->
  exists s g',
    to_string g = Return s /\ from_string s = Return g' /\
    start g' = start g /\
    forall k, PyDict.get k (rules g')
              = option_map spaced_set (PyDict.get k (rules g)).
Proof.
  intros [(Hnd & Hstart & Hrhs) Hcan].
  destruct (key_get _ _ Hstart) as [rhs0 Hrhs0].
  exists (records_text (items_of g rhs0)).
  assert (Hitems : forallb canonical_rule (items_of g rhs0) = true).
  { apply forallb_forall. intros kv Hkv.
    apply (items_of_In g rhs0 kv Hrhs0) in Hkv.
    rewrite forallb_forall in Hcan. apply Hcan, Hkv. }
  pose proof (records_parse (items_of g rhs0) EmptyString 0 ([], None)
                            (or_introl eq_refl) Hitems) as Hparse.
  change (EmptyString ++ records_text (items_of g rhs0))%string
    with (records_text (items_of g rhs0)) in Hparse.
  assert (Hfst : fst (fold_left add_item (items_of g rhs0) ([], None))
                 = map spaced_item (items_of g rhs0)).
  { apply (add_items_rules (items_of g rhs0) [] None).
    - simpl. apply (items_of_NoDup g rhs0 Hnd).
    - intros kv Hkv. rewrite forallb_forall in Hitems.
      apply (canonical_rule_inv kv (Hitems kv Hkv)). }
  assert (Hsnd : snd (fold_left add_item (items_of g rhs0) ([], None))
                 = Some (start g)).
  { unfold items_of. apply add_items_start. }
  assert (Hget : forall k,
             PyDict.get k (map spaced_item (items_of g rhs0))
             = option_map spaced_set (PyDict.get k (rules g))).
  { intros k. unfold spaced_item. rewrite get_map_values.
    rewrite items_of_get by assumption. reflexivity. }
  destruct (Grammar_init_Return (map spaced_item (items_of g rhs0)) (start g))
    as (rs & Hrs & Hinit).
  { eapply get_Some_key. rewrite Hget, Hrhs0. reflexivity. }
  eexists. split; [apply to_string_text, Hrhs0|].
  split.
  { unfold from_string, enumerate. rewrite Hparse. cbn [bind].
    rewrite Hsnd, Hfst. exact Hinit. }
  split; [reflexivity|].
  intros k. destruct (Grammar_init_inv _ _ _ Hinit) as (_ & _ & Hg & _).
  rewrite Hg. apply Hget.
Qed.

(** C7, amended. For a grammar whose keys are single characters other
    than whitespace, whose symbols are single characters other than
    whitespace, [|] and [%], and whose rules all have an alternative,
    [to_string] returns a text and [from_string] parses it into a
    grammar with the same start symbol and the same keys, in which every
    alternative [(s1, ..., sn)] has become [(s1, ' ', s2, ' ', ..., sn)];
    when no alternative has more than one symbol, the parsed grammar is
    structurally equal to the grammar written. *)
Theorem from_string_to_string (g : Grammar) :
  canonical g ->
  exists s g',
    to_string g = Return s /\ from_string s = Return g' /\
    start g' = start g /\
    spaced_rules (rules g) (rules g') /\
    ((forall lhs rhs opt,
         In (lhs, rhs) (rules g) -> In opt rhs -> List.length opt <= 1) ->
     grammar_equal g' g).
Proof.
  intros Hcan.
  destruct (from_string_to_string_rules g Hcan) as (s & g' & Hs & Hg' & Hst & Hget).
  exists s, g'. repeat split; try assumption.
  - intros lhs. rewrite Hget.
    destruct (PyDict.get lhs (rules g)) as [rhs|]; simpl; [|exact I].
    intros opt'. apply spaced_set_In.
  - intros lhs. rewrite Hget.
    destruct (PyDict.get lhs (rules g)) as [rhs|] eqn:E; simpl; [|exact I].
    intros opt. rewrite spaced_set_In. split.
    + intros (opt0 & Hin & ->). rewrite intersperse_short; [assumption|].
      apply (H lhs rhs opt0); [apply get_Some_In, E | assumption].
    + intros Hin. exists opt. split; [assumption|].
      symmetry. apply intersperse_short.
      apply (H lhs rhs opt); [apply get_Some_In, E | assumption].
Qed.

Lemma from_string_to_string_witness :
  let g := mkGrammar [("S", [["a"; "S"; "b"]; []]); ("A", [["a"]])] "S" in
  exists s g',
    to_string g = Return s /\ from_string s = Return g' /\
    start g' = start g /\
    spaced_rules (rules g) (rules g') /\
    ((forall lhs rhs opt,
         In (lhs, rhs) (rules g) -> In opt rhs -> List.length opt <= 1) ->
     grammar_equal g' g).
Proof.
  intros g. apply (from_string_to_string g).
  split; [concrete_well_formed | reflexivity].
Defined.

(** The grammar [S -> a b] is written as [S -> a b ;;] and read back as
    the grammar whose one alternative has the three symbols [a], space
    and [b]. *)
Lemma from_string_to_string_counterexample :
  let g := mkGrammar [("S", [["a"; "b"]])] "S" in
  canonical g /\
  exists s g',
    to_string g = Return s /\ from_string s = Return g' /\
    rules g' = [("S", [["a"; " "; "b"]])] /\
    ~ grammar_equal g' g.
Proof.
  intros g. split; [split; [concrete_well_formed | reflexivity]|].
  eexists. eexists. split; [reflexivity|]. split; [reflexivity|].
  split; [reflexivity|].
  intros [_ Hr]. specialize (Hr "S"). simpl in Hr.
  destruct (Hr ["a"; "b"]) as [_ H].
  destruct H as [H | []]; [left; reflexivity | discriminate].
Qed.

(** * Further properties of the code *)

(** ** What a finished loop returns *)

Lemma while_changed_exit {A} `{EqType A} (pass : list A -> outcome (list A)) :
  forall fuel old new r,
    pass old = Return new ->
    while_changed pass fuel old new = Return r ->
    exists new', pass r = Return new' /\ forall x, In x new' <-> In x r.
Proof.
  induction fuel as [|fuel IH]; intros old new r Hp; simpl;
    destruct (PySet.equal new old) eqn:E; try discriminate.
  - intros [= <-]. exists new. split; [assumption | apply equal_iff, E].
  - intros [= <-]. exists new. split; [assumption | apply equal_iff, E].
  - destruct (pass new) as [s'| |] eqn:Ep; simpl; try discriminate.
    apply (IH new s' r Ep).
Qed.

(** ** [_nullable_nonterminals] computes the nullable nonterminals *)

Lemma nullable_pass_sound r : forall s,
  (forall x, In x s -> Nullable r x) ->
  forall x, In x (nullable_pass r s) -> Nullable r x.
Proof.
  unfold nullable_pass.
  assert (H : forall l s, incl l r ->
             (forall x, In x s -> Nullable r x) ->
             forall x,
               In x (fold_left
                       (fun acc kv =>
                          if existsb (fun opt => stringof opt acc) (snd kv)
                          then PySet.add (fst kv) acc else acc) l s) ->
               Nullable r x).
  { induction l as [|[lhs rhs] l IH]; intros s Hl Hs x; simpl; [apply Hs|].
    apply IH; [intros kv Hkv; apply Hl; right; exact Hkv|].
    intros y Hy.
    destruct (existsb (fun opt => stringof opt s) rhs) eqn:E; [|apply Hs, Hy].
    apply add_In in Hy. destruct Hy as [-> | Hy]; [|apply Hs, Hy].
    apply existsb_exists in E. destruct E as (opt & Hopt & Hstr).
    apply (Nullable_rule r lhs rhs opt); [apply Hl; left; reflexivity | exact Hopt |].
    intros sym Hsym. apply Hs, mem_In.
    unfold stringof in Hstr. rewrite forallb_forall in Hstr. apply Hstr, Hsym. }
  intros s. apply H, incl_refl.
Qed.

Lemma nullable_pass_closed r lhs rhs opt : forall s,
  In (lhs, rhs) r -> In opt rhs -> (forall sym, In sym opt -> In sym s) ->
  In lhs (nullable_pass r s).
Proof.
  unfold nullable_pass. induction r as [|kv r IH]; intros s Hkv Hopt Hs;
    [destruct Hkv|].
  simpl. destruct Hkv as [-> | Hkv].
  - simpl.
    assert (E : existsb (fun o => stringof o s) rhs = true).
    { apply existsb_exists. exists opt. split; [exact Hopt|].
      apply forallb_forall. intros sym Hsym. apply mem_In, Hs, Hsym. }
    rewrite E.
    apply (grows_fold_left
             (fun _ : string => True)
             (fun acc kv0 =>
                if existsb (fun o => stringof o acc) (snd kv0)
                then PySet.add (fst kv0) acc else acc) r).
    + intros acc b _. destruct (existsb _ (snd b));
        [apply grows_add; exact I | apply grows_refl].
    + apply add_In. left; reflexivity.
  - apply IH; [exact Hkv | exact Hopt |].
    intros sym Hsym.
    destruct (existsb (fun o => stringof o s) (snd kv));
      [apply add_In; right|]; apply Hs, Hsym.
Qed.

(** X1. [_nullable_nonterminals] returns, for every grammar, and the set
    it returns holds exactly the nonterminals that derive the empty
    string. *)
Theorem nullable_nonterminals_correct (g : Grammar) :
  exists nullable,
    _nullable_nonterminals g = Return nullable /\
    forall X, In X nullable <-> Nullable (rules g) X.
Proof.
  destruct (nullable_nonterminals_returns g) as [nullable Hn].
  exists nullable. split; [exact Hn|].
  unfold _nullable_nonterminals in Hn. rewrite while_changed_S in Hn.
  destruct (PySet.equal [] (direct_nullable (rules g))) eqn:E.
  - injection Hn as <-.
    assert (Hd : forall x, ~ In x (direct_nullable (rules g))).
    { intros x Hx. rewrite equal_iff in E. apply (E x) in Hx. exact Hx. }
    intros X. split; [intros HX; destruct (Hd X HX)|].
    induction 1 as [lhs rhs opt Hkv Hopt _ IH].
    destruct opt as [|sym opt];
      [|exfalso; apply (Hd sym), IH; left; reflexivity].
    unfold direct_nullable. apply of_list_In.
    apply in_map_iff. exists (lhs, rhs). split; [reflexivity|].
    apply filter_In. split; [exact Hkv|]. simpl.
    apply existsb_exists. exists []. auto.
  - cbn [bind] in Hn.
    destruct (while_changed_invariant
                (fun new => Return (nullable_pass (rules g) new))
                (fun s => forall x, In x s -> Nullable (rules g) x)) with
        (fuel := S (List.length (rules g)))
        (old := @nil string) (new := nullable_pass (rules g) [])
        (r := nullable) as (s & Hs & Hrs).
    + intros s s' Hs [= <-]. apply nullable_pass_sound, Hs.
    + apply nullable_pass_sound. intros x [].
    + exact Hn.
    + destruct (while_changed_exit
                  (fun new => Return (nullable_pass (rules g) new))
                  _ _ _ _ eq_refl Hn) as (new' & Hnew' & Hiff).
      injection Hnew' as <-.
      intros X. split; [intros HX; apply Hs, Hrs, HX|].
      induction 1 as [lhs rhs opt Hkv Hopt _ IH].
      apply Hiff. eapply nullable_pass_closed; eassumption.
Qed.


(** ** [_unit_pairs] computes the transitive closure of the unit rules *)

Lemma fold_left_incl {A B} `{EqType A} (f : list A -> B -> list A) (l : list B) :
  (forall acc b, incl acc (f acc b)) ->
  forall acc, incl acc (fold_left f l acc).
Proof.
  intros Hf. induction l as [|b l IH]; intros acc; simpl; [apply incl_refl|].
  eapply incl_tran; [apply Hf | apply IH].
Qed.

Lemma unit_pairs_inner_incl (xy : string * string)
      (l acc : list (string * string)) :
  incl acc
       (fold_left (fun acc yz =>
                     if eqv (snd xy) (fst yz)
                     then PySet.add (fst xy, snd yz) acc else acc) l acc).
Proof.
  apply fold_left_incl. intros a b x Hx.
  destruct (eqv (snd xy) (fst b)); [apply add_In; right|]; exact Hx.
Qed.

Lemma unit_pairs_fold_closed (outer inner : list (string * string))
      (x y z : string) :
  In (x, y) outer -> In (y, z) inner ->
  forall acc,
    In (x, z)
       (fold_left
          (fun acc xy =>
             fold_left (fun acc yz =>
                          if eqv (snd xy) (fst yz)
                          then PySet.add (fst xy, snd yz) acc else acc)
                       inner acc) outer acc).
Proof.
  intros Hxy Hyz.
  induction outer as [|p outer IH]; intros acc; [destruct Hxy|].
  simpl. destruct Hxy as [-> | Hxy]; [|apply IH, Hxy].
  apply (fold_left_incl
           (fun acc xy =>
              fold_left (fun acc yz =>
                           if eqv (snd xy) (fst yz)
                           then PySet.add (fst xy, snd yz) acc else acc)
                        inner acc) outer).
  { intros a b. apply unit_pairs_inner_incl. }
  clear IH. revert acc. induction inner as [|q inner IHi]; intros acc;
    [destruct Hyz|].
  simpl. destruct Hyz as [-> | Hyz]; [|apply IHi, Hyz].
  simpl. rewrite eqv_refl. apply (unit_pairs_inner_incl (x, y)).
  apply add_In. left; reflexivity.
Qed.

Lemma unit_pairs_pass_closed s x y z :
  In (x, y) s -> In (y, z) s -> In (x, z) (unit_pairs_pass s).
Proof.
  intros Hxy Hyz. unfold unit_pairs_pass.
  apply unit_pairs_fold_closed with (y := y); assumption.
Qed.

Lemma unit_pairs_pass_sound g s :
  (forall p, In p s -> clos_trans string (unit_step g) (fst p) (snd p)) ->
  forall p, In p (unit_pairs_pass s) ->
            clos_trans string (unit_step g) (fst p) (snd p).
Proof.
  intros Hs. unfold unit_pairs_pass.
  assert (H : forall outer inner acc,
             incl outer s -> incl inner s ->
             (forall p, In p acc -> clos_trans string (unit_step g) (fst p) (snd p)) ->
             forall p,
               In p (fold_left
                       (fun acc xy =>
                          fold_left (fun acc yz =>
                                       if eqv (snd xy) (fst yz)
                                       then PySet.add (fst xy, snd yz) acc
                                       else acc) inner acc) outer acc) ->
               clos_trans string (unit_step g) (fst p) (snd p)).
  { induction outer as [|xy outer IH]; intros inner acc Ho Hi Hacc p; simpl;
      [apply Hacc|].
    apply IH; [intros q Hq; apply Ho; right; exact Hq | exact Hi |].
    assert (Hxy : In xy s) by (apply Ho; left; reflexivity).
    clear IH Ho. revert acc Hacc.
    induction inner as [|yz inner IHi]; intros acc Hacc q; simpl;
      [apply Hacc|].
    apply IHi; [intros q' Hq'; apply Hi; right; exact Hq'|].
    intros q' Hq'. destruct (eqv (snd xy) (fst yz)) eqn:E; [|apply Hacc, Hq'].
    apply add_In in Hq'. destruct Hq' as [-> | Hq']; [|apply Hacc, Hq'].
    simpl. apply eqv_iff in E.
    apply t_trans with (y := snd xy); [apply Hs, Hxy|].
    rewrite E. apply Hs, Hi. left; reflexivity. }
  apply H; [apply incl_refl | apply incl_refl | exact Hs].
Qed.

(** X2. [_unit_pairs] returns, for every grammar, and the set it returns
    holds exactly the pairs [(X, Y)] of nonterminals such that [Y] is
    reached from [X] by one or more unit rules. *)
Theorem unit_pairs_correct (g : Grammar) :
  exists unit_pairs,
    _unit_pairs g = Return unit_pairs /\
    forall X Y, In (X, Y) unit_pairs <-> clos_trans string (unit_step g) X Y.
Proof.
  destruct (unit_pairs_returns g) as (ups & Hups & Hdirect & _).
  exists ups. split; [exact Hups|].
  assert (Hstep : forall X Y, unit_step g X Y <-> In (X, Y) (direct_unit_pairs g)).
  { intros X Y. symmetry. apply direct_unit_pairs_In. }
  unfold _unit_pairs in Hups. rewrite while_changed_S in Hups.
  destruct (PySet.equal (direct_unit_pairs g) []) eqn:E.
  - injection Hups as <-. rewrite equal_iff in E.
    intros X Y. split; [intros []|].
    induction 1 as [x y Hxy | x y z _ IH _ _]; [|exact IH].
    apply Hstep, E in Hxy. exact Hxy.
  - cbn [bind] in Hups.
    destruct (while_changed_invariant
                (fun new => Return (unit_pairs_pass new))
                (fun s => forall p, In p s ->
                                    clos_trans string (unit_step g) (fst p) (snd p)))
      with (fuel := List.length (rules g) * List.length (rules g))
           (old := direct_unit_pairs g)
           (new := unit_pairs_pass (direct_unit_pairs g)) (r := ups)
      as (s & Hs & Hrs).
    + intros s s' Hs [= <-]. apply unit_pairs_pass_sound, Hs.
    + apply unit_pairs_pass_sound. intros [x y] Hp. apply t_step, Hstep, Hp.
    + exact Hups.
    + destruct (while_changed_exit
                  (fun new => Return (unit_pairs_pass new))
                  _ _ _ _ eq_refl Hups) as (new' & Hnew' & Hiff).
      injection Hnew' as <-.
      intros X Y. split.
      * intros HXY. apply Hrs in HXY. apply (Hs (X, Y) HXY).
      * induction 1 as [x y Hxy | x y z _ IH1 _ IH2].
        -- apply Hdirect, Hstep, Hxy.
        -- apply Hiff. eapply unit_pairs_pass_closed; eassumption.
Qed.

(** ** [_reachable_symbols] computes the reachable symbols *)

Lemma reachable_pass_sound g s s' :
  (forall x, In x s -> Reachable g x) ->
  reachable_pass (rules g) s = Return s' ->
  forall x, In x s' -> Reachable g x.
Proof.
  intros Hs. unfold reachable_pass.
  assert (H : forall l acc,
             (forall x, In x l -> Reachable g x) ->
             (forall x, In x acc -> Reachable g x) ->
             foldM (fun acc X =>
                      if PyDict.has X (rules g) then
                        rhs <- PyDict.getitem X (rules g) ;;
                        Return (fold_left (fun acc opt => PySet.update acc opt)
                                          rhs acc)
                      else Return acc) l acc = Return s' ->
             forall x, In x s' -> Reachable g x).
  { induction l as [|X l IH]; intros acc Hl Hacc; simpl.
    - intros [= <-]. exact Hacc.
    - destruct (PyDict.has X (rules g)); cbn [bind].
      + unfold PyDict.getitem.
        destruct (PyDict.get X (rules g)) as [rhs|] eqn:E; cbn [bind];
          [|discriminate].
        apply IH; [intros x Hx; apply Hl; right; exact Hx|].
        assert (Hf : forall opts acc0,
                   incl opts rhs ->
                   (forall x, In x acc0 -> Reachable g x) ->
                   forall x,
                     In x (fold_left (fun acc opt => PySet.update acc opt)
                                     opts acc0) -> Reachable g x).
        { induction opts as [|opt opts IHo]; intros acc0 Ho Hacc0 x; simpl;
            [apply Hacc0|].
          apply IHo; [intros o Hin; apply Ho; right; exact Hin|].
          intros y Hy. apply update_In in Hy. destruct Hy as [Hy | Hy];
            [apply Hacc0, Hy|].
          apply (Reachable_step g X rhs opt y); auto.
          - apply Hl. left; reflexivity.
          - apply Ho. left; reflexivity. }
        apply Hf; [apply incl_refl | exact Hacc].
      + apply IH; [intros x Hx; apply Hl; right; exact Hx | exact Hacc]. }
  apply H; assumption.
Qed.

Lemma update_fold_incl (rhs : list (list string)) acc :
  incl acc (fold_left (fun acc opt => PySet.update acc opt) rhs acc).
Proof.
  apply fold_left_incl. intros a b x Hx. apply update_In. left; exact Hx.
Qed.

Lemma update_fold_In (rhs : list (list string)) opt sym : forall acc,
  In opt rhs -> In sym opt ->
  In sym (fold_left (fun acc opt => PySet.update acc opt) rhs acc).
Proof.
  induction rhs as [|o rhs IH]; intros acc Hopt Hsym; [destruct Hopt|].
  simpl. destruct Hopt as [-> | Hopt]; [|apply IH; assumption].
  apply update_fold_incl. apply update_In. right; exact Hsym.
Qed.

Lemma foldM_preserves {A S} (I : S -> Prop) (body : S -> A -> outcome S)
      (l : list A) :
  (forall s x s', I s -> body s x = Return s' -> I s') ->
  forall s s', I s -> foldM body l s = Return s' -> I s'.
Proof.
  intros Hb. induction l as [|x l IH]; intros s s' Hs; simpl.
  - intros [= <-]. exact Hs.
  - destruct (body s x) as [s1| |] eqn:E; cbn [bind]; try discriminate.
    apply IH. eapply Hb; eassumption.
Qed.

Lemma reachable_pass_closed (r : ruleset) s s' X rhs opt sym :
  reachable_pass r s = Return s' ->
  In X s -> PyDict.get X r = Some rhs -> In opt rhs -> In sym opt ->
  In sym s'.
Proof.
  unfold reachable_pass. intros Hf HX Hget Hopt Hsym.
  assert (H : forall l acc,
             In X l ->
             foldM (fun acc X0 =>
                      if PyDict.has X0 r then
                        rhs0 <- PyDict.getitem X0 r ;;
                        Return (fold_left (fun acc opt => PySet.update acc opt)
                                          rhs0 acc)
                      else Return acc) l acc = Return s' ->
             In sym s').
  { clear Hf HX. induction l as [|Y l IH]; intros acc HX; [destruct HX|].
    simpl. destruct HX as [-> | HX].
    - assert (Hh : PyDict.has X r = true)
        by (apply has_In; eapply get_Some_key, Hget).
      rewrite Hh. unfold PyDict.getitem at 1. rewrite Hget. cbn [bind].
      apply (foldM_preserves (fun a => In sym a)).
      + intros a Z a' Ha Hb. destruct (PyDict.has Z r);
          [|injection Hb as <-; exact Ha].
        unfold PyDict.getitem in Hb. destruct (PyDict.get Z r);
          cbn [bind] in Hb; [|discriminate].
        injection Hb as <-. apply update_fold_incl, Ha.
      + apply update_fold_In with (opt := opt); assumption.
    - destruct (PyDict.has Y r); cbn [bind]; [|apply IH, HX].
      unfold PyDict.getitem at 1. destruct (PyDict.get Y r); cbn [bind];
        [apply IH, HX | discriminate]. }
  apply (H s s HX Hf).
Qed.

(** What the loop of [_reachable_symbols] has reached when it ends: the
    start symbol, only reachable symbols, and with a key the symbols of
    its alternatives. *)
Lemma reachable_symbols_exit (g : Grammar) (reach : list string) :
  _reachable_symbols g = Return reach ->
  In (start g) reach /\
  (forall x, In x reach -> Reachable g x) /\
  (forall X rhs opt sym,
      In X reach -> PyDict.get X (rules g) = Some rhs ->
      In opt rhs -> In sym opt -> In sym reach).
Proof.
  intros Hr.
  unfold _reachable_symbols in Hr. rewrite while_changed_S in Hr.
  change (PySet.equal (PySet.of_list [start g]) []) with false in Hr.
  cbv iota in Hr.
  destruct (reachable_pass (rules g) (PySet.of_list [start g]))
    as [s1| |] eqn:E1; cbn [bind] in Hr; try discriminate.
  assert (Hstart : forall x, In x (PySet.of_list [start g]) -> Reachable g x).
  { intros x Hx. apply of_list_In in Hx. destruct Hx as [<- | []].
    apply Reachable_start. }
  destruct (while_changed_invariant
              (reachable_pass (rules g))
              (fun s => (forall x, In x s -> Reachable g x) /\ In (start g) s))
    with (fuel := S (List.length (rhs_symbols (rules g))))
         (old := PySet.of_list [start g]) (new := s1) (r := reach)
    as (s & [Hs Hst] & Hrs).
  - intros s s' [Hs Hst] Hp. split.
    + eapply reachable_pass_sound; eassumption.
    + destruct (reachable_pass_grows (rules g) s) as (s2 & Hs2 & _ & I & _).
      rewrite Hp in Hs2. injection Hs2 as <-. apply I, Hst.
  - split.
    + eapply reachable_pass_sound; eassumption.
    + destruct (reachable_pass_grows (rules g) (PySet.of_list [start g]))
        as (s2 & Hs2 & _ & I & _).
      rewrite E1 in Hs2. injection Hs2 as <-.
      apply I, of_list_In. left; reflexivity.
  - exact Hr.
  - destruct (while_changed_exit (reachable_pass (rules g)) _ _ _ _ E1 Hr)
      as (new' & Hnew' & Hiff).
    split; [apply Hrs, Hst|]. split; [intros x Hx; apply Hs, Hrs, Hx|].
    intros X rhs opt sym HX Hget Hopt Hsym.
    apply Hiff. eapply reachable_pass_closed; eassumption.
Qed.

(** X3. [_reachable_symbols] returns, for every grammar, and the set it
    returns holds exactly the symbols reached from the start symbol
    through the alternatives of the rules. *)
Theorem reachable_symbols_correct (g : Grammar) :
  exists reachable,
    _reachable_symbols g = Return reachable /\
    forall X, In X reachable <-> Reachable g X.
Proof.
  destruct (reachable_symbols_returns g) as [reach Hr].
  exists reach. split; [exact Hr|].
  destruct (reachable_symbols_exit g reach Hr) as (Hst & Hsound & Hclosed).
  intros X. split; [apply Hsound|].
  induction 1 as [|X rhs opt sym _ IH Hget Hopt Hsym].
  - exact Hst.
  - eapply Hclosed; eassumption.
Qed.

(** ** The constructor *)

Lemma remove_Permutation {V} (d : PyDict.dict V) k v :
  NoDup (PyDict.keys d) -> PyDict.get k d = Some v ->
  Permutation ((k, v) :: PyDict.remove k d) d.
Proof.
  induction d as [|[k' v'] d IH]; simpl; intros Hnd; [discriminate|].
  inversion Hnd as [|? ? Hk' Hnd']; subst.
  unfold PyDict.remove. simpl. destruct (eqv k k') eqn:E.
  - apply eqv_iff in E. subst k'. intros [= ->]. simpl.
    apply perm_skip.
    assert (Hf : filter (fun kv : string * V => negb (eqv k (fst kv))) d = d).
    { apply forallb_filter_id. apply forallb_forall. intros [k0 v0] Hin. simpl.
      apply negb_true_iff, eqv_false. intros ->. apply Hk'.
      apply (in_map fst) in Hin. exact Hin. }
    rewrite Hf. reflexivity.
  - intros Hg. simpl. rewrite perm_swap. apply perm_skip. apply IH; assumption.
Qed.

(** X5. [Grammar.__init__] raises [KeyError] exactly when the start
    symbol is no key of the rules; otherwise the grammar it builds has
    the start rule first and holds the bindings given, each once. *)
Theorem Grammar_init_spec (r : ruleset) (s : string) :
  NoDup (PyDict.keys r) ->
  (In s (PyDict.keys r) ->
   exists g, Grammar_init r s = Return g /\ start g = s /\
             option_map fst (hd_error (rules g)) = Some s /\
             Permutation (rules g) r /\
             forall k, PyDict.get k (rules g) = PyDict.get k r) /\
  (~ In s (PyDict.keys r) -> Grammar_init r s = Raise (KeyError (Some s))).
Proof.
  intros Hnd. split; [|apply Grammar_init_Raise].
  intros Hs. destruct (Grammar_init_Return r s Hs) as (rhs & Hrhs & Hinit).
  eexists. split; [exact Hinit|]. simpl.
  split; [reflexivity|]. split; [reflexivity|]. split.
  - apply remove_Permutation; assumption.
  - intros k. destruct (Grammar_init_inv _ _ _ Hinit) as (_ & _ & Hg & _).
    apply Hg.
Qed.

Lemma Grammar_init_spec_witness :
  (In "S" (PyDict.keys [("A", [["a"]]); ("S", [["A"]])]) ->
   exists g, Grammar_init [("A", [["a"]]); ("S", [["A"]])] "S" = Return g /\
             start g = "S" /\
             option_map fst (hd_error (rules g)) = Some "S" /\
             Permutation (rules g) [("A", [["a"]]); ("S", [["A"]])] /\
             forall k, PyDict.get k (rules g)
                       = PyDict.get k [("A", [["a"]]); ("S", [["A"]])]) /\
  (~ In "S" (PyDict.keys [("A", [["a"]]); ("S", [["A"]])]) ->
   Grammar_init [("A", [["a"]]); ("S", [["A"]])] "S"
   = Raise (KeyError (Some "S"))).
Proof.
  apply (Grammar_init_spec [("A", [["a"]]); ("S", [["A"]])] "S").
  repeat constructor; simpl; intuition discriminate.
Defined.

(** ** What [without_epsilon_rules] returns *)

Lemma foldM_preserves_In {A S} (I : S -> Prop) (body : S -> A -> outcome S)
      (l : list A) :
  (forall s x s', In x l -> I s -> body s x = Return s' -> I s') ->
  forall s s', I s -> foldM body l s = Return s' -> I s'.
Proof.
  induction l as [|x l IH]; intros Hb s s' Hs; simpl.
  - intros [= <-]. exact Hs.
  - destruct (body s x) as [s1| |] eqn:E; cbn [bind]; try discriminate.
    apply IH.
    + intros s0 y s0' Hy. apply Hb. right; exact Hy.
    + eapply Hb; [left; reflexivity | exact Hs | exact E].
Qed.

Lemma In_replace {V} k k0 (v v0 : V) (d : PyDict.dict V) :
  In (k, v) (PyDict.replace k0 v0 d) -> In (k, v) d \/ (k = k0 /\ v = v0).
Proof.
  induction d as [|[k' v'] d IH]; simpl; [tauto|].
  destruct (eqv k0 k') eqn:E.
  - apply eqv_iff in E. subst k'. intros [[= -> ->] | Hin]; auto.
  - intros [Heq | Hin]; [auto|]. destruct (IH Hin); auto.
Qed.

Lemma In_setitem {V} k k0 (v v0 : V) (d : PyDict.dict V) :
  In (k, v) (PyDict.setitem k0 v0 d) -> In (k, v) d \/ (k = k0 /\ v = v0).
Proof.
  unfold PyDict.setitem. destruct (PyDict.has k0 d).
  - apply In_replace.
  - rewrite in_app_iff. simpl. intros [H | [[= -> ->] | []]]; auto.
Qed.

Lemma Grammar_init_In r s g kv :
  Grammar_init r s = Return g -> In kv (rules g) -> In kv r.
Proof.
  unfold Grammar_init, PyDict.move_to_front.
  destruct (PyDict.get s r) as [v|] eqn:E; cbn [bind]; [|discriminate].
  intros [= <-]. simpl. intros [<- | Hin].
  - apply get_Some_In, E.
  - unfold PyDict.remove in Hin. apply filter_In in Hin. tauto.
Qed.

Lemma epsilon_expand_invariant nullable (r : ruleset) (I : ruleset -> Prop) :
  (forall d lhs rhs opt kept d',
      I d -> In (lhs, rhs) r -> In opt rhs ->
      epsilon_variant nullable kept opt <> [] ->
      rules_add lhs (epsilon_variant nullable kept opt) d = Return d' ->
      I d') ->
  forall nr nr', I nr -> epsilon_expand nullable r nr = Return nr' -> I nr'.
Proof.
  intros HI. unfold epsilon_expand.
  apply foldM_preserves_In. intros d [lhs rhs] d' Hkv Hd.
  apply foldM_preserves_In; [|exact Hd]. intros d1 opt d1' Hopt Hd1.
  apply foldM_preserves_In; [|exact Hd1]. intros d2 kept d2' _ Hd2.
  cbn [fst].
  destruct (is_empty (epsilon_variant nullable kept opt)) eqn:E; simpl.
  - intros [= <-]. exact Hd2.
  - destruct (eqv (epsilon_variant nullable kept opt) [lhs]); simpl.
    + intros [= <-]. exact Hd2.
    + apply (HI d2 lhs rhs opt kept d2' Hd2 Hkv Hopt).
      intros Hn. rewrite Hn in E. discriminate.
Qed.

Lemma rules_add_In lhs opt (d d' : ruleset) k rhs :
  rules_add lhs opt d = Return d' -> In (k, rhs) d' ->
  In (k, rhs) d \/
  (k = lhs /\ exists old, In (lhs, old) d /\ rhs = PySet.add opt old).
Proof.
  unfold rules_add, PyDict.getitem.
  destruct (PyDict.get lhs d) as [old|] eqn:E; cbn [bind]; [|discriminate].
  intros [= <-] Hin. apply In_replace in Hin.
  destruct Hin as [Hin | [-> ->]]; [auto|].
  right. split; [reflexivity|]. exists old. split; [|reflexivity].
  apply get_Some_In, E.
Qed.

Lemma epsilon_variant_drops nullable kept opt :
  drops nullable opt (epsilon_variant nullable kept opt).
Proof.
  unfold epsilon_variant, enumerate. generalize 0 as k.
  induction opt as [|sym opt IH]; intros k; simpl; [constructor|].
  destruct (PySet.mem sym nullable) eqn:E; simpl.
  - destruct (PySet.mem k kept); simpl.
    + apply drops_keep, IH.
    + apply drops_drop; [apply mem_In, E | apply IH].
  - apply drops_keep, IH.
Qed.

Lemma drops_refl nullable l : drops nullable l l.
Proof. induction l; constructor; assumption. Qed.

Lemma without_epsilon_rules_expand g nullable :
  _nullable_nonterminals g = Return nullable ->
  exists nr,
    epsilon_expand nullable (rules g)
      (map (fun kv => (fst kv, PySet.discard [] (snd kv))) (rules g))
    = Return nr /\
    PyDict.keys nr = PyDict.keys (rules g) /\
    without_epsilon_rules g =
    if PySet.mem (start g) nullable then
      Grammar_init
        (PyDict.setitem (start g ++ "'")%string
                        (PySet.of_list [[]; [start g]]) nr)
        (start g ++ "'")%string
    else Grammar_init nr (start g).
Proof.
  intros Hn. unfold without_epsilon_rules. rewrite Hn. cbn [bind].
  destruct (epsilon_expand_Return nullable (rules g)
              (map (fun kv => (fst kv, PySet.discard [] (snd kv))) (rules g)))
    as (nr & Hexp & Hk).
  - apply keys_discard_empty.
  - exists nr. rewrite Hexp. auto.
Qed.

(** The rule sets after [without_epsilon_rules]: those of the expansion,
    and the new start rule when the start symbol is nullable. *)
Lemma without_epsilon_rules_In g nullable nr g' k rhs :
  without_epsilon_rules g = Return g' ->
  (without_epsilon_rules g =
   if PySet.mem (start g) nullable then
     Grammar_init
       (PyDict.setitem (start g ++ "'")%string
                       (PySet.of_list [[]; [start g]]) nr)
       (start g ++ "'")%string
   else Grammar_init nr (start g)) ->
  In (k, rhs) (rules g') ->
  In (k, rhs) nr \/
  (PySet.mem (start g) nullable = true /\ k = (start g ++ "'")%string /\
   start g' = (start g ++ "'")%string /\
   rhs = PySet.of_list [[]; [start g]]).
Proof.
  intros Hg' Hw Hin. rewrite Hg' in Hw. symmetry in Hw.
  destruct (PySet.mem (start g) nullable).
  - destruct (Grammar_init_inv _ _ _ Hw) as (Hst & _).
    apply (Grammar_init_In _ _ _ _ Hw) in Hin.
    apply In_setitem in Hin. destruct Hin as [Hin | [-> ->]]; [left; exact Hin|].
    right. repeat split; auto.
  - left. apply (Grammar_init_In _ _ _ _ Hw), Hin.
Qed.

(** X6. [without_epsilon_rules] turns a well-formed grammar into a
    well-formed grammar, without raising, and keeps every nonterminal. *)
Theorem without_epsilon_rules_well_formed (g : Grammar) :
  well_formed g ->
  exists g', without_epsilon_rules g = Return g' /\ well_formed g' /\
             forall k, In k (nonterminals g) -> In k (nonterminals g').
Proof.
  intros (Hnd & Hs & Hrhs).
  destruct (nullable_nonterminals_returns g) as [nullable Hn].
  destruct (without_epsilon_rules_expand g nullable Hn) as (nr & Hexp & Hk & Hw).
  assert (Hnr : forall k rhs, In (k, rhs) nr -> NoDup rhs).
  { apply (epsilon_expand_invariant nullable (rules g)
             (fun d => forall k rhs, In (k, rhs) d -> NoDup rhs)) with
        (nr := map (fun kv => (fst kv, PySet.discard [] (snd kv))) (rules g));
      [| | exact Hexp].
    - intros d lhs rhs opt kept d' Hd _ _ _ Ha k rhs0 Hin.
      destruct (rules_add_In _ _ _ _ _ _ Ha Hin) as [H | (_ & old & Hold & ->)].
      + eapply Hd, H.
      + apply add_NoDup. eapply Hd, Hold.
    - intros k rhs Hin. apply in_map_iff in Hin.
      destruct Hin as ([k0 rhs0] & [= <- <-] & Hin). simpl.
      apply discard_NoDup. eapply Hrhs, Hin. }
  assert (Hndr : NoDup (PyDict.keys nr)) by (rewrite Hk; exact Hnd).
  assert (Hret : exists g', without_epsilon_rules g = Return g' /\
                            NoDup (nonterminals g') /\
                            In (start g') (nonterminals g') /\
                            forall k, In k (nonterminals g) -> In k (nonterminals g')).
  { rewrite Hw. destruct (PySet.mem (start g) nullable).
    - destruct (Grammar_init_Return
                  (PyDict.setitem (start g ++ "'")%string
                                  (PySet.of_list [[]; [start g]]) nr)
                  (start g ++ "'")%string) as (rhs & _ & Hinit).
      { apply keys_setitem. left; reflexivity. }
      eexists. split; [exact Hinit|].
      destruct (Grammar_init_inv _ _ _ Hinit) as (_ & _ & _ & Hkeys & Hnd').
      split; [apply Hnd', NoDup_keys_setitem, Hndr|].
      split; [simpl; left; reflexivity|].
      intros k Hin. apply Hkeys, keys_setitem. right. rewrite Hk. exact Hin.
    - destruct (Grammar_init_Return nr (start g)) as (rhs & _ & Hinit).
      { rewrite Hk. exact Hs. }
      eexists. split; [exact Hinit|].
      destruct (Grammar_init_inv _ _ _ Hinit) as (_ & _ & _ & Hkeys & Hnd').
      split; [apply Hnd', Hndr|].
      split; [simpl; left; reflexivity|].
      intros k Hin. apply Hkeys. rewrite Hk. exact Hin. }
  destruct Hret as (g' & Hg' & Hnd' & Hs' & Hkeep).
  exists g'. split; [exact Hg'|]. split; [|exact Hkeep].
  split; [exact Hnd'|]. split; [exact Hs'|].
  intros k rhs Hin.
  destruct (without_epsilon_rules_In g nullable nr g' k rhs Hg' Hw Hin)
    as [H | (_ & _ & _ & ->)].
  - eapply Hnr, H.
  - apply of_list_NoDup.
Qed.

Lemma without_epsilon_rules_well_formed_witness :
  let g := mkGrammar [("S", [["A"; "B"]; ["a"]]); ("A", [[]; ["a"]]);
                      ("B", [["A"; "A"]; ["b"]])] "S" in
  exists g', without_epsilon_rules g = Return g' /\ well_formed g' /\
             forall k, In k (nonterminals g) -> In k (nonterminals g').
Proof.
  intros g. apply (without_epsilon_rules_well_formed g). concrete_well_formed.
Defined.

(** X7. In the grammar [without_epsilon_rules] returns, the empty
    alternative occurs in no rule but that of the start symbol, and there
    only when the start symbol is the new one, named after the old start
    symbol with a prime. *)
Theorem without_epsilon_rules_epsilon_free (g g' : Grammar) :
  without_epsilon_rules g = Return g' ->
  forall lhs rhs,
    In (lhs, rhs) (rules g') -> In [] rhs ->
    lhs = start g' /\ start g' = (start g ++ "'")%string.
Proof.
  intros Hg' lhs rhs Hin Hnil.
  destruct (nullable_nonterminals_returns g) as [nullable Hn].
  destruct (without_epsilon_rules_expand g nullable Hn) as (nr & Hexp & Hk & Hw).
  assert (Hnr : forall k rhs, In (k, rhs) nr -> ~ In [] rhs).
  { apply (epsilon_expand_invariant nullable (rules g)
             (fun d => forall k rhs, In (k, rhs) d -> ~ In [] rhs)) with
        (nr := map (fun kv => (fst kv, PySet.discard [] (snd kv))) (rules g));
      [| | exact Hexp].
    - intros d lhs0 rhs0 opt kept d' Hd _ _ Hne Ha k rhs1 Hin1.
      destruct (rules_add_In _ _ _ _ _ _ Ha Hin1) as [H | (_ & old & Hold & ->)].
      + eapply Hd, H.
      + intros Hc. apply add_In in Hc. destruct Hc as [Hc | Hc].
        * apply Hne. symmetry. exact Hc.
        * eapply Hd; eassumption.
    - intros k rhs0 Hin0. apply in_map_iff in Hin0.
      destruct Hin0 as ([k0 rhs1] & [= <- <-] & _). simpl.
      intros Hc. apply discard_In in Hc. destruct Hc as [_ Hc]. congruence. }
  destruct (without_epsilon_rules_In g nullable nr g' lhs rhs Hg' Hw Hin)
    as [H | (_ & -> & -> & _)].
  - exfalso. eapply Hnr; eassumption.
  - auto.
Qed.

Lemma without_epsilon_rules_epsilon_free_witness :
  let g := mkGrammar [("S", [["a"; "S"; "b"]; []])] "S" in
  let g' := mkGrammar [("S'", [[]; ["S"]]);
                       ("S", [["a"; "S"; "b"]; ["a"; "b"]])] "S'" in
  without_epsilon_rules g = Return g' /\
  In ("S'", [[]; ["S"]]) (rules g') /\
  ("S'" = start g' /\ start g' = (start g ++ "'")%string).
Proof.
  intros g g'. split; [reflexivity|]. split; [left; reflexivity|].
  apply (without_epsilon_rules_epsilon_free g g' eq_refl "S'" [[]; ["S"]]);
    left; reflexivity.
Defined.

(** X8. Every alternative of the grammar [without_epsilon_rules]
    returns is not empty and is an alternative of the same nonterminal in
    the grammar given, with some occurrences of nullable symbols left
    out; the only exceptions are the two alternatives, the empty one and
    the old start symbol, of the new start symbol made for a nullable
    start. *)
Theorem without_epsilon_rules_sound (g g' : Grammar) (nullable : list string) :
  _nullable_nonterminals g = Return nullable ->
  without_epsilon_rules g = Return g' ->
  forall lhs rhs' opt',
    In (lhs, rhs') (rules g') -> In opt' rhs' ->
    (exists rhs opt, In (lhs, rhs) (rules g) /\ In opt rhs /\
                     drops nullable opt opt' /\ opt' <> []) \/
    (In (start g) nullable /\ lhs = (start g ++ "'")%string /\
     start g' = (start g ++ "'")%string /\
     (opt' = [] \/ opt' = [start g])).
Proof.
  intros Hn Hg' lhs rhs' opt' Hin Hopt.
  destruct (without_epsilon_rules_expand g nullable Hn) as (nr & Hexp & Hk & Hw).
  assert (Hnr : forall k rhs1 o,
             In (k, rhs1) nr -> In o rhs1 ->
             exists rhs opt, In (k, rhs) (rules g) /\ In opt rhs /\
                             drops nullable opt o /\ o <> []).
  { apply (epsilon_expand_invariant nullable (rules g)
             (fun d => forall k rhs1 o,
                  In (k, rhs1) d -> In o rhs1 ->
                  exists rhs opt, In (k, rhs) (rules g) /\ In opt rhs /\
                                  drops nullable opt o /\ o <> [])) with
        (nr := map (fun kv => (fst kv, PySet.discard [] (snd kv))) (rules g));
      [| | exact Hexp].
    - intros d lhs0 rhs0 opt kept d' Hd Hkv Ho Hne Ha k rhs1 o Hin1 Ho1.
      destruct (rules_add_In _ _ _ _ _ _ Ha Hin1) as [H | (-> & old & Hold & ->)].
      + eapply Hd; eassumption.
      + apply add_In in Ho1. destruct Ho1 as [-> | Ho1].
        * exists rhs0, opt. repeat split; auto. apply epsilon_variant_drops.
        * eapply Hd; eassumption.
    - intros k rhs1 o Hin1 Ho1. apply in_map_iff in Hin1.
      destruct Hin1 as ([k0 rhs0] & [= <- <-] & Hin0). simpl in Ho1.
      apply discard_In in Ho1. destruct Ho1 as [Ho1 Hne].
      exists rhs0, o. repeat split; auto. apply drops_refl. }
  destruct (without_epsilon_rules_In g nullable nr g' lhs rhs' Hg' Hw Hin)
    as [H | (Hm & -> & Hst & ->)].
  - left. eapply Hnr; eassumption.
  - right. apply mem_In in Hm. repeat split; auto.
    apply of_list_In in Hopt. simpl in Hopt. intuition.
Qed.

Lemma without_epsilon_rules_sound_witness :
  let g := mkGrammar [("S", [["A"; "B"]; ["a"]]); ("A", [[]; ["a"]]);
                      ("B", [["A"; "A"]; ["b"]])] "S" in
  let g' := mkGrammar
              [("S'", [[]; ["S"]]); ("S", [["A"; "B"]; ["a"]; ["A"]; ["B"]]);
               ("A", [["a"]]); ("B", [["A"; "A"]; ["b"]; ["A"]])] "S'" in
  let nullable := ["A"; "B"; "S"] in
  without_epsilon_rules g = Return g' /\
  ((exists rhs opt, In ("B", rhs) (rules g) /\ In opt rhs /\
                    drops nullable opt ["A"] /\ ["A"] <> []) \/
   (In (start g) nullable /\ "B" = (start g ++ "'")%string /\
    start g' = (start g ++ "'")%string /\
    (["A"] = [] \/ ["A"] = [start g]))).
Proof.
  intros g g' nullable. split; [reflexivity|].
  apply (without_epsilon_rules_sound g g' nullable eq_refl eq_refl
           "B" [["A"; "A"]; ["b"]; ["A"]] ["A"]); simpl; auto.
Defined.

(** ** [proper_powerset] lists the proper sub-sequences *)

Lemma subseq_nil_l {A} (l : list A) : subseq [] l.
Proof. induction l; constructor; assumption. Qed.

Lemma subseq_length {A} (l1 l2 : list A) :
  subseq l1 l2 -> List.length l1 <= List.length l2.
Proof. induction 1; simpl; lia. Qed.

Lemma combinations_0 {A} (l : list A) : combinations l 0 = [[]].
Proof. destruct l; reflexivity. Qed.

Lemma combinations_subseq {A} (l1 l2 : list A) :
  subseq l1 l2 -> In l1 (combinations l2 (List.length l1)).
Proof.
  induction 1 as [|x l1 l2 _ IH|x l1 l2 _ IH]; simpl.
  - left; reflexivity.
  - apply in_or_app. left. apply in_map, IH.
  - destruct l1 as [|y l1]; simpl in *; [left; reflexivity|].
    apply in_or_app. right. exact IH.
Qed.

Lemma combinations_sound {A} (l2 : list A) : forall r l1,
  In l1 (combinations l2 r) -> subseq l1 l2 /\ List.length l1 = r.
Proof.
  induction l2 as [|x l2 IH]; intros r l1; destruct r as [|r]; simpl.
  - intros [<- | []]. split; [constructor | reflexivity].
  - intros [].
  - intros [<- | []]. split; [apply subseq_nil_l | reflexivity].
  - intros Hin. apply in_app_or in Hin. destruct Hin as [Hin | Hin].
    + apply in_map_iff in Hin. destruct Hin as (l & <- & Hl).
      destruct (IH r l Hl) as [Hs Hlen]. split; [constructor; exact Hs|].
      simpl. lia.
    + destruct (IH (S r) l1 Hin) as [Hs Hlen].
      split; [constructor; exact Hs | exact Hlen].
Qed.

(** X9. [proper_powerset] lists exactly the sub-sequences of its
    argument that leave at least one element out. *)
Theorem proper_powerset_spec {A} (l kept : list A) :
  In kept (proper_powerset l) <->
  subseq kept l /\ List.length kept < List.length l.
Proof.
  unfold proper_powerset. rewrite in_flat_map. split.
  - intros (r & Hr & Hin). apply in_seq in Hr.
    destruct (combinations_sound l r kept Hin) as [Hs Hlen].
    split; [exact Hs | lia].
  - intros [Hs Hlen]. exists (List.length kept). split.
    + apply in_seq. lia.
    + apply combinations_subseq, Hs.
Qed.

(** ** [without_epsilon_rules] adds every variant *)

Lemma subseq_In {A} (l1 l2 : list A) x : subseq l1 l2 -> In x l1 -> In x l2.
Proof.
  induction 1 as [|y l1 l2 _ IH|y l1 l2 _ IH]; simpl; [tauto | | ].
  - intros [-> | Hx]; auto.
  - auto.
Qed.

Lemma nullable_indices_from_ge nullable opt : forall k i,
  In i (nullable_indices_from k nullable opt) -> k <= i.
Proof.
  unfold nullable_indices_from. intros k i Hin.
  apply in_map_iff in Hin. destruct Hin as ([j sym] & <- & Hin).
  apply filter_In in Hin. destruct Hin as [Hin _].
  apply in_combine_l in Hin. apply in_seq in Hin. simpl. lia.
Qed.

Lemma epsilon_variant_from_cons_kept nullable opt : forall k j kept,
  j < k ->
  epsilon_variant_from k nullable (j :: kept) opt
  = epsilon_variant_from k nullable kept opt.
Proof.
  intros k j kept Hj. unfold epsilon_variant_from. f_equal.
  apply filter_ext_in. intros [i sym] Hin.
  apply in_combine_l in Hin. apply in_seq in Hin. simpl.
  assert (E : eqv i j = false) by (apply eqv_false; lia).
  unfold PySet.mem at 2. simpl. rewrite E. reflexivity.
Qed.

Lemma drops_variant nullable opt opt' :
  drops nullable opt opt' ->
  forall k, exists kept,
    subseq kept (nullable_indices_from k nullable opt) /\
    epsilon_variant_from k nullable kept opt = opt' /\
    (List.length kept < List.length (nullable_indices_from k nullable opt)
     \/ opt' = opt).
Proof.
  induction 1 as [|x l l' _ IH|x l l' Hx _ IH]; intros k.
  - exists []. repeat split; [constructor | right; reflexivity].
  - destruct (IH (S k)) as (kept & Hs & Hv & Hlen).
    destruct (PySet.mem x nullable) eqn:E.
    + exists (k :: kept).
      unfold nullable_indices_from, epsilon_variant_from in *.
      cbn [List.length seq combine filter fst snd map]. rewrite E.
      cbn [negb orb map fst snd].
      assert (Ek : PySet.mem k (k :: kept) = true)
        by (apply mem_In; left; reflexivity).
      rewrite Ek. cbn [map fst snd]. split; [constructor; exact Hs|].
      split.
      * f_equal. rewrite <- Hv.
        apply (epsilon_variant_from_cons_kept nullable l (S k) k kept). lia.
      * simpl. destruct Hlen as [Hlen | ->]; [left; lia | right; reflexivity].
    + exists kept.
      unfold nullable_indices_from, epsilon_variant_from in *.
      cbn [List.length seq combine filter fst snd map]. rewrite E.
      cbn [negb orb map fst snd]. split; [exact Hs|]. split.
      * f_equal. exact Hv.
      * destruct Hlen as [Hlen | ->]; [left; exact Hlen | right; reflexivity].
  - destruct (IH (S k)) as (kept & Hs & Hv & _).
    exists kept. apply mem_In in Hx.
    assert (Hk : PySet.mem k kept = false).
    { apply mem_false. intros Hin.
      apply (subseq_In _ _ _ Hs) in Hin.
      apply nullable_indices_from_ge in Hin. lia. }
    pose proof (subseq_length _ _ Hs) as Hle.
    unfold nullable_indices_from, epsilon_variant_from in *.
    cbn [List.length seq combine filter fst snd map]. rewrite Hx.
    cbn [negb orb map fst snd]. rewrite Hk. cbn [map fst snd].
    split; [constructor; exact Hs|]. split; [exact Hv|].
    left. simpl. lia.
Qed.

Lemma rules_add_extends lhs opt (d d' : ruleset) :
  rules_add lhs opt d = Return d' -> extends d d' /\ has_alt lhs opt d'.
Proof.
  unfold rules_add, PyDict.getitem.
  destruct (PyDict.get lhs d) as [old|] eqn:E; cbn [bind]; [|discriminate].
  intros [= <-]. split.
  - intros k x (s0 & Hs0 & Hx). unfold has_alt. rewrite get_replace.
    destruct (eqv k lhs) eqn:Ek.
    + apply eqv_iff in Ek. subst k. rewrite E. simpl.
      eexists. split; [reflexivity|]. apply add_In. right. congruence.
    + eauto.
  - unfold has_alt. rewrite get_replace_same by (eapply get_Some_key, E).
    eexists. split; [reflexivity|]. apply add_In. left; reflexivity.
Qed.

Lemma foldM_adds_partial {B} (P : B -> ruleset -> Prop)
      (body : ruleset -> B -> outcome ruleset) (l : list B) :
  (forall b d d', extends d d' -> P b d -> P b d') ->
  (forall d b d', In b l -> body d b = Return d' -> extends d d' /\ P b d') ->
  forall d d', foldM body l d = Return d' ->
               extends d d' /\ forall b, In b l -> P b d'.
Proof.
  intros Hmono. induction l as [|b l IH]; intros Hbody d d'; simpl.
  - intros [= <-]. split; [apply extends_refl | intros b []].
  - destruct (body d b) as [d1| |] eqn:E; cbn [bind]; try discriminate.
    intros Hf.
    destruct (Hbody d b d1 (or_introl eq_refl) E) as [He1 Hp1].
    destruct (IH (fun d0 b0 d0' H => Hbody d0 b0 d0' (or_intror H)) d1 d' Hf)
      as [He2 Hp2].
    split; [eapply extends_trans; eassumption|].
    intros b' [<- | Hb']; [eapply Hmono; eassumption | apply Hp2, Hb'].
Qed.

(** Every variant of every alternative is added by the expansion. *)
Lemma epsilon_expand_adds nullable (r nr nr' : ruleset) :
  epsilon_expand nullable r nr = Return nr' ->
  extends nr nr' /\
  forall lhs rhs opt kept,
    In (lhs, rhs) r -> In opt rhs ->
    In kept (proper_powerset (nullable_indices nullable opt)) ->
    epsilon_variant nullable kept opt <> [] ->
    epsilon_variant nullable kept opt <> [lhs] ->
    has_alt lhs (epsilon_variant nullable kept opt) nr'.
Proof.
  intros Hexp. unfold epsilon_expand in Hexp.
  apply (foldM_adds_partial
           (fun kv d => forall opt kept,
                In opt (snd kv) ->
                In kept (proper_powerset (nullable_indices nullable opt)) ->
                epsilon_variant nullable kept opt <> [] ->
                epsilon_variant nullable kept opt <> [fst kv] ->
                has_alt (fst kv) (epsilon_variant nullable kept opt) d))
    in Hexp.
  - destruct Hexp as [He Hp]. split; [exact He|].
    intros lhs rhs opt kept Hkv. apply (Hp (lhs, rhs) Hkv).
  - intros kv d d' He H opt kept Ho Hk H1 H2. apply He, H; assumption.
  - intros d kv d' _ Hf.
    apply (foldM_adds_partial
             (fun opt d0 => forall kept,
                  In kept (proper_powerset (nullable_indices nullable opt)) ->
                  epsilon_variant nullable kept opt <> [] ->
                  epsilon_variant nullable kept opt <> [fst kv] ->
                  has_alt (fst kv) (epsilon_variant nullable kept opt) d0))
      in Hf.
    + destruct Hf as [He Hp]. split; [exact He|].
      intros opt kept Ho. apply (Hp opt Ho).
    + intros opt d0 d0' He H kept Hk H1 H2. apply He, H; assumption.
    + intros d0 opt d0' _ Hf0.
      apply (foldM_adds_partial
               (fun kept d1 =>
                  epsilon_variant nullable kept opt <> [] ->
                  epsilon_variant nullable kept opt <> [fst kv] ->
                  has_alt (fst kv) (epsilon_variant nullable kept opt) d1))
        in Hf0.
      * exact Hf0.
      * intros kept d1 d1' He H H1 H2. apply He, H; assumption.
      * intros d1 kept d1' _.
        destruct (is_empty (epsilon_variant nullable kept opt)) eqn:E1; simpl.
        -- intros [= <-]. split; [apply extends_refl|].
           intros Hne. destruct (epsilon_variant nullable kept opt);
             [congruence | discriminate].
        -- destruct (eqv (epsilon_variant nullable kept opt) [fst kv]) eqn:E2;
             simpl.
           ++ intros [= <-]. split; [apply extends_refl|].
              intros _ Hne. apply eqv_iff in E2. contradiction.
           ++ intros Ha. destruct (rules_add_extends _ _ _ _ Ha) as [He Hh].
              split; [exact He | intros _ _; exact Hh].
Qed.


(** X10. [without_epsilon_rules] adds every variant: when an alternative
    [opt] of a nonterminal [lhs] becomes [opt'] by leaving out
    occurrences of nullable symbols, and [opt'] is not empty and is not
    the single symbol [lhs] (unless nothing was left out), then [opt'] is
    an alternative of [lhs] in the grammar returned.  The rule of the new
    start symbol, which overwrites a rule of the same name, is the
    exception. *)
Theorem without_epsilon_rules_complete (g g' : Grammar) (nullable : list string) :
  well_formed g ->
  _nullable_nonterminals g = Return nullable ->
  without_epsilon_rules g = Return g' ->
  forall lhs rhs opt opt',
    In (lhs, rhs) (rules g) -> In opt rhs ->
    drops nullable opt opt' -> opt' <> [] ->
    (opt' = opt \/ opt' <> [lhs]) ->
    ~ (In (start g) nullable /\ lhs = (start g ++ "'")%string) ->
    has_alt lhs opt' (rules g').
Proof.
  intros (Hnd & _ & _) Hn Hg' lhs rhs opt opt' Hkv Hopt Hd Hne Hself Hfresh.
  destruct (without_epsilon_rules_expand g nullable Hn) as (nr & Hexp & Hk & Hw).
  destruct (epsilon_expand_adds nullable _ _ _ Hexp) as [Hext Hadd].
  assert (Hnr : has_alt lhs opt' nr).
  { destruct (list_eq_dec string_dec opt' opt) as [-> | Hneq].
    - apply Hext. unfold has_alt.
      rewrite (get_map_values (PySet.discard []) (rules g) lhs).
      rewrite (In_get _ _ _ Hnd Hkv). simpl.
      eexists. split; [reflexivity|]. apply discard_In. auto.
    - destruct (drops_variant nullable opt opt' Hd 0) as (kept & Hs & Hv & Hlen).
      destruct Hlen as [Hlen | Heq]; [|contradiction].
      change (epsilon_variant_from 0 nullable kept opt)
        with (epsilon_variant nullable kept opt) in Hv.
      change (nullable_indices_from 0 nullable opt)
        with (nullable_indices nullable opt) in Hs, Hlen.
      rewrite <- Hv. apply (Hadd lhs rhs opt kept Hkv Hopt).
      + unfold proper_powerset. apply in_flat_map.
        exists (List.length kept). split; [apply in_seq; lia|].
        apply combinations_subseq, Hs.
      + rewrite Hv. exact Hne.
      + rewrite Hv. destruct Hself; [contradiction | assumption]. }
  destruct Hnr as (s0 & Hs0 & Hx). exists s0. split; [|exact Hx].
  rewrite Hg' in Hw. symmetry in Hw.
  destruct (PySet.mem (start g) nullable) eqn:Em.
  - destruct (Grammar_init_inv _ _ _ Hw) as (_ & _ & Hget & _).
    rewrite Hget, get_setitem_other; [exact Hs0|].
    intros ->. apply Hfresh. split; [apply mem_In, Em | reflexivity].
  - destruct (Grammar_init_inv _ _ _ Hw) as (_ & _ & Hget & _).
    rewrite Hget. exact Hs0.
Qed.

Lemma without_epsilon_rules_complete_witness :
  let g := mkGrammar [("S", [["A"; "B"]; ["a"]]); ("A", [[]; ["a"]]);
                      ("B", [["A"; "A"]; ["b"]])] "S" in
  let g' := mkGrammar
              [("S'", [[]; ["S"]]); ("S", [["A"; "B"]; ["a"]; ["A"]; ["B"]]);
               ("A", [["a"]]); ("B", [["A"; "A"]; ["b"]; ["A"]])] "S'" in
  let nullable := ["A"; "B"; "S"] in
  without_epsilon_rules g = Return g' /\
  drops nullable ["A"; "B"] ["B"] /\
  has_alt "S" ["B"] (rules g').
Proof.
  intros g g' nullable.
  assert (Hd : drops nullable ["A"; "B"] ["B"]).
  { apply drops_drop; [left; reflexivity|].
    apply drops_keep, drops_nil. }
  split; [reflexivity|]. split; [exact Hd|].
  apply (without_epsilon_rules_complete g g' nullable)
    with (rhs := [["A"; "B"]; ["a"]]) (opt := ["A"; "B"]).
  - concrete_well_formed.
  - reflexivity.
  - reflexivity.
  - left; reflexivity.
  - left; reflexivity.
  - exact Hd.
  - discriminate.
  - right; discriminate.
  - intros [_ H]; discriminate H.
Defined.

(** ** What [without_unit_rules] returns *)

Lemma unit_pairs_transitive g ups :
  _unit_pairs g = Return ups ->
  forall x y z, In (x, y) ups -> In (y, z) ups -> In (x, z) ups.
Proof.
  intros Hups. unfold _unit_pairs in Hups. rewrite while_changed_S in Hups.
  destruct (PySet.equal (direct_unit_pairs g) []).
  - injection Hups as <-. intros x y z [].
  - cbn [bind] in Hups.
    destruct (while_changed_exit
                (fun new => Return (unit_pairs_pass new))
                _ _ _ _ eq_refl Hups) as (new' & Hnew' & Hiff).
    injection Hnew' as <-.
    intros x y z Hxy Hyz. apply Hiff.
    eapply unit_pairs_pass_closed; eassumption.
Qed.

Lemma discard_unit_In (d d' : ruleset) xy k rhs :
  discard_unit d xy = Return d' -> In (k, rhs) d' ->
  In (k, rhs) d \/ exists old, In (k, old) d /\ rhs = PySet.discard [snd xy] old.
Proof.
  unfold discard_unit, PyDict.getitem.
  destruct (PyDict.get (fst xy) d) as [old|] eqn:E; cbn [bind]; [|discriminate].
  intros [= <-] Hin. apply In_replace in Hin.
  destruct Hin as [Hin | [-> ->]]; [auto|].
  right. exists old. split; [apply get_Some_In, E | reflexivity].
Qed.

Lemma absorb_unit_In (d d' : ruleset) xy k rhs :
  absorb_unit d xy = Return d' -> In (k, rhs) d' ->
  In (k, rhs) d \/
  exists rx ry, In (k, rx) d /\ In (snd xy, ry) d /\ rhs = PySet.update rx ry.
Proof.
  unfold absorb_unit, PyDict.getitem.
  destruct (PyDict.get (fst xy) d) as [rx|] eqn:Ex; cbn [bind]; [|discriminate].
  destruct (PyDict.get (snd xy) d) as [ry|] eqn:Ey; cbn [bind]; [|discriminate].
  intros [= <-] Hin. apply In_replace in Hin.
  destruct Hin as [Hin | [-> ->]]; [auto|].
  right. exists rx, ry. repeat split; try reflexivity; apply get_Some_In; assumption.
Qed.

(** X11. [without_unit_rules] turns a well-formed grammar into a
    well-formed grammar, without raising, with the same start symbol and
    the same nonterminals. *)
Theorem without_unit_rules_well_formed (g : Grammar) :
  well_formed g ->
  exists g', without_unit_rules g = Return g' /\ well_formed g' /\
             start g' = start g /\
             forall k, In k (nonterminals g') <-> In k (nonterminals g).
Proof.
  intros (Hnd & Hs & Hrhs).
  destruct (without_unit_rules_Return g Hnd Hs) as (g' & Hg' & Hst & Hnd' & Hk).
  exists g'. split; [exact Hg'|]. split; [|split; assumption].
  split; [exact Hnd'|]. split; [rewrite Hst; apply Hk, Hs|].
  unfold without_unit_rules in Hg'.
  destruct (_unit_pairs g) as [ups| |]; cbn [bind] in Hg'; try discriminate.
  unfold without_unit_rules_in in Hg'.
  destruct (foldM discard_unit ups (rules g)) as [nr1| |] eqn:E1;
    cbn [bind] in Hg'; try discriminate.
  destruct (foldM absorb_unit ups nr1) as [nr2| |] eqn:E2;
    cbn [bind] in Hg'; try discriminate.
  assert (H1 : forall k rhs, In (k, rhs) nr1 -> NoDup rhs).
  { apply (foldM_preserves (fun d : ruleset =>
                              forall k rhs, In (k, rhs) d -> NoDup rhs)
                           discard_unit ups) with (s := rules g);
      [| exact Hrhs | exact E1].
    intros d xy d' Hd Hb k rhs Hin.
    destruct (discard_unit_In _ _ _ _ _ Hb Hin) as [H | (old & Ho & ->)].
    - eapply Hd, H.
    - apply discard_NoDup. eapply Hd, Ho. }
  assert (H2 : forall k rhs, In (k, rhs) nr2 -> NoDup rhs).
  { apply (foldM_preserves (fun d : ruleset =>
                              forall k rhs, In (k, rhs) d -> NoDup rhs)
                           absorb_unit ups) with (s := nr1);
      [| exact H1 | exact E2].
    intros d xy d' Hd Hb k rhs Hin.
    destruct (absorb_unit_In _ _ _ _ _ Hb Hin) as [H | (rx & ry & Hx & _ & ->)].
    - eapply Hd, H.
    - apply update_NoDup. eapply Hd, Hx. }
  intros k rhs Hin. apply (H2 k rhs).
  eapply Grammar_init_In; eassumption.
Qed.

Lemma without_unit_rules_well_formed_witness :
  let g := mkGrammar [("A", [["B"]; ["A"; "c"]]);
                      ("B", [["C"]; ["b"]]);
                      ("C", [["a"]; ["A"]])] "A" in
  exists g', without_unit_rules g = Return g' /\ well_formed g' /\
             start g' = start g /\
             forall k, In k (nonterminals g') <-> In k (nonterminals g).
Proof.
  intros g. apply (without_unit_rules_well_formed g). concrete_well_formed.
Defined.

Lemma discard_pass_alternatives g ups order1 (nr1 : ruleset) :
  NoDup (nonterminals g) ->
  incl (direct_unit_pairs g) ups -> incl ups (pair_universe g) ->
  (forall p, In p order1 <-> In p ups) ->
  foldM discard_unit order1 (rules g) = Return nr1 ->
  forall x opt,
    has_alt x opt nr1 <-> has_alt x opt (rules g) /\ ~ unit_alt g opt.
Proof.
  intros Hnd Hdirect Huniv H1 Hf.
  destruct (discard_pass order1 (rules g)) as (nr & Hf' & Hk & Hg).
  { intros x y Hxy. apply H1, Huniv, in_prod_iff in Hxy. tauto. }
  rewrite Hf in Hf'. injection Hf' as <-.
  intros x opt. split.
  - intros (rhs' & Hrhs' & Hopt).
    destruct (Hg x rhs' Hrhs') as (rhs & Hrhs & Hiff).
    apply Hiff in Hopt. destruct Hopt as [Hopt Hne]. split.
    + exists rhs. auto.
    + intros (Y & -> & HY). apply (Hne Y); [|reflexivity].
      apply H1, Hdirect, direct_unit_pairs_In.
      exists rhs. repeat split; auto. apply get_Some_In, Hrhs.
  - intros [(rhs & Hrhs & Hopt) Hnu].
    assert (Hx : In x (PyDict.keys nr1)).
    { rewrite Hk. eapply get_Some_key, Hrhs. }
    destruct (key_get _ _ Hx) as [rhs' Hrhs'].
    destruct (Hg x rhs' Hrhs') as (rhs0 & Hrhs0 & Hiff).
    exists rhs'. split; [exact Hrhs'|]. apply Hiff.
    split; [congruence|].
    intros y Hxy ->. apply Hnu. exists y. split; [reflexivity|].
    apply H1, Huniv, in_prod_iff in Hxy. tauto.
Qed.

Lemma absorb_unit_extends (d d' : ruleset) x y :
  absorb_unit d (x, y) = Return d' ->
  extends d d' /\
  (forall opt, has_alt y opt d -> has_alt x opt d') /\
  (forall k opt, has_alt k opt d' ->
                 has_alt k opt d \/ (k = x /\ has_alt y opt d)).
Proof.
  unfold absorb_unit, PyDict.getitem. cbn [fst snd].
  destruct (PyDict.get x d) as [rx|] eqn:Ex; cbn [bind]; [|discriminate].
  destruct (PyDict.get y d) as [ry|] eqn:Ey; cbn [bind]; [|discriminate].
  intros [= <-].
  assert (Hx : PyDict.get x (PyDict.replace x (PySet.update rx ry) d)
               = Some (PySet.update rx ry))
    by (apply get_replace_same; eapply get_Some_key, Ex).
  repeat split.
  - intros k opt (s0 & Hs0 & Hin). unfold has_alt.
    destruct (eqv_dec k x) as [-> | Hn].
    + rewrite Hx. eexists. split; [reflexivity|].
      apply update_In. left. congruence.
    + rewrite get_replace_other by assumption. eauto.
  - intros opt (s0 & Hs0 & Hin). unfold has_alt. rewrite Hx.
    eexists. split; [reflexivity|]. apply update_In. right. congruence.
  - intros k opt (s0 & Hs0 & Hin).
    destruct (eqv_dec k x) as [-> | Hn].
    + rewrite Hx in Hs0. injection Hs0 as <-. apply update_In in Hin.
      destruct Hin as [Hin | Hin].
      * left. exists rx. auto.
      * right. split; [reflexivity|]. exists ry. auto.
    + rewrite get_replace_other in Hs0 by assumption. left. exists s0. auto.
Qed.

Lemma absorb_pass_adds : forall order2 (d d' : ruleset),
  foldM absorb_unit order2 d = Return d' ->
  extends d d' /\
  forall x y, In (x, y) order2 ->
              forall opt, has_alt y opt d -> has_alt x opt d'.
Proof.
  induction order2 as [|[x0 y0] l IH]; intros d d'; simpl.
  - intros [= <-]. split; [apply extends_refl | intros x y []].
  - destruct (absorb_unit d (x0, y0)) as [d1| |] eqn:E; cbn [bind];
      try discriminate.
    intros Hf. destruct (absorb_unit_extends _ _ _ _ E) as (He1 & Ha1 & _).
    destruct (IH d1 d' Hf) as [He2 Ha2].
    split; [eapply extends_trans; eassumption|].
    intros x y [[= -> ->] | Hin] opt Hy.
    + apply He2, Ha1, Hy.
    + apply (Ha2 x y Hin), He1, Hy.
Qed.

(** X12. In whatever order the two loops of [without_unit_rules] meet
    the unit pairs, the alternatives of a nonterminal [X] in the grammar
    returned are exactly the alternatives, other than single
    nonterminals, of [X] itself and of every [Y] with [(X, Y)] among the
    unit pairs, as they stand in the grammar given. *)
Theorem without_unit_rules_alternatives (g g' : Grammar)
        (unit_pairs order1 order2 : list (string * string)) :
  well_formed g ->
  _unit_pairs g = Return unit_pairs ->
  (forall p, In p order1 <-> In p unit_pairs) ->
  (forall p, In p order2 <-> In p unit_pairs) ->
  without_unit_rules_in order1 order2 g = Return g' ->
  forall X opt,
    has_alt X opt (rules g') <->
    ~ unit_alt g opt /\
    (has_alt X opt (rules g) \/
     exists Y, In (X, Y) unit_pairs /\ has_alt Y opt (rules g)).
Proof.
  intros (Hnd & Hs & _) Hups H1 H2 Hg'.
  destruct (unit_pairs_returns g) as (ups & Hups' & Hdirect & Huniv).
  rewrite Hups in Hups'. injection Hups' as <-.
  pose proof (unit_pairs_transitive g unit_pairs Hups) as Htrans.
  unfold without_unit_rules_in in Hg'.
  destruct (foldM discard_unit order1 (rules g)) as [nr1| |] eqn:E1;
    cbn [bind] in Hg'; try discriminate.
  destruct (foldM absorb_unit order2 nr1) as [nr2| |] eqn:E2;
    cbn [bind] in Hg'; try discriminate.
  pose proof (discard_pass_alternatives g unit_pairs order1 nr1
                Hnd Hdirect Huniv H1 E1) as Hnr1.
  destruct (absorb_pass_adds order2 nr1 nr2 E2) as [Hext Hadd].
  assert (Hsound : forall X opt,
             has_alt X opt nr2 ->
             has_alt X opt nr1 \/
             exists Y, In (X, Y) unit_pairs /\ has_alt Y opt nr1).
  { apply (foldM_preserves_In
             (fun d : ruleset =>
                forall X opt, has_alt X opt d ->
                  has_alt X opt nr1 \/
                  exists Y, In (X, Y) unit_pairs /\ has_alt Y opt nr1)
             absorb_unit order2) with (s := nr1); [| auto | exact E2].
    intros d [x y] d' Hin Hd Hb X opt Hh.
    destruct (absorb_unit_extends _ _ _ _ Hb) as (_ & _ & Hinv).
    destruct (Hinv X opt Hh) as [Hh' | [-> Hy]]; [apply Hd, Hh'|].
    apply H2 in Hin. right.
    destruct (Hd y opt Hy) as [Hy1 | (Z & HyZ & HZ)].
    - exists y. auto.
    - exists Z. split; [eapply Htrans; eassumption | exact HZ]. }
  destruct (Grammar_init_inv _ _ _ Hg') as (_ & _ & Hget & _).
  assert (Hg2 : forall X opt, has_alt X opt (rules g') <-> has_alt X opt nr2).
  { intros X opt. unfold has_alt. rewrite Hget. tauto. }
  intros X opt. rewrite Hg2. split.
  - intros Hh. destruct (Hsound X opt Hh) as [H | (Y & HXY & H)];
      apply Hnr1 in H; destruct H as [H Hnu]; split; auto.
    right. exists Y. auto.
  - intros [Hnu [H | (Y & HXY & H)]].
    + apply Hext, Hnr1. auto.
    + apply (Hadd X Y); [apply H2, HXY | apply Hnr1; auto].
Qed.

Lemma without_unit_rules_alternatives_witness :
  let g := mkGrammar [("A", [["B"]]); ("B", [["C"]; ["b"]]); ("C", [["a"]])] "A" in
  let g' := mkGrammar [("A", [["b"]; ["a"]]); ("B", [["b"]; ["a"]]);
                       ("C", [["a"]])] "A" in
  let unit_pairs := [("A", "B"); ("B", "C"); ("A", "C")] in
  without_unit_rules g = Return g' /\
  (has_alt "A" ["a"] (rules g') <->
   ~ unit_alt g ["a"] /\
   (has_alt "A" ["a"] (rules g) \/
    exists Y, In ("A", Y) unit_pairs /\ has_alt Y ["a"] (rules g))).
Proof.
  intros g g' unit_pairs. split; [reflexivity|].
  apply (without_unit_rules_alternatives g g' unit_pairs unit_pairs unit_pairs).
  - concrete_well_formed.
  - reflexivity.
  - tauto.
  - tauto.
  - reflexivity.
Defined.

(** ** Dictionaries filled by [add] *)

Lemma built_nil : built [].
Proof. split; [constructor | intros k rhs []]. Qed.

Lemma built_get (d : ruleset) k rhs :
  built d -> (In (k, rhs) d <-> PyDict.get k d = Some rhs).
Proof.
  intros [Hnd _]. split; [apply In_get, Hnd | apply get_Some_In].
Qed.

Lemma default_add_built lhs opt (d : ruleset) :
  built d -> built (default_add lhs opt d).
Proof.
  intros [Hnd Hd]. unfold default_add.
  destruct (PyDict.get lhs d) as [rhs|] eqn:E.
  - split; [rewrite keys_replace; exact Hnd|].
    intros k rhs' Hin. apply In_replace in Hin.
    destruct Hin as [Hin | [-> ->]]; [apply Hd with (k := k), Hin|].
    apply get_Some_In in E. destruct (Hd _ _ E) as [Hr _]. split.
    + apply add_NoDup, Hr.
    + intros Hnil.
      assert (Hopt : In opt (PySet.add opt rhs))
        by (apply add_In; left; reflexivity).
      rewrite Hnil in Hopt. destruct Hopt.
  - apply get_None in E. split.
    + rewrite keys_app. simpl.
      apply NoDup_app; [exact Hnd | repeat constructor; intros [] |].
      intros x Hx [<- | []]. contradiction.
    + intros k rhs' Hin. apply in_app_iff in Hin.
      destruct Hin as [Hin | [[= <- <-] | []]]; [apply Hd with (k := k), Hin|].
      split; [repeat constructor; intros [] | discriminate].
Qed.

Lemma default_add_inv k x lhs opt (d : ruleset) :
  has_alt k x (default_add lhs opt d) ->
  has_alt k x d \/ (k = lhs /\ x = opt).
Proof.
  unfold has_alt, default_add. intros (rhs' & Hget & Hx).
  destruct (PyDict.get lhs d) as [rhs|] eqn:E.
  - rewrite get_replace in Hget. destruct (eqv k lhs) eqn:Ek.
    + apply eqv_iff in Ek. subst k. rewrite E in Hget. simpl in Hget.
      injection Hget as <-. apply add_In in Hx.
      destruct Hx as [-> | Hx]; [right; auto | left; eauto].
    + left. eauto.
  - rewrite get_app in Hget. destruct (PyDict.get k d) as [v|] eqn:Ek.
    + injection Hget as <-. left. eauto.
    + simpl in Hget. destruct (eqv k lhs) eqn:Ekl; [|discriminate].
      apply eqv_iff in Ekl. injection Hget as <-.
      destruct Hx as [<- | []]. right; auto.
Qed.

(** A loop of [add]s: the dictionary gets the alternatives added, and
    nothing else. *)
Lemma fold_default_add_spec {B} (key : B -> string) (val : B -> list string)
      (l : list B) : forall d : ruleset,
  built d ->
  built (fold_left (fun nr b => default_add (key b) (val b) nr) l d) /\
  forall k x,
    has_alt k x (fold_left (fun nr b => default_add (key b) (val b) nr) l d)
    <-> has_alt k x d \/ exists b, In b l /\ k = key b /\ x = val b.
Proof.
  induction l as [|b l IH]; intros d Hd; simpl.
  - split; [exact Hd|]. intros k x. split; [auto|].
    intros [H | (b & [] & _)]. exact H.
  - destruct (IH (default_add (key b) (val b) d) (default_add_built _ _ _ Hd))
      as [Hb Hiff].
    split; [exact Hb|]. intros k x. rewrite Hiff. split.
    + intros [H | (b' & Hb' & Hk & Hx)].
      * apply default_add_inv in H. destruct H as [H | [-> ->]]; [auto|].
        right. exists b. auto.
      * right. exists b'. auto.
    + intros [H | (b' & [<- | Hb'] & -> & ->)].
      * left. apply default_add_keeps, H.
      * left. apply default_add_has.
      * right. exists b'. auto.
Qed.

Lemma fold_left_filter {A B} (p : B -> bool) (f : A -> B -> A) (l : list B) :
  forall a,
    fold_left (fun a b => if p b then f a b else a) l a
    = fold_left f (filter p l) a.
Proof.
  induction l as [|b l IH]; intros a; simpl; [reflexivity|].
  destruct (p b); simpl; apply IH.
Qed.

Lemma stringof_iff (s alphabet : list string) :
  stringof s alphabet = true <-> forall sym, In sym s -> In sym alphabet.
Proof.
  unfold stringof. rewrite forallb_forall.
  split; intros H sym Hs; apply mem_In, H, Hs.
Qed.

(** [Grammar.__init__] on such a dictionary *)
Lemma Grammar_init_built (r : ruleset) s :
  built r -> In s (PyDict.keys r) ->
  exists g, Grammar_init r s = Return g /\ start g = s /\ well_formed g /\
            (forall k rhs, In (k, rhs) (rules g) -> rhs <> []) /\
            forall k x, has_alt k x (rules g) <-> has_alt k x r.
Proof.
  intros [Hnd Hr] Hs.
  destruct (Grammar_init_Return r s Hs) as (rhs & _ & Hg).
  eexists. split; [exact Hg|].
  destruct (Grammar_init_inv _ _ _ Hg) as (Hst & _ & Hget & Hkeys & Hnd').
  split; [exact Hst|]. split; [|split].
  - split; [apply Hnd', Hnd|]. split.
    + rewrite Hst. apply Hkeys, Hs.
    + intros lhs rhs' Hin. apply (Grammar_init_In _ _ _ _ Hg) in Hin.
      apply (Hr _ _ Hin).
  - intros k rhs' Hin. apply (Grammar_init_In _ _ _ _ Hg) in Hin.
    apply (Hr _ _ Hin).
  - intros k x. unfold has_alt. rewrite Hget. tauto.
Qed.

(** ** The filter [with_symbols] *)

Lemma with_symbols_inner symbols lhs (rhs : list (list string)) (d : ruleset) :
  built d ->
  built (fold_left (fun nr opt => if stringof opt symbols
                                  then default_add lhs opt nr else nr) rhs d) /\
  forall k x,
    has_alt k x (fold_left (fun nr opt => if stringof opt symbols
                                          then default_add lhs opt nr else nr)
                           rhs d)
    <-> has_alt k x d \/
        (k = lhs /\ In x rhs /\ forall sym, In sym x -> In sym symbols).
Proof.
  intros Hd.
  rewrite (fold_left_filter (fun opt => stringof opt symbols)
                            (fun nr opt => default_add lhs opt nr)).
  destruct (fold_default_add_spec (fun _ : list string => lhs) (fun opt => opt)
              (filter (fun opt => stringof opt symbols) rhs) d Hd)
    as [Hb Hiff].
  split; [exact Hb|]. intros k x. rewrite Hiff. split.
  - intros [H | (b & Hb' & -> & ->)]; [auto|]. right.
    apply filter_In in Hb'. destruct Hb' as [Hin Hs].
    split; [reflexivity|]. split; [exact Hin|].
    apply (proj1 (stringof_iff _ _) Hs).
  - intros [H | (-> & Hin & Hs)]; [auto|]. right. exists x.
    split; [|auto]. apply filter_In. split; [exact Hin|].
    apply stringof_iff, Hs.
Qed.

Lemma with_symbols_rules symbols (r : ruleset) : forall d : ruleset,
  built d ->
  built (fold_left
           (fun nr kv =>
              if PySet.mem (fst kv) symbols then
                fold_left (fun nr opt => if stringof opt symbols
                                         then default_add (fst kv) opt nr
                                         else nr)
                          (snd kv) nr
              else nr) r d) /\
  forall k x,
    has_alt k x
      (fold_left
         (fun nr kv =>
            if PySet.mem (fst kv) symbols then
              fold_left (fun nr opt => if stringof opt symbols
                                       then default_add (fst kv) opt nr
                                       else nr)
                        (snd kv) nr
            else nr) r d)
    <-> has_alt k x d \/ kept_alt symbols r k x.
Proof.
  induction r as [|[lhs rhs] r IH]; intros d Hd; cbn [fold_left fst snd].
  - split; [exact Hd|]. intros k x. split; [auto|].
    intros [H | (rhs & [] & _)]. exact H.
  - destruct (PySet.mem lhs symbols) eqn:Em.
    + destruct (with_symbols_inner symbols lhs rhs d Hd) as [Hb1 Hiff1].
      destruct (IH _ Hb1) as [Hb Hiff]. split; [exact Hb|].
      intros k x. rewrite Hiff, Hiff1. apply mem_In in Em. split.
      * intros [[H | (-> & Hin & Hs)] | (rhs0 & Hkv & Hk & Hx & Hs)].
        -- auto.
        -- right. exists rhs. split; [left; reflexivity | auto].
        -- right. exists rhs0. split; [right; exact Hkv | auto].
      * intros [H | (rhs0 & [[= <- <-] | Hkv] & Hk & Hx & Hs)].
        -- auto.
        -- left. right. auto.
        -- right. exists rhs0. auto.
    + destruct (IH _ Hd) as [Hb Hiff]. split; [exact Hb|].
      intros k x. rewrite Hiff. apply mem_false in Em. split.
      * intros [H | (rhs0 & Hkv & Hk & Hx & Hs)]; [auto|].
        right. exists rhs0. split; [right; exact Hkv | auto].
      * intros [H | (rhs0 & [[= <- <-] | Hkv] & Hk & Hx & Hs)].
        -- auto.
        -- contradiction.
        -- right. exists rhs0. auto.
Qed.

Lemma has_alt_key k x (d : ruleset) : has_alt k x d -> In k (PyDict.keys d).
Proof. intros (rhs & Hget & _). eapply get_Some_key, Hget. Qed.

Lemma built_key_has_alt k (d : ruleset) :
  built d -> In k (PyDict.keys d) -> exists x, has_alt k x d.
Proof.
  intros Hb Hk. destruct (key_get _ _ Hk) as [rhs Hget].
  destruct Hb as [_ Hr]. destruct (Hr _ _ (get_Some_In _ _ _ Hget)) as [_ Hne].
  destruct rhs as [|x rhs]; [contradiction|].
  exists x, (x :: rhs). split; [exact Hget | left; reflexivity].
Qed.

Lemma with_symbols_unfold g symbols :
  with_symbols g symbols
  = Grammar_init (filtered_rules symbols (rules g)) (start g).
Proof. reflexivity. Qed.

Lemma filtered_rules_spec symbols (r : ruleset) :
  built (filtered_rules symbols r) /\
  forall k x, has_alt k x (filtered_rules symbols r) <-> kept_alt symbols r k x.
Proof.
  destruct (with_symbols_rules symbols r [] built_nil) as [Hb Hiff].
  split; [exact Hb|]. intros k x. unfold filtered_rules. rewrite Hiff.
  split; [|auto].
  intros [(rhs & Hget & _) | H]; [discriminate | exact H].
Qed.

Lemma with_symbols_inv g symbols g' :
  with_symbols g symbols = Return g' ->
  start g' = start g /\ well_formed g' /\
  (forall k rhs, In (k, rhs) (rules g') -> rhs <> []) /\
  forall k x, has_alt k x (rules g') <-> kept_alt symbols (rules g) k x.
Proof.
  rewrite with_symbols_unfold. intros Hg.
  destruct (filtered_rules_spec symbols (rules g)) as [Hb Hiff].
  destruct (Grammar_init_inv _ _ _ Hg) as (_ & Hk & _).
  destruct (Grammar_init_built _ (start g) Hb Hk)
    as (g'' & Hg'' & Hst & Hwf & Hne & Hg'iff).
  rewrite Hg in Hg''. injection Hg'' as <-.
  split; [exact Hst|]. split; [exact Hwf|]. split; [exact Hne|].
  intros k x. rewrite Hg'iff. apply Hiff.
Qed.

Lemma with_symbols_Return g symbols x :
  kept_alt symbols (rules g) (start g) x ->
  exists g', with_symbols g symbols = Return g'.
Proof.
  intros Hx. rewrite with_symbols_unfold.
  destruct (filtered_rules_spec symbols (rules g)) as [Hb Hiff].
  apply Hiff in Hx.
  destruct (Grammar_init_Return _ _ (has_alt_key _ _ _ Hx)) as (rhs & _ & Hg).
  eexists. exact Hg.
Qed.

Lemma with_symbols_Raise g symbols :
  ~ (exists x, kept_alt symbols (rules g) (start g) x) ->
  with_symbols g symbols = Raise (KeyError (Some (start g))).
Proof.
  intros Hno. rewrite with_symbols_unfold.
  destruct (filtered_rules_spec symbols (rules g)) as [Hb Hiff].
  apply Grammar_init_Raise. intros Hk.
  destruct (built_key_has_alt _ _ Hb Hk) as [x Hx].
  apply Hno. exists x. apply Hiff, Hx.
Qed.

(** X13. [with_symbols] keeps, of every rule whose key is among the
    symbols given, the alternatives made of those symbols only, and
    nothing else; a key that keeps no alternative is dropped.  So the
    call returns a well-formed grammar when the start symbol keeps an
    alternative, and raises [KeyError] for the start symbol when it keeps
    none. *)
Theorem with_symbols_spec (g : Grammar) (symbols : list string) :
  ((exists x, kept_alt symbols (rules g) (start g) x) ->
   exists g', with_symbols g symbols = Return g' /\ start g' = start g /\
              well_formed g' /\
              (forall k rhs, In (k, rhs) (rules g') -> rhs <> []) /\
              forall k x, has_alt k x (rules g') <->
                          kept_alt symbols (rules g) k x) /\
  (~ (exists x, kept_alt symbols (rules g) (start g) x) ->
   with_symbols g symbols = Raise (KeyError (Some (start g)))).
Proof.
  split; [|apply with_symbols_Raise].
  intros [x Hx]. destruct (with_symbols_Return g symbols x Hx) as [g' Hg'].
  exists g'. split; [exact Hg'|]. apply (with_symbols_inv g symbols g' Hg').
Qed.

(** ** The reachable filter *)

Lemma kept_reachable g reach :
  well_formed g -> _reachable_symbols g = Return reach ->
  forall k x, kept_alt reach (rules g) k x <->
              Reachable g k /\ has_alt k x (rules g).
Proof.
  intros (Hnd & _ & _) Hr.
  destruct (reachable_symbols_exit g reach Hr) as (Hst & Hsound & Hclosed).
  assert (Hcomplete : forall X, Reachable g X -> In X reach).
  { induction 1 as [|X rhs opt sym _ IH Hget Hopt Hsym];
      [exact Hst | eapply Hclosed; eassumption]. }
  intros k x. split.
  - intros (rhs & Hkv & Hk & Hx & _). split; [apply Hsound, Hk|].
    exists rhs. split; [apply In_get; assumption | exact Hx].
  - intros [Hk (rhs & Hget & Hx)]. exists rhs.
    split; [apply get_Some_In, Hget|]. split; [apply Hcomplete, Hk|].
    split; [exact Hx|]. intros sym Hsym.
    apply (Hclosed k rhs x sym); auto.
Qed.

(** X14. On a well-formed grammar [with_reachable_symbols] returns
    exactly when the rule of the start symbol has an alternative, and
    raises [KeyError] for the start symbol otherwise.  The grammar
    returned is well-formed, has the same start symbol, and its
    alternatives are exactly the alternatives of the reachable
    nonterminals, whole and unchanged. *)
Theorem with_reachable_symbols_spec (g : Grammar) :
  well_formed g ->
  ((exists x, has_alt (start g) x (rules g)) ->
   exists g', with_reachable_symbols g = Return g' /\ start g' = start g /\
              well_formed g' /\
              forall k x, has_alt k x (rules g') <->
                          Reachable g k /\ has_alt k x (rules g)) /\
  (~ (exists x, has_alt (start g) x (rules g)) ->
   with_reachable_symbols g = Raise (KeyError (Some (start g)))).
Proof.
  intros Hwf. unfold with_reachable_symbols.
  destruct (reachable_symbols_returns g) as [reach Hr]. rewrite Hr.
  cbn [bind]. pose proof (kept_reachable g reach Hwf Hr) as Hkept. split.
  - intros [x Hx].
    assert (Hk : kept_alt reach (rules g) (start g) x)
      by (apply Hkept; split; [apply Reachable_start | exact Hx]).
    destruct (with_symbols_Return g reach x Hk) as [g' Hg'].
    destruct (with_symbols_inv g reach g' Hg') as (Hst & Hwf' & _ & Hiff).
    exists g'. split; [exact Hg'|]. split; [exact Hst|]. split; [exact Hwf'|].
    intros k x0. rewrite Hiff. apply Hkept.
  - intros Hno. apply with_symbols_Raise. intros [x Hx].
    apply Hno. exists x. apply Hkept, Hx.
Qed.

Lemma with_reachable_symbols_spec_witness :
  let g := mkGrammar [("S", [["a"; "A"]]); ("A", [["b"]]); ("B", [["S"]])] "S" in
  exists g', with_reachable_symbols g = Return g' /\ start g' = start g /\
             well_formed g' /\
             forall k x, has_alt k x (rules g') <->
                         Reachable g k /\ has_alt k x (rules g).
Proof.
  intros g. assert (Hwf : well_formed g) by concrete_well_formed.
  apply (proj1 (with_reachable_symbols_spec g Hwf)).
  exists ["a"; "A"], [["a"; "A"]]. split; [reflexivity | left; reflexivity].
Defined.

(** X15. Filtering the reachable symbols twice gives what filtering
    them once gives: on the grammar [with_reachable_symbols] returns, the
    operation returns again, a grammar with the same start symbol, the
    same keys and the same alternatives. *)
Theorem with_reachable_symbols_idempotent (g g' : Grammar) :
  well_formed g ->
  with_reachable_symbols g = Return g' ->
  exists g'', with_reachable_symbols g' = Return g'' /\ grammar_equal g' g''.
Proof.
  intros Hwf Hg'. unfold with_reachable_symbols in Hg'.
  destruct (reachable_symbols_returns g) as [reach Hr]. rewrite Hr in Hg'.
  cbn [bind] in Hg'.
  destruct (with_symbols_inv g reach g' Hg') as (Hst & Hwf' & Hne & Hiff).
  pose proof (kept_reachable g reach Hwf Hr) as Hkept.
  assert (Halt : forall k x, has_alt k x (rules g') <->
                             Reachable g k /\ has_alt k x (rules g)).
  { intros k x. rewrite Hiff. apply Hkept. }
  assert (Hreach : forall k, Reachable g k -> Reachable g' k).
  { induction 1 as [|X rhs opt sym HX IH Hget Hopt Hsym].
    - rewrite <- Hst. apply Reachable_start.
    - assert (H : has_alt X opt (rules g'))
        by (apply Halt; split; [exact HX | exists rhs; auto]).
      destruct H as (rhs' & Hget' & Hopt').
      apply (Reachable_step g' X rhs' opt sym); assumption. }
  unfold with_reachable_symbols.
  destruct (reachable_symbols_returns g') as [reach' Hr']. rewrite Hr'.
  cbn [bind]. pose proof (kept_reachable g' reach' Hwf' Hr') as Hkept'.
  destruct Hwf' as (Hnd' & Hstart' & Hsets').
  assert (Hbuilt' : built (rules g')).
  { split; [exact Hnd'|]. intros k rhs Hin.
    split; [apply (Hsets' _ _ Hin) | apply (Hne _ _ Hin)]. }
  destruct (built_key_has_alt _ _ Hbuilt' Hstart') as [x0 Hx0].
  assert (Hk0 : kept_alt reach' (rules g') (start g') x0)
    by (apply Hkept'; split; [apply Reachable_start | exact Hx0]).
  destruct (with_symbols_Return g' reach' x0 Hk0) as [g'' Hg''].
  destruct (with_symbols_inv g' reach' g'' Hg'')
    as (Hst'' & Hwf'' & Hne'' & Hiff'').
  exists g''. split; [exact Hg''|]. split; [symmetry; exact Hst''|].
  assert (Halt'' : forall k x, has_alt k x (rules g'') <->
                               has_alt k x (rules g')).
  { intros k x. rewrite Hiff'', Hkept'. split; [tauto|].
    intros H. split; [|exact H]. apply Hreach, (proj1 (Halt k x) H). }
  destruct Hwf'' as (Hnd'' & Hstart'' & Hsets'').
  assert (Hbuilt'' : built (rules g'')).
  { split; [exact Hnd''|]. intros k rhs Hin.
    split; [apply (Hsets'' _ _ Hin) | apply (Hne'' _ _ Hin)]. }
  intros lhs.
  destruct (PyDict.get lhs (rules g')) as [rhs1|] eqn:E1;
    destruct (PyDict.get lhs (rules g'')) as [rhs2|] eqn:E2.
  - intros opt. split; intros Hopt.
    + assert (H : has_alt lhs opt (rules g'')) by (apply Halt''; exists rhs1; auto).
      destruct H as (r & Hr2 & Hin). congruence.
    + assert (H : has_alt lhs opt (rules g')) by (apply Halt''; exists rhs2; auto).
      destruct H as (r & Hr1 & Hin). congruence.
  - destruct (built_key_has_alt lhs _ Hbuilt' (get_Some_key _ _ _ E1))
      as [x Hx].
    apply Halt'' in Hx. destruct Hx as (r & Hr2 & _). congruence.
  - destruct (built_key_has_alt lhs _ Hbuilt'' (get_Some_key _ _ _ E2))
      as [x Hx].
    apply Halt'' in Hx. destruct Hx as (r & Hr1 & _). congruence.
  - exact I.
Qed.

Lemma with_reachable_symbols_idempotent_witness :
  let g := mkGrammar [("S", [["a"; "A"]]); ("A", [["b"]]); ("B", [["S"]])] "S" in
  let g' := mkGrammar [("S", [["a"; "A"]]); ("A", [["b"]])] "S" in
  with_reachable_symbols g = Return g' /\
  exists g'', with_reachable_symbols g' = Return g'' /\ grammar_equal g' g''.
Proof.
  intros g g'. split; [reflexivity|].
  apply (with_reachable_symbols_idempotent g g');
    [concrete_well_formed | reflexivity].
Defined.

(** ** What [with_pair_rules] returns *)

Lemma enumerate_nth_error {A} (l : list A) : forall k n x,
  nth_error l n = Some x ->
  In (k + n, x) (combine (seq k (List.length l)) l).
Proof.
  induction l as [|y l IH]; intros k n x; destruct n as [|n]; simpl;
    try discriminate.
  - intros [= ->]. left. rewrite Nat.add_0_r. reflexivity.
  - intros Hn. right. rewrite <- Nat.add_succ_comm. apply IH, Hn.
Qed.

Lemma enumerate_In {A} (l : list A) x :
  In x l -> exists i, In (i, x) (enumerate l).
Proof.
  intros Hx. apply In_nth_error in Hx. destruct Hx as [n Hn].
  exists n. apply (enumerate_nth_error l 0 n x Hn).
Qed.

Lemma last_two_length {A} (l : list A) : List.length (last_two l) <= 2.
Proof. unfold last_two. rewrite length_skipn. lia. Qed.

Lemma last_two_short {A} (l : list A) : List.length l <= 2 -> last_two l = l.
Proof.
  intros Hl. unfold last_two.
  replace (List.length l - 2) with 0 by lia. reflexivity.
Qed.

Lemma default_add_binary lhs opt (d : ruleset) :
  binary d -> List.length opt <= 2 -> binary (default_add lhs opt d).
Proof.
  intros [Hb Hd] Hopt. split; [apply default_add_built, Hb|].
  intros k x Hx. apply default_add_inv in Hx.
  destruct Hx as [Hx | [_ ->]]; [apply (Hd k x Hx) | exact Hopt].
Qed.

Lemma pair_chain_binary lhs (d d' : ruleset) iopt :
  binary d -> pair_chain lhs d iopt = Return d' -> binary d'.
Proof.
  intros Hd. unfold pair_chain.
  destruct (foldM _ (seq 0 (List.length (snd iopt) - 2)) d)
    as [d1| |] eqn:E; cbn [bind]; try discriminate.
  intros [= <-]. apply default_add_binary; [|apply last_two_length].
  apply (foldM_preserves binary _ _) with (s := d) (s' := d1) in E;
    [exact E | | exact Hd].
  intros d0 j d0' Hd0.
  destruct (getindex (snd iopt) j) as [sym| |]; cbn [bind]; try discriminate.
  intros [= <-]. apply default_add_binary; [exact Hd0 | simpl; lia].
Qed.

Lemma pair_rules_binary (r d : ruleset) : pair_rules r = Return d -> binary d.
Proof.
  unfold pair_rules. intros Hd.
  apply (foldM_preserves binary _ _) with (s := []) (s' := d) in Hd;
    [exact Hd | |].
  - intros d0 kv d0' Hd0 Hkv.
    apply (foldM_preserves binary _ _) with (s := d0) (s' := d0') in Hkv;
      [exact Hkv | | exact Hd0].
    intros d1 iopt d1' Hd1 Hc. eapply pair_chain_binary; eassumption.
  - split; [apply built_nil|]. intros k x (rhs & Hget & _). discriminate.
Qed.

Lemma with_pair_rules_Return g x :
  has_alt (start g) x (rules g) ->
  exists d g', pair_rules (rules g) = Return d /\
               Grammar_init d (start g) = Return g' /\
               with_pair_rules g = Return g'.
Proof.
  intros (rhs & Hget & Hx). unfold with_pair_rules.
  destruct (pair_rules_emits (rules g)) as (d & Hd & Hem).
  destruct (enumerate_In rhs x Hx) as [i Hi].
  destruct (Hem (start g) rhs (i, x) (get_Some_In _ _ _ Hget) Hi) as [Hlast Hch].
  cbn [fst snd] in Hlast, Hch.
  assert (Hk : In (start g) (PyDict.keys d)).
  { destruct (Nat.ltb 2 (List.length x)) eqn:El.
    - apply Nat.ltb_lt in El.
      apply (has_alt_key _ _ _ (Hch 0 ltac:(lia))).
    - unfold last_lhs in Hlast. rewrite El in Hlast.
      apply (has_alt_key _ _ _ Hlast). }
  destruct (Grammar_init_Return d (start g) Hk) as (rhs' & _ & Hg).
  exists d. eexists. rewrite Hd. cbn [bind].
  split; [reflexivity|]. split; exact Hg.
Qed.

(** X16. When the rule of the start symbol has an alternative,
    [with_pair_rules] returns a well-formed grammar with the same start
    symbol in which no alternative has more than two symbols. *)
Theorem with_pair_rules_binary (g : Grammar) :
  (exists x, has_alt (start g) x (rules g)) ->
  exists g', with_pair_rules g = Return g' /\ start g' = start g /\
             well_formed g' /\
             forall k x, has_alt k x (rules g') -> List.length x <= 2.
Proof.
  intros [x Hx]. destruct (with_pair_rules_Return g x Hx) as (d & g' & Hd & Hg & Hw).
  exists g'. split; [exact Hw|].
  destruct (pair_rules_binary _ _ Hd) as [Hb Hlen].
  destruct (Grammar_init_inv _ _ _ Hg) as (_ & Hk & _).
  destruct (Grammar_init_built d (start g) Hb Hk)
    as (g'' & Hg'' & Hst & Hwf & _ & Hiff).
  rewrite Hg in Hg''. injection Hg'' as <-.
  split; [exact Hst|]. split; [exact Hwf|].
  intros k x0 H. apply (Hlen k x0), Hiff, H.
Qed.

Lemma with_pair_rules_binary_witness :
  let g := mkGrammar [("S", [["a"; "S"; "b"; "S"]; ["c"]])] "S" in
  exists g', with_pair_rules g = Return g' /\ start g' = start g /\
             well_formed g' /\
             forall k x, has_alt k x (rules g') -> List.length x <= 2.
Proof.
  intros g. apply (with_pair_rules_binary g).
  exists ["c"], [["a"; "S"; "b"; "S"]; ["c"]].
  split; [reflexivity | right; left; reflexivity].
Defined.

(** X17. The rules [with_pair_rules] writes for the alternative [opt]
    that the rule of [lhs] lists at index [i]: an alternative of at most
    two symbols stays an alternative of [lhs]; a longer one, of [n]
    symbols, gives [lhs -> (opt[0], lhs_i:1)], then
    [lhs_i:j -> (opt[j], lhs_i:j+1)] for [0 < j < n - 2], and its last
    two symbols become an alternative of [lhs_i:n-3], the helper before
    the last one named. *)
Theorem with_pair_rules_chain (g g' : Grammar) :
  with_pair_rules g = Return g' ->
  forall lhs rhs i opt,
    In (lhs, rhs) (rules g) -> In (i, opt) (enumerate rhs) ->
    (List.length opt <= 2 -> has_alt lhs opt (rules g')) /\
    (2 < List.length opt ->
     has_alt (aux_format lhs i (List.length opt - 3)) (last_two opt) (rules g') /\
     has_alt lhs [nth 0 opt EmptyString; aux_format lhs i 1] (rules g') /\
     forall j, 0 < j < List.length opt - 2 ->
               has_alt (aux_format lhs i j)
                       [nth j opt EmptyString; aux_format lhs i (j + 1)]
                       (rules g')).
Proof.
  unfold with_pair_rules. intros Hg lhs rhs i opt Hkv Hi.
  destruct (pair_rules_emits (rules g)) as (d & Hd & Hem).
  rewrite Hd in Hg. cbn [bind] in Hg.
  destruct (Grammar_init_inv _ _ _ Hg) as (_ & _ & Hget & _).
  assert (Hiff : forall k x, has_alt k x d -> has_alt k x (rules g')).
  { intros k x. unfold has_alt. rewrite Hget. tauto. }
  destruct (Hem lhs rhs (i, opt) Hkv Hi) as [Hlast Hch].
  cbn [fst snd] in Hlast, Hch. unfold last_lhs in Hlast. split.
  - intros Hl. apply Hiff.
    assert (El : Nat.ltb 2 (List.length opt) = false)
      by (apply Nat.ltb_ge; exact Hl).
    rewrite El, (last_two_short opt Hl) in Hlast. exact Hlast.
  - intros Hl.
    assert (El : Nat.ltb 2 (List.length opt) = true)
      by (apply Nat.ltb_lt; exact Hl).
    rewrite El in Hlast. split; [apply Hiff, Hlast|]. split.
    + apply Hiff. apply (Hch 0). lia.
    + intros j [Hj0 Hj]. apply Hiff. specialize (Hch j Hj).
      unfold chain_lhs in Hch.
      assert (Ej : Nat.ltb 0 j = true) by (apply Nat.ltb_lt; exact Hj0).
      rewrite Ej in Hch. exact Hch.
Qed.

Lemma with_pair_rules_chain_witness :
  let g := mkGrammar [("S", [["a"; "b"; "c"; "d"]])] "S" in
  let g' := mkGrammar [("S", [["a"; "S_0:1"]]);
                       ("S_0:1", [["b"; "S_0:2"]; ["c"; "d"]])] "S" in
  with_pair_rules g = Return g' /\
  has_alt (aux_format "S" 0 1) ["c"; "d"] (rules g') /\
  has_alt "S" ["a"; aux_format "S" 0 1] (rules g') /\
  forall j, 0 < j < 2 ->
            has_alt (aux_format "S" 0 j)
                    [nth j ["a"; "b"; "c"; "d"] EmptyString;
                     aux_format "S" 0 (j + 1)]
                    (rules g').
Proof.
  intros g g'. split; [reflexivity|].
  apply (with_pair_rules_chain g g' eq_refl "S" [["a"; "b"; "c"; "d"]] 0
                               ["a"; "b"; "c"; "d"]).
  - left; reflexivity.
  - left; reflexivity.
  - simpl; lia.
Defined.

(** ** What [with_unit_terminals] returns *)

Lemma nested_default_add_spec (f : list string -> list string) (r : ruleset) :
  forall d : ruleset,
    built d ->
    built (fold_left
             (fun nr kv =>
                fold_left (fun nr opt => default_add (fst kv) (f opt) nr)
                          (snd kv) nr) r d) /\
    forall k x',
      has_alt k x'
        (fold_left
           (fun nr kv =>
              fold_left (fun nr opt => default_add (fst kv) (f opt) nr)
                        (snd kv) nr) r d)
      <-> has_alt k x' d \/
          exists rhs x, In (k, rhs) r /\ In x rhs /\ x' = f x.
Proof.
  induction r as [|[lhs rhs] r IH]; intros d Hd; cbn [fold_left fst snd].
  - split; [exact Hd|]. intros k x'. split; [auto|].
    intros [H | (rhs & x & [] & _)]. exact H.
  - destruct (fold_default_add_spec (fun _ : list string => lhs) f rhs d Hd)
      as [Hb1 Hiff1].
    destruct (IH _ Hb1) as [Hb Hiff]. split; [exact Hb|].
    intros k x'. rewrite Hiff, Hiff1. split.
    + intros [[H | (x & Hx & -> & ->)] | (rhs0 & x & Hkv & Hx & ->)].
      * auto.
      * right. exists rhs, x. split; [left; reflexivity | auto].
      * right. exists rhs0, x. split; [right; exact Hkv | auto].
    + intros [H | (rhs0 & x & [[= <- <-] | Hkv] & Hx & ->)].
      * auto.
      * left. right. exists x. auto.
      * right. exists rhs0, x. auto.
Qed.

Lemma unit_terminal_rules_spec g :
  built (unit_terminal_rules g) /\
  forall k x',
    has_alt k x' (unit_terminal_rules g) <->
    (exists t, In t (terminals g) /\ k = aux_format_terminal t /\ x' = [t]) \/
    (exists rhs x, In (k, rhs) (rules g) /\ In x rhs /\
                   x' = lift_terminals g x).
Proof.
  destruct (fold_default_add_spec aux_format_terminal (fun t => [t])
              (terminals g) [] built_nil) as [Hb0 Hiff0].
  destruct (nested_default_add_spec (lift_terminals g) (rules g) _ Hb0)
    as [Hb Hiff].
  split; [exact Hb|]. intros k x'.
  change (unit_terminal_rules g) with
    (fold_left
       (fun nr kv =>
          fold_left (fun nr opt => default_add (fst kv) (lift_terminals g opt) nr)
                    (snd kv) nr)
       (rules g)
       (fold_left (fun nr t => default_add (aux_format_terminal t) [t] nr)
                  (terminals g) [])).
  rewrite Hiff, Hiff0. split.
  - intros [[(rhs & Hget & _) | H] | H]; [discriminate | auto | auto].
  - intros [H | H]; auto.
Qed.

(** X18. When the rule of the start symbol has an alternative,
    [with_unit_terminals] returns a well-formed grammar with the same
    start symbol whose alternatives are exactly these: [(t,)] under the
    key [t#] for every terminal [t], and under every key of the grammar
    given its alternatives with every terminal [t] replaced by [t#],
    whatever the length of the alternative. *)
Theorem with_unit_terminals_spec (g : Grammar) :
  (exists x, has_alt (start g) x (rules g)) ->
  exists g', with_unit_terminals g = Return g' /\ start g' = start g /\
             well_formed g' /\
             forall k x',
               has_alt k x' (rules g') <->
               (exists t, In t (terminals g) /\
                          k = aux_format_terminal t /\ x' = [t]) \/
               (exists rhs x, In (k, rhs) (rules g) /\ In x rhs /\
                              x' = lift_terminals g x).
Proof.
  intros (x & rhs & Hget & Hx). unfold with_unit_terminals.
  destruct (unit_terminal_rules_spec g) as [Hb Hiff].
  assert (Hk : In (start g) (PyDict.keys (unit_terminal_rules g))).
  { apply (has_alt_key _ (lift_terminals g x)). apply Hiff. right.
    exists rhs, x. split; [apply get_Some_In, Hget | auto]. }
  destruct (Grammar_init_built _ (start g) Hb Hk)
    as (g' & Hg' & Hst & Hwf & _ & Hg'iff).
  exists g'. split; [exact Hg'|]. split; [exact Hst|]. split; [exact Hwf|].
  intros k x'. rewrite Hg'iff. apply Hiff.
Qed.

Lemma with_unit_terminals_spec_witness :
  let g := mkGrammar [("S", [["a"; "S"]; ["b"]])] "S" in
  exists g', with_unit_terminals g = Return g' /\ start g' = start g /\
             well_formed g' /\
             forall k x',
               has_alt k x' (rules g') <->
               (exists t, In t (terminals g) /\
                          k = aux_format_terminal t /\ x' = [t]) \/
               (exists rhs x, In (k, rhs) (rules g) /\ In x rhs /\
                              x' = lift_terminals g x).
Proof.
  intros g. apply (with_unit_terminals_spec g).
  exists ["b"], [["a"; "S"]; ["b"]].
  split; [reflexivity | right; left; reflexivity].
Defined.

(** ** What [from_string] returns *)

Lemma split_not_nil sep s : split sep s <> [].
Proof.
  unfold split. destruct (String.length s) as [|n]; simpl; [discriminate|].
  destruct (find sep s) as [[before after]|]; discriminate.
Qed.

Lemma parse_option_chars option sym :
  In sym (parse_option option) -> String.length sym = 1.
Proof.
  unfold parse_option. destruct (eqv (strip option) "%"); [intros []|].
  unfold tuple. intros Hin. apply in_map_iff in Hin.
  destruct Hin as (c & <- & _). reflexivity.
Qed.

Lemma from_string_record_step st i record st' :
  parsed st -> from_string_record st (i, record) = Return st' ->
  parsed st' /\
  (forall s0, snd st = Some s0 -> snd st' = Some s0) /\
  (strip record = EmptyString -> st' = st) /\
  (strip record <> EmptyString -> snd st = None ->
   snd st' = Some (record_lhs record)).
Proof.
  intros (Hb & Hstart & Hchars). unfold from_string_record, record_lhs.
  cbn [fst snd]. destruct (eqv (strip record) EmptyString) eqn:E.
  - intros [= <-]. apply eqv_iff in E.
    split; [split; [exact Hb | split; assumption]|].
    split; [auto|]. split; [auto | contradiction].
  - apply eqv_false in E.
    destruct (partition "->" (strip record)) as [[lhs sep] rhs].
    cbn [fst snd]. destruct (eqv rhs EmptyString); [discriminate|].
    intros [= <-]. cbn [fst snd].
    destruct (fold_default_add_spec (fun _ : string => strip lhs) parse_option
                (split "|" (strip rhs)) (fst st) Hb) as [Hb' Hiff].
    assert (Hlhs : In (strip lhs)
                      (PyDict.keys
                         (fold_left
                            (fun rules option =>
                               default_add (strip lhs) (parse_option option) rules)
                            (split "|" (strip rhs)) (fst st)))).
    { destruct (split "|" (strip rhs)) as [|b l] eqn:Es;
        [exfalso; apply (split_not_nil _ _ Es)|].
      apply (has_alt_key _ (parse_option b)). apply Hiff. right.
      exists b. split; [left; reflexivity | auto]. }
    split; [split; [exact Hb' | split]|].
    + intros s0. destruct (snd st) as [s1|] eqn:Est.
      * intros [= <-]. destruct (built_key_has_alt s1 _ Hb (Hstart s1 eq_refl))
          as [x Hx].
        apply (has_alt_key _ x). apply Hiff. left; exact Hx.
      * intros [= <-]. exact Hlhs.
    + intros k x sym Hx Hsym. apply Hiff in Hx.
      destruct Hx as [Hx | (b & _ & _ & ->)].
      * apply (Hchars k x sym Hx Hsym).
      * apply (parse_option_chars b sym Hsym).
    + split; [|split].
      * intros s0 Hs0. rewrite Hs0. reflexivity.
      * intros Hblank. contradiction.
      * intros _ Hnone. rewrite Hnone. reflexivity.
Qed.

Lemma from_string_records_accepted recs : forall k st,
  parsed st ->
  (forall r, In r recs -> record_rejected r = false) ->
  exists st',
    foldM from_string_record (combine (seq k (List.length recs)) recs) st
    = Return st' /\
    parsed st' /\
    (forall s0, snd st = Some s0 -> snd st' = Some s0) /\
    ((forall r, In r recs -> strip r = EmptyString) -> st' = st) /\
    (snd st = None ->
     forall before r after,
       recs = before ++ r :: after ->
       (forall b, In b before -> strip b = EmptyString) ->
       strip r <> EmptyString ->
       snd st' = Some (record_lhs r)).
Proof.
  induction recs as [|r0 recs IH]; intros k st Hst Hok.
  - exists st. simpl. split; [reflexivity|]. split; [exact Hst|].
    split; [auto|]. split; [auto|].
    intros _ before r after Heq. destruct before; discriminate.
  - cbn [List.length seq combine foldM].
    destruct (from_string_record_accepted st k r0 (Hok r0 (or_introl eq_refl)))
      as [st1 Hst1].
    rewrite Hst1. cbn [bind].
    destruct (from_string_record_step st k r0 st1 Hst Hst1)
      as (Hp1 & Hkeep1 & Hblank1 & Hfirst1).
    destruct (IH (S k) st1 Hp1 (fun r Hr => Hok r (or_intror Hr)))
      as (st' & Hst' & Hp' & Hkeep' & Hblank' & Hfirst').
    exists st'. split; [exact Hst'|]. split; [exact Hp'|]. split; [|split].
    + intros s0 Hs0. apply Hkeep', Hkeep1, Hs0.
    + intros Hall. rewrite Hblank' by (intros r Hr; apply Hall; right; exact Hr).
      apply Hblank1, Hall. left; reflexivity.
    + intros Hnone before r after Heq Hbefore Hr.
      destruct before as [|b before]; simpl in Heq; injection Heq as <- ->.
      * apply Hkeep', Hfirst1; assumption.
      * assert (Hb0 : strip r0 = EmptyString)
          by (apply Hbefore; left; reflexivity).
        rewrite (Hblank1 Hb0) in *.
        apply (Hfirst' Hnone before r after eq_refl); [|exact Hr].
        intros b Hb. apply Hbefore. right; exact Hb.
Qed.

Lemma parsed_initial : parsed ([], None).
Proof.
  split; [apply built_nil|]. split; [discriminate|].
  intros k x sym (rhs & Hget & _). discriminate.
Qed.

(** X20. When no record of the text is rejected, [from_string] raises
    [KeyError] for the start symbol [None] if every record is blank (the
    empty text is such a text), and otherwise returns a grammar whose
    start symbol is the stripped left-hand side of the first record that
    is not blank. *)
Theorem from_string_accepts (s : string) :
  (forall r, In r (split ";;" s) -> record_rejected r = false) ->
  ((forall r, In r (split ";;" s) -> strip r = EmptyString) ->
   from_string s = Raise (KeyError None)) /\
  (forall before r after,
      split ";;" s = before ++ r :: after ->
      (forall b, In b before -> strip b = EmptyString) ->
      strip r <> EmptyString ->
      exists g, from_string s = Return g /\ start g = record_lhs r).
Proof.
  intros Hok. unfold from_string, enumerate.
  destruct (from_string_records_accepted (split ";;" s) 0 ([], None)
              parsed_initial Hok)
    as (st & Hst & Hp & _ & Hblank & Hfirst).
  rewrite Hst. cbn [bind]. split.
  - intros Hall. rewrite (Hblank Hall). reflexivity.
  - intros before r after Heq Hbefore Hr.
    rewrite (Hfirst eq_refl before r after Heq Hbefore Hr).
    destruct Hp as (Hb & Hstart & _).
    pose proof (Hstart _ (Hfirst eq_refl before r after Heq Hbefore Hr)) as Hk.
    destruct (Grammar_init_Return _ _ Hk) as (rhs & _ & Hg).
    eexists. split; [exact Hg | reflexivity].
Qed.

Lemma from_string_accepts_witness :
  exists g, from_string " ;; S -> aSb | % ;; A -> b" = Return g /\
            start g = record_lhs " S -> aSb | % ".
Proof.
  assert (Hok : forall r, In r (split ";;" " ;; S -> aSb | % ;; A -> b") ->
                          record_rejected r = false).
  { intros r [<- | [<- | [<- | []]]]; reflexivity. }
  apply (proj2 (from_string_accepts " ;; S -> aSb | % ;; A -> b" Hok)
               [" "] " S -> aSb | % " [" A -> b"]).
  - reflexivity.
  - intros b [<- | []]. reflexivity.
  - discriminate.
Defined.

(** X21. Every grammar [from_string] returns is well-formed, has no
    rule with an empty set of alternatives, and has only one-character
    symbols in its alternatives: the text of an alternative is read
    character by character, whitespace between the symbols included. *)
Theorem from_string_shape (s : string) (g : Grammar) :
  from_string s = Return g ->
  well_formed g /\
  (forall k rhs, In (k, rhs) (rules g) -> rhs <> []) /\
  forall k x sym, has_alt k x (rules g) -> In sym x -> String.length sym = 1.
Proof.
  unfold from_string.
  destruct (foldM from_string_record (enumerate (split ";;" s)) ([], None))
    as [st| |] eqn:E; cbn [bind]; try discriminate.
  apply (foldM_preserves parsed _ _) with (s := ([], None)) (s' := st) in E;
    [| | apply parsed_initial].
  - destruct E as (Hb & Hstart & Hchars).
    destruct (snd st) as [s0|]; [|discriminate]. intros Hg.
    destruct (Grammar_init_built _ s0 Hb (Hstart s0 eq_refl))
      as (g' & Hg' & _ & Hwf & Hne & Hiff).
    rewrite Hg in Hg'. injection Hg' as <-.
    split; [exact Hwf|]. split; [exact Hne|].
    intros k x sym Hx. apply (Hchars k x sym), Hiff, Hx.
  - intros st0 [i record] st1 Hst0 Hrec.
    apply (from_string_record_step st0 i record st1 Hst0 Hrec).
Qed.

Lemma from_string_shape_witness :
  let g := mkGrammar [("S", [["a"; " "; "S"]; []]); ("A", [["b"]])] "S" in
  from_string "S -> a S | % ;; A -> b" = Return g /\
  well_formed g /\
  (forall k rhs, In (k, rhs) (rules g) -> rhs <> []) /\
  forall k x sym, has_alt k x (rules g) -> In sym x -> String.length sym = 1.
Proof.
  intros g. split; [reflexivity|].
  apply (from_string_shape "S -> a S | % ;; A -> b" g). reflexivity.
Defined.

(** ** Pipelines run their actions in turn *)

Lemma run_cons a (p : list action) g :
  run (a :: p) g = (g' <- run_action a g ;; run p g').
Proof. reflexivity. Qed.

Lemma run_app (p q : list action) : forall g,
  run (p ++ q) g = (g' <- run p g ;; run q g').
Proof.
  induction p as [|a p IH]; intros g; [reflexivity|].
  cbn [app]. rewrite !run_cons.
  destruct (run_action a g) as [g1| |]; cbn [bind]; try reflexivity.
  apply IH.
Qed.

(** X22. A pipeline extended with [add_actions] runs the actions it had
    and then, on the grammar they return, the actions added; an exception
    of the first part ends the run.  A pipeline added as one action runs
    as its own actions do. *)
Theorem run_add_actions (p : Pipeline) (actions : list action) (g : Grammar) :
  run (add_actions p actions) g = (g' <- run p g ;; run actions g') /\
  forall q, run (add_actions p [Nested q]) g = (g' <- run p g ;; run q g').
Proof.
  unfold add_actions. split; [apply run_app|]. intros q. rewrite run_app.
  destruct (run p g) as [g1| |]; cbn [bind]; try reflexivity.
  rewrite run_cons. apply bind_Return_r.
Qed.

(** ** [sorted] does not depend on the order of what it is given *)

Section SortedUnique.
Context {A : Type} (ltb : A -> A -> bool).
Hypothesis ltb_irrefl : forall x, ltb x x = false.
Hypothesis ltb_trans :
  forall x y z, ltb x y = true -> ltb y z = true -> ltb x z = true.
Hypothesis ltb_total : forall x y, x <> y -> ltb x y = true \/ ltb y x = true.

Lemma insert_sorted_increasing x l :
  increasing ltb l -> ~ In x l -> increasing ltb (insert_sorted ltb x l).
Proof.
  induction l as [|y l IH]; simpl; intros Hl Hx.
  - split; [intros y [] | exact I].
  - destruct Hl as [Hy Hl]. destruct (ltb x y) eqn:E.
    + split; [|split; assumption].
      intros z [<- | Hz]; [exact E|].
      eapply ltb_trans; [exact E | apply Hy, Hz].
    + simpl. split.
      * intros z Hz.
        apply (Permutation_in _ (insert_sorted_Permutation ltb x l)) in Hz.
        destruct Hz as [<- | Hz]; [|apply Hy, Hz].
        destruct (ltb_total x y) as [H | H]; [| congruence | exact H].
        intros ->. apply Hx. left; reflexivity.
      * apply IH; [exact Hl | tauto].
Qed.

Lemma sorted_increasing l : NoDup l -> increasing ltb (sorted ltb l).
Proof.
  unfold sorted.
  assert (H : forall acc,
             increasing ltb acc -> NoDup l ->
             (forall x, In x l -> ~ In x acc) ->
             increasing ltb
               (fold_left (fun acc x => insert_sorted ltb x acc) l acc)).
  { induction l as [|x l IH]; intros acc Hacc Hnd Hdis; simpl; [exact Hacc|].
    inversion Hnd as [|? ? Hx Hnd']; subst. apply IH.
    - apply insert_sorted_increasing; [exact Hacc|].
      apply Hdis. left; reflexivity.
    - exact Hnd'.
    - intros y Hy Hin.
      apply (Permutation_in _ (insert_sorted_Permutation ltb x acc)) in Hin.
      destruct Hin as [<- | Hin]; [contradiction|].
      apply (Hdis y); [right; exact Hy | exact Hin]. }
  intros Hnd. apply H; [exact I | exact Hnd | intros x _ []].
Qed.

Lemma increasing_unique : forall l1 l2,
  increasing ltb l1 -> increasing ltb l2 ->
  (forall x, In x l1 <-> In x l2) -> l1 = l2.
Proof.
  induction l1 as [|x l1 IH]; intros [|y l2] H1 H2 Hiff.
  - reflexivity.
  - exfalso. apply (proj2 (Hiff y)). left; reflexivity.
  - exfalso. apply (proj1 (Hiff x)). left; reflexivity.
  - destruct H1 as [Hx H1]. destruct H2 as [Hy H2].
    assert (Hno : forall a b, ltb a b = true -> ltb b a = true -> False).
    { intros a b Hab Hba. pose proof (ltb_trans a b a Hab Hba) as H.
      rewrite ltb_irrefl in H. discriminate. }
    assert (Exy : x = y).
    { destruct (proj1 (Hiff x) (or_introl eq_refl)) as [E | Hin]; [auto|].
      destruct (proj2 (Hiff y) (or_introl eq_refl)) as [E | Hin']; [auto|].
      exfalso. apply (Hno x y); [apply Hx, Hin' | apply Hy, Hin]. }
    subst y. f_equal. apply IH; [exact H1 | exact H2|].
    intros z. split; intros Hz.
    + destruct (proj1 (Hiff z) (or_intror Hz)) as [E | Hin]; [|exact Hin].
      subst z. pose proof (Hx x Hz) as H. rewrite ltb_irrefl in H.
      discriminate.
    + destruct (proj2 (Hiff z) (or_intror Hz)) as [E | Hin]; [|exact Hin].
      subst z. pose proof (Hy x Hz) as H. rewrite ltb_irrefl in H.
      discriminate.
Qed.

Lemma sorted_unique l1 l2 :
  NoDup l1 -> NoDup l2 -> (forall x, In x l1 <-> In x l2) ->
  sorted ltb l1 = sorted ltb l2.
Proof.
  intros N1 N2 Hiff.
  apply increasing_unique; [apply sorted_increasing, N1
                           | apply sorted_increasing, N2 |].
  intros x. rewrite !sorted_In. apply Hiff.
Qed.
End SortedUnique.

(** *** The order of strings and of tuples of strings *)

Lemma string_compare_refl s : String.compare s s = Eq.
Proof.
  induction s as [|c s IH]; cbn [String.compare]; [reflexivity|].
  unfold Ascii.compare. rewrite N.compare_refl. exact IH.
Qed.

Lemma string_ltb_irrefl s : String.ltb s s = false.
Proof. unfold String.ltb. rewrite string_compare_refl. reflexivity. Qed.

Lemma string_compare_trans : forall a b c,
  String.compare a b = Lt -> String.compare b c = Lt ->
  String.compare a c = Lt.
Proof.
  induction a as [|x a IH]; intros [|y b] [|z c]; cbn [String.compare];
    try discriminate; auto.
  unfold Ascii.compare.
  destruct (N.compare_spec (N_of_ascii x) (N_of_ascii y)) as [Exy | Lxy | Gxy];
    try discriminate;
    destruct (N.compare_spec (N_of_ascii y) (N_of_ascii z))
      as [Eyz | Lyz | Gyz];
    try discriminate; intros H1 H2.
  - rewrite Exy, Eyz, N.compare_refl. apply (IH b c H1 H2).
  - rewrite Exy, (proj2 (N.compare_lt_iff _ _) Lyz). reflexivity.
  - rewrite <- Eyz, (proj2 (N.compare_lt_iff _ _) Lxy). reflexivity.
  - rewrite (proj2 (N.compare_lt_iff _ _) (N.lt_trans _ _ _ Lxy Lyz)).
    reflexivity.
Qed.

Lemma string_ltb_trans x y z :
  String.ltb x y = true -> String.ltb y z = true -> String.ltb x z = true.
Proof.
  unfold String.ltb.
  destruct (String.compare x y) eqn:E1; try discriminate.
  destruct (String.compare y z) eqn:E2; try discriminate.
  rewrite (string_compare_trans x y z E1 E2). reflexivity.
Qed.

Lemma string_ltb_total x y :
  x <> y -> String.ltb x y = true \/ String.ltb y x = true.
Proof.
  intros Hn. unfold String.ltb. rewrite (String.compare_antisym x y).
  destruct (String.compare y x) eqn:E; simpl; auto.
  apply String.compare_eq_iff in E. congruence.
Qed.

Lemma alt_ltb_irrefl (a : list string) : alt_ltb a a = false.
Proof.
  induction a as [|x a IH]; cbn [alt_ltb]; [reflexivity|].
  rewrite eqv_refl. exact IH.
Qed.

Lemma alt_ltb_trans : forall a b c : list string,
  alt_ltb a b = true -> alt_ltb b c = true -> alt_ltb a c = true.
Proof.
  induction a as [|x a IH]; intros [|y b] [|z c]; cbn [alt_ltb];
    try discriminate; auto.
  destruct (eqv x y) eqn:Exy; destruct (eqv y z) eqn:Eyz.
  - apply eqv_iff in Exy. apply eqv_iff in Eyz. subst.
    rewrite eqv_refl. apply IH.
  - apply eqv_iff in Exy. subst. rewrite Eyz. auto.
  - apply eqv_iff in Eyz. subst. rewrite Exy. auto.
  - intros H1 H2. pose proof (string_ltb_trans x y z H1 H2) as H.
    destruct (eqv x z) eqn:Exz; [|exact H].
    apply eqv_iff in Exz. subst.
    rewrite string_ltb_irrefl in H. discriminate.
Qed.

Lemma alt_ltb_total : forall a b : list string,
  a <> b -> alt_ltb a b = true \/ alt_ltb b a = true.
Proof.
  induction a as [|x a IH]; intros [|y b] Hn; cbn [alt_ltb]; auto.
  destruct (eqv x y) eqn:Exy.
  - apply eqv_iff in Exy. subst. rewrite eqv_refl. apply IH. congruence.
  - assert (Eyx : eqv y x = false).
    { apply eqv_false. apply eqv_false in Exy. congruence. }
    rewrite Eyx. apply string_ltb_total. apply eqv_false, Exy.
Qed.

(** *** The text of [to_string] *)

Lemma format_order lhs (rhs1 rhs2 : list (list string)) :
  NoDup rhs1 -> NoDup rhs2 -> (forall x, In x rhs1 <-> In x rhs2) ->
  format lhs rhs1 = format lhs rhs2.
Proof.
  intros N1 N2 Hiff. unfold format.
  rewrite (sorted_unique alt_ltb alt_ltb_irrefl alt_ltb_trans alt_ltb_total
                         rhs1 rhs2 N1 N2 Hiff).
  reflexivity.
Qed.

Lemma map_fst_sorted (r : ruleset) :
  map fst (sorted item_ltb r) = sorted String.ltb (map fst r).
Proof.
  assert (Hins : forall kv (l : ruleset),
             map fst (insert_sorted item_ltb kv l)
             = insert_sorted String.ltb (fst kv) (map fst l)).
  { intros kv l. induction l as [|kv' l IH]; simpl; [reflexivity|].
    unfold item_ltb at 1. destruct (String.ltb (fst kv) (fst kv'));
      simpl; [reflexivity|]. f_equal. exact IH. }
  unfold sorted.
  assert (H : forall (acc : ruleset),
             map fst (fold_left (fun acc x => insert_sorted item_ltb x acc) r acc)
             = fold_left (fun acc x => insert_sorted String.ltb x acc)
                         (map fst r) (map fst acc)).
  { induction r as [|kv r IH]; intros acc; simpl; [reflexivity|].
    rewrite IH, Hins. reflexivity. }
  apply (H []).
Qed.

Lemma fold_format_equal st : forall (l1 l2 : ruleset) init,
  map fst l1 = map fst l2 ->
  (forall kv1 kv2, In kv1 l1 -> In kv2 l2 -> fst kv1 = fst kv2 ->
                   format (fst kv1) (snd kv1) = format (fst kv2) (snd kv2)) ->
  fold_left (fun s kv => if negb (eqv (fst kv) st)
                         then (s ++ format (fst kv) (snd kv))%string else s)
            l1 init
  = fold_left (fun s kv => if negb (eqv (fst kv) st)
                           then (s ++ format (fst kv) (snd kv))%string else s)
              l2 init.
Proof.
  induction l1 as [|kv1 l1 IH]; intros [|kv2 l2] init Hk Hf;
    try discriminate; [reflexivity|].
  simpl in Hk. injection Hk as Hk1 Hk. cbn [fold_left].
  rewrite (Hf kv1 kv2 (or_introl eq_refl) (or_introl eq_refl) Hk1), Hk1.
  apply IH; [exact Hk|].
  intros a b Ha Hb. apply Hf; right; assumption.
Qed.

Lemma same_rules_keys (r1 r2 : ruleset) k :
  same_rules r1 r2 -> (In k (PyDict.keys r1) <-> In k (PyDict.keys r2)).
Proof.
  intros H. specialize (H k).
  destruct (PyDict.get k r1) as [v1|] eqn:E1;
    destruct (PyDict.get k r2) as [v2|] eqn:E2; try contradiction.
  - split; intros _; eapply get_Some_key; eassumption.
  - apply get_None in E1. apply get_None in E2. tauto.
Qed.

(** X23. The text [to_string] writes depends on the grammar only, not
    on the order in which the dictionary lists its keys or a set lists
    its alternatives: two well-formed grammars with the same start
    symbol, the same keys and the same alternatives under every key are
    written as the same text. *)
Theorem to_string_order_independent (g1 g2 : Grammar) :
  well_formed g1 -> well_formed g2 -> grammar_equal g1 g2 ->
  exists text, to_string g1 = Return text /\ to_string g2 = Return text.
Proof.
  intros (Hnd1 & Hs1 & Hsets1) (Hnd2 & Hs2 & Hsets2) [Hst Hsame].
  assert (Hfmt : forall k rhs1 rhs2,
             In (k, rhs1) (rules g1) -> In (k, rhs2) (rules g2) ->
             format k rhs1 = format k rhs2).
  { intros k rhs1 rhs2 H1 H2.
    apply format_order; [apply (Hsets1 _ _ H1) | apply (Hsets2 _ _ H2) |].
    apply In_get in H1; [|exact Hnd1]. apply In_get in H2; [|exact Hnd2].
    specialize (Hsame k). rewrite H1, H2 in Hsame. exact Hsame. }
  destruct (key_get _ _ Hs1) as [rhs1 Hg1].
  destruct (key_get _ _ Hs2) as [rhs2 Hg2].
  unfold to_string, PyDict.getitem. rewrite Hg1, Hg2. cbn [bind].
  eexists. split; [reflexivity|]. f_equal. rewrite <- Hst.
  rewrite <- (Hfmt (start g1) rhs1 rhs2);
    [| apply get_Some_In, Hg1 | rewrite Hst; apply get_Some_In, Hg2].
  symmetry. apply fold_format_equal.
  - rewrite !map_fst_sorted.
    apply (sorted_unique String.ltb string_ltb_irrefl string_ltb_trans
                         string_ltb_total); [exact Hnd1 | exact Hnd2|].
    intros k. apply same_rules_keys, Hsame.
  - intros [k1 v1] [k2 v2] H1 H2 Hk. cbn [fst snd] in *. subst k2.
    apply Hfmt; [apply (sorted_In item_ltb), H1 | apply (sorted_In item_ltb), H2].
Qed.

Lemma to_string_order_independent_witness :
  let g1 := mkGrammar [("S", [["a"; "S"]; []]); ("B", [["b"]; ["S"; "B"]]);
                       ("A", [["a"]])] "S" in
  let g2 := mkGrammar [("S", [[]; ["a"; "S"]]); ("A", [["a"]]);
                       ("B", [["S"; "B"]; ["b"]])] "S" in
  exists text, to_string g1 = Return text /\ to_string g2 = Return text.
Proof.
  intros g1 g2. apply (to_string_order_independent g1 g2).
  - concrete_well_formed.
  - concrete_well_formed.
  - split; [reflexivity|]. intros lhs. cbn [rules g1 g2 PyDict.get].
    repeat match goal with
           | |- context [eqv lhs ?k] => destruct (eqv lhs k) eqn:?
           end;
      repeat match goal with
             | H : eqv _ _ = true |- _ => apply eqv_iff in H
             end;
      try congruence; try exact I; intros opt; simpl; tauto.
Defined.

(** ** The productive symbols *)

Lemma productive_pass_exact (r : ruleset) productive T :
  productive_pass r productive (py_frozenset T)
  = if existsb (fun kv => existsb (fun opt => stringof opt productive) (snd kv)) r
    then Raise frozenset_has_no_add
    else Return (py_frozenset T).
Proof.
  unfold productive_pass.
  induction r as [|kv r IH]; cbn [foldM existsb]; [reflexivity|].
  assert (Hin : forall rhs : list (list string),
             foldM (fun np opt =>
                      if stringof opt productive
                      then add_method (fst kv) np else Return np)
                   rhs (py_frozenset T)
             = if existsb (fun opt => stringof opt productive) rhs
               then Raise frozenset_has_no_add
               else Return (py_frozenset T)).
  { induction rhs as [|opt rhs IHr]; cbn [foldM existsb]; [reflexivity|].
    destruct (stringof opt productive); cbn [add_method bind orb];
      [reflexivity | exact IHr]. }
  rewrite Hin.
  destruct (existsb (fun opt => stringof opt productive) (snd kv));
    cbn [bind orb]; [reflexivity | exact IH].
Qed.

Lemma equal_nil {A} `{EqType A} (s : list A) :
  PySet.equal s [] = true <-> s = [].
Proof.
  rewrite equal_iff. split.
  - intros Hiff. destruct s as [|x s]; [reflexivity|].
    destruct (proj1 (Hiff x) (or_introl eq_refl)).
  - intros ->. tauto.
Qed.

(** X24. [_productive_symbols] raises [AttributeError] exactly when the
    grammar has a terminal and an alternative made of terminals only (the
    empty alternative is one): the first [add] meets the [frozenset] of
    the terminals.  On every other grammar it returns the set of the
    terminals, to which no nonterminal was added. *)
Theorem productive_symbols_spec (g : Grammar) :
  (_productive_symbols g = Raise frozenset_has_no_add <->
   terminals g <> [] /\
   exists lhs rhs opt,
     In (lhs, rhs) (rules g) /\ In opt rhs /\ terminal_alt g opt) /\
  (_productive_symbols g <> Raise frozenset_has_no_add ->
   _productive_symbols g = Return (terminals g)).
Proof.
  assert (Hex : existsb (fun kv => existsb (fun opt => stringof opt (terminals g))
                                           (snd kv)) (rules g) = true <->
                exists lhs rhs opt,
                  In (lhs, rhs) (rules g) /\ In opt rhs /\ terminal_alt g opt).
  { rewrite existsb_exists. split.
    - intros ([lhs rhs] & Hkv & Hopt). apply existsb_exists in Hopt.
      destruct Hopt as (opt & Hopt & Hs). exists lhs, rhs, opt.
      split; [exact Hkv|]. split; [exact Hopt|].
      exact (proj1 (stringof_iff _ _) Hs).
    - intros (lhs & rhs & opt & Hkv & Hopt & Hs). exists (lhs, rhs).
      split; [exact Hkv|]. apply existsb_exists. exists opt.
      split; [exact Hopt|]. exact (proj2 (stringof_iff _ _) Hs). }
  unfold _productive_symbols. cbn [productive_loop elements deepcopy].
  destruct (PySet.equal (terminals g) []) eqn:E.
  - apply equal_nil in E. rewrite E. split.
    + split; [discriminate|]. intros [Hne _]. contradiction.
    + reflexivity.
  - assert (Hne : terminals g <> []).
    { intros Hnil. apply equal_nil in Hnil. congruence. }
    rewrite productive_pass_exact.
    destruct (existsb _ (rules g)) eqn:Eb; cbn [bind elements].
    + split; [|intros Hn; contradiction].
      split; [intros _ | reflexivity]. split; [exact Hne|].
      apply Hex. reflexivity.
    + assert (Heq : PySet.equal (terminals g) (terminals g) = true)
        by (apply equal_iff; tauto).
      rewrite Heq. split; [|reflexivity].
      split; [discriminate|]. intros [_ H]. apply Hex in H. discriminate.
Qed.

(** ** The pipeline of [main] *)

Lemma always_raises_ends a : always_raises a -> never_diverges a.
Proof. intros H g Hd. destruct (H g) as [e He]. congruence. Qed.

Lemma run_raises (p : list action) :
  Forall never_diverges p -> Exists always_raises p ->
  forall g, exists e, run p g = Raise e.
Proof.
  intros Hall Hex. induction Hex as [a p Ha | a p Hex IH]; intros g;
    rewrite run_cons.
  - destruct (Ha g) as [e ->]. exists e. reflexivity.
  - inversion Hall as [|? ? Ha Hp]; subst.
    destruct (run_action a g) as [g1| e |] eqn:E; cbn [bind].
    + apply (IH Hp g1).
    + exists e. reflexivity.
    + destruct (Ha g E).
Qed.

Lemma run_singleton f g : run [Step f] g = f g.
Proof. rewrite run_cons. apply bind_Return_r. Qed.

Lemma with_reachable_symbols_not_Diverge g :
  with_reachable_symbols g <> Diverge.
Proof.
  unfold with_reachable_symbols.
  destruct (reachable_symbols_returns g) as [reach ->]. cbn [bind].
  rewrite with_symbols_unfold. apply Grammar_init_not_Diverge.
Qed.

Lemma steps_never_diverge :
  never_diverges (Nested PipelineSteps.without_epsilon_rules) /\
  never_diverges (Nested PipelineSteps.without_unit_rules) /\
  never_diverges (Nested PipelineSteps.with_reachable_symbols).
Proof.
  repeat split; intros g;
    change (run_action (Nested ?p) g) with (run p g);
    unfold PipelineSteps.without_epsilon_rules,
      PipelineSteps.without_unit_rules, PipelineSteps.with_reachable_symbols;
    rewrite run_singleton.
  - apply without_epsilon_rules_not_Diverge.
  - apply without_unit_rules_not_Diverge.
  - apply with_reachable_symbols_not_Diverge.
Qed.

Lemma steps_always_raise :
  always_raises (Nested PipelineSteps.with_productive_symbols) /\
  always_raises (Nested PipelineSteps.with_useful_symbols) /\
  always_raises (Nested PipelineSteps.chomsky_normal_form).
Proof.
  repeat split; intros g; change (run_action (Nested ?p) g) with (run p g).
  - unfold PipelineSteps.with_productive_symbols. rewrite run_singleton.
    destruct (with_productive_symbols_raises g) as [-> | ->]; eauto.
  - rewrite run_with_useful_symbols.
    destruct (with_productive_symbols_raises g) as [-> | ->]; simpl; eauto.
  - rewrite run_chomsky_normal_form.
    destruct (without_epsilon_rules g) as [g1| e |] eqn:E1; simpl;
      [| eauto | exfalso; apply (without_epsilon_rules_not_Diverge g E1)].
    destruct (without_unit_rules g1) as [g2| e |] eqn:E2; simpl;
      [| eauto | exfalso; apply (without_unit_rules_not_Diverge g1 E2)].
    destruct (with_productive_symbols_raises g2) as [-> | ->]; simpl; eauto.
Qed.

(** X25. Whatever the other flags, a run of [main] with [--prod],
    [--useless] or [--cnf] ends with an exception on every grammar: the
    pipeline built holds the productive filter, the steps before it
    return or raise, and the productive filter raises. *)
Theorem main_pipeline_raises (null unit reach prod useless cnf : bool)
        (g : Grammar) :
  prod || useless || cnf = true ->
  exists e, run (main_pipeline null unit reach prod useless cnf) g = Raise e.
Proof.
  intros Hflag.
  destruct steps_never_diverge as (Hn & Hu & Hr).
  destruct steps_always_raise as (Hp & Hl & Hc).
  pose proof (always_raises_ends _ Hp) as Hp'.
  pose proof (always_raises_ends _ Hl) as Hl'.
  pose proof (always_raises_ends _ Hc) as Hc'.
  apply run_raises.
  - unfold main_pipeline, add_actions.
    destruct null, unit, reach, prod, useless, cnf; cbn [app];
      repeat constructor; assumption.
  - unfold main_pipeline, add_actions.
    destruct prod, useless, cnf; try discriminate Hflag;
      destruct null, unit, reach; cbn [app];
      repeat (first [ apply Exists_cons_hd; assumption
                    | apply Exists_cons_tl ]).
Qed.

Lemma main_pipeline_raises_witness :
  exists e, run (main_pipeline true true false false false true)
                (mkGrammar [("S", [["a"; "S"; "b"]; []])] "S") = Raise e.
Proof.
  apply (main_pipeline_raises true true false false false true).
  reflexivity.
Defined.

Lemma chomsky_normal_form_stops_at_productive_filter_witness :
  let g := mkGrammar [("S", [["a"; "S"; "b"]; []])] "S" in
  exists g1 g2 e,
    without_epsilon_rules g = Return g1 /\
    without_unit_rules g1 = Return g2 /\
    with_productive_symbols g2 = Raise e /\
    (e = frozenset_has_no_add \/ e = KeyError (Some (start g2))) /\
    run PipelineSteps.chomsky_normal_form g = Raise e.
Proof.
  intros g. apply (chomsky_normal_form_stops_at_productive_filter g).
  concrete_well_formed.
Defined.
